(** * HTNN configuration core: plugin catalog, consumer resolution, registries

    A shallow embedding of
      - [pkg/plugins/plugins.go]          (plugin catalog, config parser, order),
      - [internal/consumer/consumer.go]   (Consumer, Marshal/Unmarshal, InitConfigs),
      - the [registry] package            (ParseProtocol, CreateRegistry),
    together with the part of Go's [encoding/json], [strings] and [fmt] that
    these files call.

    Part I holds the model, one module per Go package.  Part II holds the
    properties. *)

From Stdlib Require Import ZArith NArith String Ascii List Bool Lia.
From stdpp Require Import gmap strings list fin_maps sorting.

Local Open Scope string_scope.
Local Open Scope list_scope.

(* ===================================================================== *)
(** * Part I.  The model                                                  *)
(* ===================================================================== *)

(** ** Go values shared by the packages *)

(** [[]byte]: Go byte slices; [string(b)] and [[]byte(s)] convert. *)
Abbreviation bytes := (list ascii).

Definition string_of_bytes (b : bytes) : string := string_of_list_ascii b.
Definition bytes_of_string (s : string) : bytes := list_ascii_of_string s.

(** Go's [error] values.  [fmt.Errorf] is kept symbolic: every call in the
    sources has one [%s] verb, filled with a plugin or registry name, and at
    most one [%w] verb, filled with the wrapped cause. *)
Inductive error : Type :=
| errors_New (text : string)
| fmt_Errorf (format : string) (name : string)
| fmt_Errorf_w (format : string) (name : string) (cause : error).

(** The name an error message was formatted with. *)
Definition names (e : error) (n : string) : Prop :=
  match e with
  | errors_New _ => False
  | fmt_Errorf _ n' | fmt_Errorf_w _ n' _ => n' = n
  end.

(** What a call can do: return, or panic (nil dereference, explicit
    [panic]). *)
Inductive outcome (A : Type) : Type :=
| Returned (a : A)
| Panicked (why : string).
Arguments Returned {A} a.
Arguments Panicked {A} why.

(** [(T, error)] results, chained on the first error. *)
#[export] Instance error_ret : MRet (sum error) := fun A a => inr a.

#[export] Instance error_bind : MBind (sum error) := fun A B k m =>
  match m with
  | inl err => inl err
  | inr a => k a
  end.

#[export] Instance error_fmap : FMap (sum error) := fun A B f m =>
  match m with
  | inl err => inl err
  | inr a => inr (f a)
  end.

(** The error a decoder keeps while it carries on: the earliest one. *)
Definition first_error (saved new : option error) : option error :=
  match saved with
  | Some _ => saved
  | None => new
  end.

(* --------------------------------------------------------------------- *)
(** ** Package [unicode/utf8] and [strings] *)

Module utf8.

Definition code (c : ascii) : N := N_of_ascii c.

Definition between (lo hi : N) (c : ascii) : bool :=
  ((lo <=? code c) && (code c <=? hi))%N.

(** [utf8.RuneSelf]: bytes below it are runes of their own. *)
Definition RuneSelf : N := 0x80.

Definition single (c : ascii) : bool := (code c <? RuneSelf)%N.

Definition continuation (c : ascii) : bool := between 0x80 0xBF c.

(** The range the second byte must lie in, by the first byte. *)
Definition second (c c1 : ascii) : bool :=
  if (code c =? 0xE0)%N then between 0xA0 0xBF c1
  else if (code c =? 0xED)%N then between 0x80 0x9F c1
  else if (code c =? 0xF0)%N then between 0x90 0xBF c1
  else if (code c =? 0xF4)%N then between 0x80 0x8F c1
  else continuation c1.

(** Width of the rune [utf8.DecodeRune] reads at the head of [c :: r];
    [0] stands for its answer [(RuneError, 1)] on an invalid sequence. *)
Definition width (c : ascii) (r : bytes) : nat :=
  if single c then 1
  else if between 0xC2 0xDF c then
    match r with
    | c1 :: _ => if continuation c1 then 2 else 0
    | _ => 0
    end
  else if between 0xE0 0xEF c then
    match r with
    | c1 :: c2 :: _ => if second c c1 && continuation c2 then 3 else 0
    | _ => 0
    end
  else if between 0xF0 0xF4 c then
    match r with
    | c1 :: c2 :: c3 :: _ =>
        if second c c1 && continuation c2 && continuation c3 then 4 else 0
    | _ => 0
    end
  else 0.

Definition byte (n : N) : ascii := ascii_of_N (n mod 256).

(** [utf8.AppendRune]: the encoding of a code point; surrogates and
    values past U+10FFFF are written as U+FFFD. *)
Definition EncodeRune (r : N) : bytes :=
  (if r <? 0x80 then [byte r]
   else if r <? 0x800 then
     [byte (0xC0 + r / 64); byte (0x80 + r mod 64)]
   else if ((0xD800 <=? r) && (r <=? 0xDFFF)) || (0x10FFFF <? r) then
     [byte 0xEF; byte 0xBF; byte 0xBD]
   else if r <? 0x10000 then
     [byte (0xE0 + r / 4096); byte (0x80 + (r / 64) mod 64);
      byte (0x80 + r mod 64)]
   else
     [byte (0xF0 + r / 262144); byte (0x80 + (r / 4096) mod 64);
      byte (0x80 + (r / 64) mod 64); byte (0x80 + r mod 64)])%N.

(** No byte of the text is outside ASCII. *)
Definition ascii_only (s : bytes) : bool := forallb single s.

(** [utf8.Valid], from inside a rune with [k] bytes to go: the text is a
    sequence of well-formed runes. *)
Fixpoint valid_tail (k : nat) (s : bytes) : bool :=
  match s with
  | [] => Nat.eqb k 0
  | c :: r =>
      match k with
      | S k' => valid_tail k' r
      | O =>
          match width c r with
          | O => false
          | S k' => valid_tail k' r
          end
      end
  end.

Definition ValidString (s : string) : bool := valid_tail 0 (bytes_of_string s).

End utf8.

Module strings.

Definition lower (c : ascii) : ascii :=
  if utf8.between 65 90 c then ascii_of_N (utf8.code c + 32) else c.

Section ToLower.
(** [strings.Map(unicode.ToLower, s)], the path [strings.ToLower] takes
    for a string with a byte outside ASCII.  Unicode's case tables are
    not part of the model. *)
Variable unicode_ToLower : string -> string.

(** [strings.ToLower]: ASCII strings are lowered byte by byte. *)
Definition ToLower (s : string) : string :=
  if utf8.ascii_only (bytes_of_string s)
  then string_of_bytes (map lower (bytes_of_string s))
  else unicode_ToLower s.
End ToLower.

End strings.

(* --------------------------------------------------------------------- *)
(** ** Package [encoding/json]: documents and the encoder

    A document is the syntax tree of a JSON text.  [json.Marshal] of a Go
    value is the text of the document the value's type maps it to; number
    literals are kept as written, so no floating point enters the model. *)

Module json.

Unset Elimination Schemes.
Inductive value : Type :=
| Null
| Boolean (b : bool)
| Number (literal : string)
| Str (s : string)
| Array (elements : list value)
| Object (members : list (string * value)).
Set Elimination Schemes.

Definition dquote : ascii := ascii_of_nat 34.
Definition backslash : ascii := ascii_of_nat 92.

Definition hex (n : N) : ascii :=
  nth (N.to_nat n) (bytes_of_string "0123456789abcdef") "0"%char.

(** One ASCII byte inside a string literal, as [encodeState.string] writes
    it with HTML escaping on (the default of [json.Marshal]). *)
Definition escaped (c : ascii) : bytes :=
  let n := utf8.code c in
  if ((n =? 34) || (n =? 92))%N then [backslash; c]
  else if (n =? 10)%N then [backslash; "n"%char]
  else if (n =? 13)%N then [backslash; "r"%char]
  else if (n =? 9)%N then [backslash; "t"%char]
  else if ((n <? 32) || (n =? 60) || (n =? 62) || (n =? 38))%N then
    [backslash; "u"%char; "0"%char; "0"%char; hex (n / 16); hex (n mod 16)]
  else [c].

(** U+2028 and U+2029, which the encoder writes as escapes. *)
Definition separator (c : ascii) (r : bytes) : option ascii :=
  match r with
  | c1 :: c2 :: _ =>
      if ((utf8.code c =? 0xE2) && (utf8.code c1 =? 0x80))%N then
        if (utf8.code c2 =? 0xA8)%N then Some "8"%char
        else if (utf8.code c2 =? 0xA9)%N then Some "9"%char
        else None
      else None
  | _ => None
  end.

(** Where the encoder stands inside a rune of several bytes. *)
Inductive rune_tail : Type :=
| Copy (k : nat)     (* [k] more bytes of the rune go out as they are *)
| Skip (k : nat).    (* [k] more bytes of the rune were written as an escape *)

Fixpoint string_body (m : rune_tail) (s : bytes) : bytes :=
  match s with
  | [] => []
  | c :: r =>
      match m with
      | Copy (S k) => c :: string_body (Copy k) r
      | Skip (S k) => string_body (Skip k) r
      | _ =>
          if utf8.single c then escaped c ++ string_body (Copy 0) r
          else
            match utf8.width c r with
            | O =>
                backslash :: bytes_of_string "ufffd" ++ string_body (Copy 0) r
            | S k =>
                match separator c r with
                | Some d =>
                    backslash :: bytes_of_string "u202" ++ d ::
                      string_body (Skip k) r
                | None => c :: string_body (Copy k) r
                end
            end
      end
  end.

Definition quote (s : string) : bytes :=
  dquote :: string_body (Copy 0) (bytes_of_string s) ++ [dquote].

Fixpoint commas (l : list bytes) : bytes :=
  match l with
  | [] => []
  | [x] => x
  | x :: r => x ++ ","%char :: commas r
  end.

(** The compact text of a document. *)
Fixpoint encode (v : value) : bytes :=
  match v with
  | Null => bytes_of_string "null"
  | Boolean true => bytes_of_string "true"
  | Boolean false => bytes_of_string "false"
  | Number literal => bytes_of_string literal
  | Str s => quote s
  | Array elements =>
      "["%char :: commas (map encode elements) ++ ["]"%char]
  | Object members =>
      "{"%char ::
        commas (map (fun m => quote (fst m) ++ ":"%char :: encode (snd m))
                    members) ++ ["}"%char]
  end.

(** *** The decoder's reading of a text

    [json.Unmarshal] first checks that its input is one JSON value with
    white space around it, then decodes; [decode] gives the document, or
    [None] where the check reports a syntax error. *)

Definition is_space (c : ascii) : bool :=
  let n := utf8.code c in ((n =? 32) || (n =? 9) || (n =? 13) || (n =? 10))%N.

Fixpoint skip_space (s : bytes) : bytes :=
  match s with
  | c :: r => if is_space c then skip_space r else s
  | [] => []
  end.

Fixpoint strip_prefix (p s : bytes) : option bytes :=
  match p, s with
  | [], _ => Some s
  | a :: p', b :: s' => if Ascii.eqb a b then strip_prefix p' s' else None
  | _ :: _, [] => None
  end.

Definition is_digit (c : ascii) : bool := utf8.between 48 57 c.

(** Number literals, by the states of the scanner. *)
Inductive number_state : Type :=
| stateNeg | state0 | state1 | stateDot | stateDot0
| stateE | stateESign | stateE0.

Definition number_step (q : number_state) (c : ascii) : option number_state :=
  let n := utf8.code c in
  let exponent := ((n =? 101) || (n =? 69))%N in
  match q with
  | stateNeg =>
      if (n =? 48)%N then Some state0
      else if utf8.between 49 57 c then Some state1 else None
  | state1 =>
      if is_digit c then Some state1
      else if (n =? 46)%N then Some stateDot
      else if exponent then Some stateE else None
  | state0 =>
      if (n =? 46)%N then Some stateDot
      else if exponent then Some stateE else None
  | stateDot => if is_digit c then Some stateDot0 else None
  | stateDot0 =>
      if is_digit c then Some stateDot0
      else if exponent then Some stateE else None
  | stateE =>
      if ((n =? 43) || (n =? 45))%N then Some stateESign
      else if is_digit c then Some stateE0 else None
  | stateESign => if is_digit c then Some stateE0 else None
  | stateE0 => if is_digit c then Some stateE0 else None
  end.

Definition number_end (q : number_state) : bool :=
  match q with
  | state0 | state1 | stateDot0 | stateE0 => true
  | _ => false
  end.

Fixpoint number_tail (q : number_state) (s : bytes) : option (bytes * bytes) :=
  match s with
  | c :: r =>
      match number_step q c with
      | Some q' =>
          match number_tail q' r with
          | Some (lit, rest) => Some (c :: lit, rest)
          | None => None
          end
      | None => if number_end q then Some ([], s) else None
      end
  | [] => if number_end q then Some ([], []) else None
  end.

Definition number_start (c : ascii) : option number_state :=
  if (utf8.code c =? 45)%N then Some stateNeg
  else if (utf8.code c =? 48)%N then Some state0
  else if utf8.between 49 57 c then Some state1
  else None.

Definition hex_value (c : ascii) : option N :=
  let n := utf8.code c in
  if utf8.between 48 57 c then Some (n - 48)%N
  else if utf8.between 97 102 c then Some (n - 87)%N
  else if utf8.between 65 70 c then Some (n - 55)%N
  else None.

(** [getu4]: the value of four hex digits. *)
Definition getu4 (s : bytes) : option N :=
  match s with
  | a :: b :: c :: d :: _ =>
      match hex_value a, hex_value b, hex_value c, hex_value d with
      | Some x, Some y, Some z, Some w =>
          Some (((x * 16 + y) * 16 + z) * 16 + w)%N
      | _, _, _, _ => None
      end
  | _ => None
  end.

(** The low half of a surrogate pair written as a second [\u] escape. *)
Definition low_surrogate (s : bytes) : option N :=
  match s with
  | b :: u :: r =>
      if Ascii.eqb b backslash && Ascii.eqb u "u"%char then
        match getu4 r with
        | Some lo => if ((0xDC00 <=? lo) && (lo <=? 0xDFFF))%N then Some lo else None
        | None => None
        end
      else None
  | _ => None
  end.

(** The rune of a [\u] escape whose digits start [s], and how many bytes
    after the four digits belong to it. *)
Definition escaped_rune (hi : N) (after : bytes) : N * nat :=
  if ((0xD800 <=? hi) && (hi <=? 0xDBFF))%N then
    match low_surrogate after with
    | Some lo => ((0x10000 + (hi - 0xD800) * 1024 + (lo - 0xDC00))%N, 6)
    | None => (0xFFFD%N, 0)
    end
  else if ((0xDC00 <=? hi) && (hi <=? 0xDFFF))%N then (0xFFFD%N, 0)
  else (hi, 0).

Definition simple_escape (c : ascii) : option ascii :=
  let n := utf8.code c in
  if ((n =? 34) || (n =? 92) || (n =? 47))%N then Some c
  else if (n =? 98)%N then Some (ascii_of_nat 8)
  else if (n =? 102)%N then Some (ascii_of_nat 12)
  else if (n =? 110)%N then Some (ascii_of_nat 10)
  else if (n =? 114)%N then Some (ascii_of_nat 13)
  else if (n =? 116)%N then Some (ascii_of_nat 9)
  else None.

Definition prepend (b : bytes) (r : option (bytes * bytes))
  : option (bytes * bytes) :=
  match r with
  | Some (text, rest) => Some (b ++ text, rest)
  | None => None
  end.

(** A string literal from behind its opening quote: the text it denotes
    and what follows its closing quote.  Invalid UTF-8 is read as U+FFFD. *)
Fixpoint string_literal (m : rune_tail) (s : bytes) : option (bytes * bytes) :=
  match s with
  | [] => None
  | c :: r =>
      match m with
      | Copy (S k) => prepend [c] (string_literal (Copy k) r)
      | Skip (S k) => string_literal (Skip k) r
      | _ =>
          if Ascii.eqb c dquote then Some ([], r)
          else if Ascii.eqb c backslash then
            match r with
            | [] => None
            | e :: r' =>
                if Ascii.eqb e "u"%char then
                  match getu4 r' with
                  | Some hi =>
                      let (rune, more) := escaped_rune hi (drop 4 r') in
                      prepend (utf8.EncodeRune rune)
                        (string_literal (Skip (5 + more)) r)
                  | None => None
                  end
                else
                  match simple_escape e with
                  | Some x => prepend [x] (string_literal (Skip 1) r)
                  | None => None
                  end
            end
          else if (utf8.code c <? 32)%N then None
          else if utf8.single c then prepend [c] (string_literal (Copy 0) r)
          else
            match utf8.width c r with
            | O => prepend (utf8.EncodeRune 0xFFFD) (string_literal (Copy 0) r)
            | S k => prepend [c] (string_literal (Copy k) r)
            end
      end
  end.

Definition after_quote (s : bytes) : option (string * bytes) :=
  match string_literal (Copy 0) s with
  | Some (text, rest) => Some (string_of_bytes text, rest)
  | None => None
  end.

(** [maxNestingDepth]: the scanner gives up on an array or object that
    lies within this many others. *)
Definition maxNestingDepth : N := 10000.

(** One value at the head of the text, behind white space, and the text
    after it; [depth] arrays and objects are open around it.  [fuel]
    bounds the calls; [decode] gives enough. *)
Fixpoint value_at (fuel : nat) (depth : N) (s : bytes)
  : option (value * bytes) :=
  match fuel with
  | O => None
  | S fuel =>
      match skip_space s with
      | [] => None
      | c :: r =>
          if Ascii.eqb c "{"%char then
            if (maxNestingDepth <=? depth)%N then None
            else
              match skip_space r with
              | c' :: r' =>
                  if Ascii.eqb c' "}"%char then Some (Object [], r')
                  else
                    match members_at fuel (depth + 1) r with
                    | Some (ms, rest) => Some (Object ms, rest)
                    | None => None
                    end
              | [] => None
              end
          else if Ascii.eqb c "["%char then
            if (maxNestingDepth <=? depth)%N then None
            else
              match skip_space r with
              | c' :: r' =>
                  if Ascii.eqb c' "]"%char then Some (Array [], r')
                  else
                    match elements_at fuel (depth + 1) r with
                    | Some (vs, rest) => Some (Array vs, rest)
                    | None => None
                    end
              | [] => None
              end
          else if Ascii.eqb c dquote then
            match after_quote r with
            | Some (text, rest) => Some (Str text, rest)
            | None => None
            end
          else if Ascii.eqb c "n"%char then
            option_map (pair Null) (strip_prefix (bytes_of_string "ull") r)
          else if Ascii.eqb c "t"%char then
            option_map (pair (Boolean true))
              (strip_prefix (bytes_of_string "rue") r)
          else if Ascii.eqb c "f"%char then
            option_map (pair (Boolean false))
              (strip_prefix (bytes_of_string "alse") r)
          else
            match number_start c with
            | Some q =>
                match number_tail q r with
                | Some (lit, rest) =>
                    Some (Number (string_of_bytes (c :: lit)), rest)
                | None => None
                end
            | None => None
            end
      end
  end

with elements_at (fuel : nat) (depth : N) (s : bytes)
  : option (list value * bytes) :=
  match fuel with
  | O => None
  | S fuel =>
      match value_at fuel depth s with
      | Some (v, rest) =>
          match skip_space rest with
          | c :: r =>
              if Ascii.eqb c ","%char then
                match elements_at fuel depth r with
                | Some (vs, rest') => Some (v :: vs, rest')
                | None => None
                end
              else if Ascii.eqb c "]"%char then Some ([v], r)
              else None
          | [] => None
          end
      | None => None
      end
  end

with members_at (fuel : nat) (depth : N) (s : bytes)
  : option (list (string * value) * bytes) :=
  match fuel with
  | O => None
  | S fuel =>
      match skip_space s with
      | q :: r =>
          if Ascii.eqb q dquote then
            match after_quote r with
            | Some (key, rest) =>
                match skip_space rest with
                | c :: r' =>
                    if Ascii.eqb c ":"%char then
                      match value_at fuel depth r' with
                      | Some (v, rest') =>
                          match skip_space rest' with
                          | c' :: r'' =>
                              if Ascii.eqb c' ","%char then
                                match members_at fuel depth r'' with
                                | Some (ms, rest'') =>
                                    Some ((key, v) :: ms, rest'')
                                | None => None
                                end
                              else if Ascii.eqb c' "}"%char then
                                Some ([(key, v)], r'')
                              else None
                          | [] => None
                          end
                      | None => None
                      end
                    else None
                | [] => None
                end
            | None => None
            end
          else None
      | [] => None
      end
  end.

Definition decode (text : bytes) : option value :=
  match value_at (S (length text)) 0 text with
  | Some (v, rest) =>
      match skip_space rest with
      | [] => Some v
      | _ :: _ => None
      end
  | None => None
  end.

(** *** Documents the decoder reads back as they are

    Text in valid UTF-8, number literals of the JSON grammar, and arrays
    and objects nested no deeper than the scanner follows. *)

Definition number_literal (literal : string) : bool :=
  match bytes_of_string literal with
  | c :: r =>
      match number_start c with
      | Some q =>
          match number_tail q r with
          | Some (lit, []) => true
          | _ => false
          end
      | None => false
      end
  | [] => false
  end.

Fixpoint legible (v : value) : bool :=
  match v with
  | Null | Boolean _ => true
  | Number literal => number_literal literal
  | Str s => utf8.ValidString s
  | Array elements => forallb legible elements
  | Object members =>
      forallb (fun m => utf8.ValidString (fst m) && legible (snd m)) members
  end.

(** How deep arrays and objects nest in a document. *)
Fixpoint nesting (v : value) : N :=
  match v with
  | Array elements =>
      (1 + fold_right (fun x d => N.max (nesting x) d) 0 elements)%N
  | Object members =>
      (1 + fold_right (fun m d => N.max (nesting (snd m)) d) 0 members)%N
  | _ => 0%N
  end.

Definition well_formed (v : value) : bool :=
  legible v && (nesting v <=? maxNestingDepth)%N.

(** What stands behind a value: the end of the text, or the byte that
    goes on or closes the array or object around it. *)
Definition closes (rest : bytes) : bool :=
  match rest with
  | [] => true
  | c :: _ =>
      Ascii.eqb c ","%char || Ascii.eqb c "]"%char || Ascii.eqb c "}"%char
  end.

(** The calls [value_at] needs for a document. *)
Fixpoint size (v : value) : nat :=
  match v with
  | Array elements => S (list_sum (map (fun x => S (size x)) elements))
  | Object members =>
      S (list_sum (map (fun m => S (size (snd m))) members))
  | _ => 1
  end.

(** The text of a value starts with a byte that is no white space and
    closes no array or object. *)
Definition opens (text : bytes) : Prop :=
  exists c t,
    text = c :: t /\ is_space c = false
    /\ Ascii.eqb c "]"%char = false /\ Ascii.eqb c "}"%char = false.

(** The fuel a list of elements takes. *)
Definition need {A : Type} (f : A -> value) (l : list A) : nat :=
  list_sum (map (fun x => S (size (f x))) l).

(** What [value_at] is to do for a value. *)
Definition reads (v : value) : Prop :=
  forall fuel depth rest,
    size v <= fuel ->
    (depth + nesting v <= maxNestingDepth)%N ->
    closes rest = true ->
    value_at fuel depth (encode v ++ rest) = Some (v, rest).

(** The text of a member: its key, a colon, its value. *)
Definition member_text (m : string * value) : bytes :=
  quote (fst m) ++ ":"%char :: encode (snd m).

(** A JSON text written with ['] for the double quote. *)
Definition text (s : string) : string :=
  string_of_bytes
    (map (fun c => if Ascii.eqb c "'"%char then dquote else c)
       (bytes_of_string s)).

(** [foldName]: field names are matched without regard to case; the Kelvin
    sign and the long s fold to [K] and [S]. *)
Fixpoint fold_name (s : bytes) : bytes :=
  match s with
  | [] => []
  | c :: r =>
      if utf8.between 97 122 c then ascii_of_N (utf8.code c - 32) :: fold_name r
      else
        match r with
        | c1 :: ((c2 :: r2) as r1) =>
            if ((utf8.code c =? 0xE2) && (utf8.code c1 =? 0x84)
                && (utf8.code c2 =? 0xAA))%N
            then "K"%char :: fold_name r2
            else if ((utf8.code c =? 0xC5) && (utf8.code c1 =? 0xBF))%N
            then "S"%char :: fold_name r1
            else c :: fold_name r
        | [c1] =>
            if ((utf8.code c =? 0xC5) && (utf8.code c1 =? 0xBF))%N
            then ["S"%char]
            else c :: fold_name r
        | [] => [c]
        end
  end.

(** The field a key of the text is stored to: the one whose name it is,
    else the one whose name it folds to. *)
Definition field_of (names : list string) (key : string) : option string :=
  match find (String.eqb key) names with
  | Some f => Some f
  | None =>
      find (fun f => if decide (fold_name (bytes_of_string f)
                                = fold_name (bytes_of_string key))
                     then true else false) names
  end.

End json.

(** [interface{}] as the callers of this code hand it over.  The code
    observes such a value through the test against [nil] and through
    [json.Marshal] only: a value is the document it is written as, or the
    error [json.Marshal] reports on it. *)
Inductive interface : Type :=
| nil_interface
| marshals_as (doc : json.value)
| marshal_fails (err : error).

(** [json.Marshal] of such a value. *)
Definition json_Marshal (v : interface) : error + bytes :=
  match v with
  | nil_interface => inr (json.encode json.Null)
  | marshals_as doc => inr (json.encode doc)
  | marshal_fails err => inl err
  end.

(* --------------------------------------------------------------------- *)
(** ** Package [plugins]  ([pkg/plugins/plugins.go]) *)

Module plugins.

(** [PluginOrder]: both fields are Go [int]s. *)
Record PluginOrder : Type := { Position : Z; Operation : Z }.

(** The method [Validate() error] of the configuration interfaces. *)
Class Validator (T : Type) : Type := Validate : T -> option error.

(** The zero value a Go map lookup gives for a missing key. *)
Definition zero_order : PluginOrder := {| Position := 0; Operation := 0 |}.

Section Catalog.

(** Types declared outside the sources: the fields of a protobuf message,
    [api.FilterFactory] and [api.ConfigCallbackHandler]. *)
Context {Message FilterFactory Callbacks : Type}.

(** [api.PluginConfig]: a configuration object, with the methods of its
    dynamic type.  [pc_unmarshal] is what [protojson.Unmarshal] does to a
    message of this type. *)
Record PluginConfig : Type := {
  pc_fields : Message;
  pc_unmarshal : bytes -> Message -> error + Message;
  pc_validate : Message -> option error;
  pc_init : option Callbacks -> Message -> error + Message }.

(** [api.PluginConsumerConfig]: the same without [Init]. *)
Record PluginConsumerConfig : Type := {
  cc_fields : Message;
  cc_unmarshal : bytes -> Message -> error + Message;
  cc_validate : Message -> option error }.

Definition pc_with (conf : PluginConfig) (m : Message) : PluginConfig :=
  {| pc_fields := m; pc_unmarshal := pc_unmarshal conf;
     pc_validate := pc_validate conf; pc_init := pc_init conf |}.

Definition cc_with (conf : PluginConsumerConfig) (m : Message)
  : PluginConsumerConfig :=
  {| cc_fields := m; cc_unmarshal := cc_unmarshal conf;
     cc_validate := cc_validate conf |}.

(** [protojson.Unmarshal(data, conf)]. *)
Definition protojson_Unmarshal (data : bytes) (conf : PluginConfig)
  : error + PluginConfig :=
  match pc_unmarshal conf data (pc_fields conf) with
  | inl err => inl err
  | inr m => inr (pc_with conf m)
  end.

(** [proto.UnmarshalJSON(data, conf)] on a consumer configuration
    ([internal/proto] is not in the sources: the decoding is the message
    type's, [cc_unmarshal]). *)
Definition proto_UnmarshalJSON (data : bytes) (conf : PluginConsumerConfig)
  : error + PluginConsumerConfig :=
  match cc_unmarshal conf data (cc_fields conf) with
  | inl err => inl err
  | inr m => inr (cc_with conf m)
  end.

(** [conf.Validate()] and [conf.Init(callbacks)]. *)
#[export] Instance PluginConfig_Validate : Validator PluginConfig :=
  fun conf => pc_validate conf (pc_fields conf).

#[export] Instance PluginConsumerConfig_Validate
  : Validator PluginConsumerConfig :=
  fun conf => cc_validate conf (cc_fields conf).

Definition Init (conf : PluginConfig) (callbacks : option Callbacks)
  : error + PluginConfig :=
  match pc_init conf callbacks (pc_fields conf) with
  | inl err => inl err
  | inr m => inr (pc_with conf m)
  end.

(** The [Plugin] interface.  [ConsumerConfig] is [Some] for the plugins
    that also implement [ConsumerPlugin]. *)
Record Plugin : Type := {
  Order : PluginOrder;
  ConfigFactory : FilterFactory;
  Config : PluginConfig;
  ConsumerConfig : option PluginConsumerConfig }.

Record PluginConfigParser : Type := { parser_Plugin : Plugin }.

Definition NewPluginConfigParser (parser : Plugin) : PluginConfigParser :=
  {| parser_Plugin := parser |}.

(** What [filtermanager] keeps per name. *)
Record FilterFactoryAndParser : Type := {
  ConfigParser : PluginConfigParser;
  Factory : FilterFactory }.

(** The package-level variables, with the table [filtermanager] holds. *)
Record state : Type := {
  httpPlugins : gmap string Plugin;
  httpFilterFactoryAndParser : gmap string FilterFactoryAndParser;
  nameToOrder : gmap string PluginOrder;
  nameToOrderInit : bool }.

(** The variables as the package initialises them. *)
Definition initial : state :=
  {| httpPlugins := ∅; httpFilterFactoryAndParser := ∅;
     nameToOrder := ∅; nameToOrderInit := false |}.

(** Modelled from the spec: [filtermanager.RegisterHttpFilterConfigFactoryAndParser]
    is not in the sources; registration inserts or overwrites the entry
    under [name]. *)
Definition RegisterHttpFilterConfigFactoryAndParser
    (name : string) (factory : FilterFactory) (parser : PluginConfigParser)
    (st : state) : state :=
  {| httpPlugins := httpPlugins st;
     httpFilterFactoryAndParser :=
       <[name := {| ConfigParser := parser; Factory := factory |}]>
         (httpFilterFactoryAndParser st);
     nameToOrder := nameToOrder st;
     nameToOrderInit := nameToOrderInit st |}.

Definition Store (name : string) (plugin : Plugin) (st : state) : state :=
  {| httpPlugins := <[name := plugin]> (httpPlugins st);
     httpFilterFactoryAndParser := httpFilterFactoryAndParser st;
     nameToOrder := nameToOrder st;
     nameToOrderInit := nameToOrderInit st |}.

Definition RegisterHttpPlugin (name : string) (plugin : option Plugin)
    (st : state) : outcome state :=
  match plugin with
  | None => Panicked "plugin should not be nil"
  | Some p =>
      Returned
        (Store name p
           (RegisterHttpFilterConfigFactoryAndParser name
              (ConfigFactory p) (NewPluginConfigParser p) st))
  end.

Definition LoadHttpPlugin (name : string) (st : state) : option Plugin :=
  httpPlugins st !! name.

(** Modelled from the spec: [LoadHttpFilterFactoryAndParser] is not in the
    sources; it looks up the registered config-factory-and-parser pair and
    gives nil for a name that has none. *)
Definition LoadHttpFilterFactoryAndParser (name : string) (st : state)
  : option FilterFactoryAndParser :=
  httpFilterFactoryAndParser st !! name.

(** [sync.Map.Range]: the visitor runs over the entries until it answers
    [false]; [acc] is what the visitor's closure writes to. *)
Fixpoint Range {A : Type} (f : string -> Plugin -> A -> A * bool)
    (entries : list (string * Plugin)) (acc : A) : A :=
  match entries with
  | [] => acc
  | (k, v) :: rest =>
      let (acc', continue) := f k v acc in
      if continue then Range f rest acc' else acc'
  end.

Definition IterateHttpPlugin {A : Type}
    (f : string -> Plugin -> A -> A * bool) (st : state) (acc : A) : A :=
  Range f (map_to_list (httpPlugins st)) acc.

(** [nameToOrderInit.Do(f)]: [f] runs on the first call only. *)
Definition Do (f : state -> gmap string PluginOrder) (st : state) : state :=
  if nameToOrderInit st then st
  else {| httpPlugins := httpPlugins st;
          httpFilterFactoryAndParser := httpFilterFactoryAndParser st;
          nameToOrder := f st;
          nameToOrderInit := true |}.

(** [nameToOrder[a]]. *)
Definition order_of (a : string) (st : state) : PluginOrder :=
  default zero_order (nameToOrder st !! a).

(** The comparison on two orders and the names, once the table is read. *)
Definition less (aOrder bOrder : PluginOrder) (a b : string) : bool :=
  if negb (Position aOrder =? Position bOrder)%Z then
    (Position aOrder <? Position bOrder)%Z
  else if negb (Operation aOrder =? Operation bOrder)%Z then
    (Operation aOrder <? Operation bOrder)%Z
  else String.ltb a b.

Definition ComparePluginOrder (a b : string) (st : state) : bool * state :=
  let st' :=
    Do (fun st =>
          IterateHttpPlugin
            (fun key value table => (<[key := Order value]> table, true))
            st (nameToOrder st))
       st in
  let aOrder := order_of a st' in
  let bOrder := order_of b st' in
  (less aOrder bOrder a b, st').

(** What [ComparePluginOrder] answers in a state. *)
Definition CompareOrder (st : state) (a b : string) : bool :=
  fst (ComparePluginOrder a b st).

(** The calls a process makes on the catalog over its lifetime.  A
    registration that panics has written nothing. *)
Inductive action : Type :=
| Register (name : string) (plugin : option Plugin)
| Compare (a b : string).

Definition step (act : action) (st : state) : state :=
  match act with
  | Register name plugin =>
      match RegisterHttpPlugin name plugin st with
      | Returned st' => st'
      | Panicked _ => st
      end
  | Compare a b => snd (ComparePluginOrder a b st)
  end.

Definition run (acts : list action) (st : state) : state :=
  fold_left (fun st act => step act st) acts st.

(** Whether a call of the process stores a plugin under [name]. *)
Definition registers (name : string) (act : action) : bool :=
  match act with
  | Register n (Some _) => String.eqb n name
  | _ => false
  end.


(** *** [PluginConfigParser.Parse], with the calls it makes on record *)

Inductive call : Type :=
| call_Config
| call_Marshal (any : interface)
| call_Unmarshal (data : bytes) (conf : PluginConfig)
| call_Validate (conf : PluginConfig)
| call_Init (conf : PluginConfig).

(** A computation that logs its calls and stops at the first error. *)
Definition traced (A : Type) : Type := list call * (error + A).

Definition invoke {A : Type} (c : call) (r : error + A) : traced A := ([c], r).

#[export] Instance traced_ret : MRet traced := fun A a => ([], inr a).

#[export] Instance traced_bind : MBind traced := fun A B k m =>
  match m with
  | (t, inl err) => (t, inl err)
  | (t, inr a) => let (t', r) := k a in (t ++ t', r)
  end.

Definition check (r : option error) : error + unit :=
  match r with
  | Some err => inl err
  | None => inr tt
  end.

Definition Parse (cp : PluginConfigParser) (any : interface)
    (callbacks : option Callbacks) : traced PluginConfig :=
  conf ← invoke call_Config (inr (Config (parser_Plugin cp)));
  conf ← match any with
          | nil_interface => mret conf
          | _ =>
              data ← invoke (call_Marshal any) (json_Marshal any);
              invoke (call_Unmarshal data conf) (protojson_Unmarshal data conf)
          end;
  _ ← invoke (call_Validate conf) (check (Validate conf));
  conf ← invoke (call_Init conf) (Init conf callbacks);
  mret conf.

(** The decoding stage on its own: the object the later stages work on,
    or the error of the re-encoding or of the decoding. *)
Definition decoded (cp : PluginConfigParser) (any : interface)
  : error + PluginConfig :=
  match any with
  | nil_interface => inr (Config (parser_Plugin cp))
  | _ =>
      data ← json_Marshal any;
      protojson_Unmarshal data (Config (parser_Plugin cp))
  end.

(** The calls of the decoding stage. *)
Definition decode_calls (cp : PluginConfigParser) (any : interface)
  : list call :=
  match any with
  | nil_interface => []
  | _ =>
      call_Marshal any ::
        match json_Marshal any with
        | inl _ => []
        | inr data => [call_Unmarshal data (Config (parser_Plugin cp))]
        end
  end.

(** The place of a call in the pipeline. *)
Definition stage (c : call) : nat :=
  match c with
  | call_Config => 0
  | call_Marshal _ => 1
  | call_Unmarshal _ _ => 2
  | call_Validate _ => 3
  | call_Init _ => 4
  end.

Definition is_decode (c : call) : bool :=
  match c with
  | call_Marshal _ | call_Unmarshal _ _ => true
  | _ => false
  end.

Definition is_Validate (c : call) : bool :=
  match c with
  | call_Validate _ => true
  | _ => false
  end.

Definition is_Init (c : call) : bool :=
  match c with
  | call_Init _ => true
  | _ => false
  end.

End Catalog.

Arguments PluginConfig : clear implicits.
Arguments PluginConsumerConfig : clear implicits.
Arguments Plugin : clear implicits.
Arguments PluginConfigParser : clear implicits.
Arguments FilterFactoryAndParser : clear implicits.
Arguments state : clear implicits.
Arguments call : clear implicits.
Arguments action : clear implicits.

End plugins.

(* --------------------------------------------------------------------- *)
(** ** Package [consumer]  ([internal/consumer/consumer.go]) *)

Module consumer.

Import plugins.

(** [model.FilterConfig] and [model.FilterWrapper] are declared outside
    the sources.  The code reads the field [Config] of the first, and
    [encoding/json] writes and reads both by their struct types;
    [decode_FilterConfig] fills a fresh [FilterConfig], [decode_FilterWrapper]
    the one a slice element already points to, if any. *)
Class Model (FilterConfig FilterWrapper : Type) : Type := {
  FilterConfig_Config : FilterConfig -> interface;
  encode_FilterConfig : FilterConfig -> error + json.value;
  decode_FilterConfig : json.value -> FilterConfig * option error;
  encode_FilterWrapper : FilterWrapper -> error + json.value;
  decode_FilterWrapper :
    json.value -> option FilterWrapper -> FilterWrapper * option error }.

Section Consumer.

Context {Message FilterFactory Callbacks FilterConfig FilterWrapper : Type}.
Context `{!Model FilterConfig FilterWrapper}.

Local Abbreviation PluginConfig := (plugins.PluginConfig Message Callbacks).
Local Abbreviation PluginConsumerConfig :=
  (plugins.PluginConsumerConfig Message).
Local Abbreviation state := (plugins.state Message FilterFactory Callbacks).

(** [model.ParsedFilterConfig], by the fields the code fills. *)
Record ParsedFilterConfig : Type := {
  Name : string;
  ParsedConfig : PluginConfig;
  Factory : FilterFactory }.

(** A map or slice field is [None] while it is nil; a [*model.FilterConfig]
    is [None] when it is a nil pointer. *)
Record Consumer : Type := {
  Auth : option (gmap string string);
  Filters : option (gmap string (option FilterConfig));
  namespace : string;
  name : string;
  generation : Z;
  ConsumerConfigs : option (gmap string PluginConsumerConfig);
  FilterConfigs : option (gmap string ParsedFilterConfig);
  CanSkipMethod : option (gmap string bool);
  FilterNames : option (list string);
  FilterWrappers : option (list (option FilterWrapper)) }.

(** [Consumer{}]. *)
Definition zero : Consumer :=
  {| Auth := None; Filters := None; namespace := EmptyString;
     name := EmptyString; generation := 0; ConsumerConfigs := None;
     FilterConfigs := None; CanSkipMethod := None; FilterNames := None;
     FilterWrappers := None |}.

Definition set_Auth (x : option (gmap string string)) (c : Consumer) :=
  {| Auth := x; Filters := Filters c; namespace := namespace c;
     name := name c; generation := generation c;
     ConsumerConfigs := ConsumerConfigs c; FilterConfigs := FilterConfigs c;
     CanSkipMethod := CanSkipMethod c; FilterNames := FilterNames c;
     FilterWrappers := FilterWrappers c |}.

Definition set_Filters (x : option (gmap string (option FilterConfig)))
    (c : Consumer) :=
  {| Auth := Auth c; Filters := x; namespace := namespace c;
     name := name c; generation := generation c;
     ConsumerConfigs := ConsumerConfigs c; FilterConfigs := FilterConfigs c;
     CanSkipMethod := CanSkipMethod c; FilterNames := FilterNames c;
     FilterWrappers := FilterWrappers c |}.

Definition set_ConsumerConfigs (x : option (gmap string PluginConsumerConfig))
    (c : Consumer) :=
  {| Auth := Auth c; Filters := Filters c; namespace := namespace c;
     name := name c; generation := generation c;
     ConsumerConfigs := x; FilterConfigs := FilterConfigs c;
     CanSkipMethod := CanSkipMethod c; FilterNames := FilterNames c;
     FilterWrappers := FilterWrappers c |}.

Definition set_FilterConfigs (x : option (gmap string ParsedFilterConfig))
    (c : Consumer) :=
  {| Auth := Auth c; Filters := Filters c; namespace := namespace c;
     name := name c; generation := generation c;
     ConsumerConfigs := ConsumerConfigs c; FilterConfigs := x;
     CanSkipMethod := CanSkipMethod c; FilterNames := FilterNames c;
     FilterWrappers := FilterWrappers c |}.

Definition set_CanSkipMethod (x : option (gmap string bool)) (c : Consumer) :=
  {| Auth := Auth c; Filters := Filters c; namespace := namespace c;
     name := name c; generation := generation c;
     ConsumerConfigs := ConsumerConfigs c; FilterConfigs := FilterConfigs c;
     CanSkipMethod := x; FilterNames := FilterNames c;
     FilterWrappers := FilterWrappers c |}.

Definition set_FilterNames (x : option (list string)) (c : Consumer) :=
  {| Auth := Auth c; Filters := Filters c; namespace := namespace c;
     name := name c; generation := generation c;
     ConsumerConfigs := ConsumerConfigs c; FilterConfigs := FilterConfigs c;
     CanSkipMethod := CanSkipMethod c; FilterNames := x;
     FilterWrappers := FilterWrappers c |}.

Definition set_FilterWrappers (x : option (list (option FilterWrapper)))
    (c : Consumer) :=
  {| Auth := Auth c; Filters := Filters c; namespace := namespace c;
     name := name c; generation := generation c;
     ConsumerConfigs := ConsumerConfigs c; FilterConfigs := FilterConfigs c;
     CanSkipMethod := CanSkipMethod c; FilterNames := FilterNames c;
     FilterWrappers := x |}.

(** *** [json.Marshal(c)]: the document of a Consumer, by its field tags

    Exported fields are written in the order of their declaration, under
    the name of their tag or else their own; [json:"-"] and unexported
    fields are left out, [omitempty] leaves out a nil or empty map.  Map
    keys are written in ascending order. *)

Fixpoint insert_key {V : Type} (kv : string * V) (l : list (string * V))
  : list (string * V) :=
  match l with
  | [] => [kv]
  | x :: r =>
      if String.ltb (fst kv) (fst x) then kv :: x :: r
      else x :: insert_key kv r
  end.

Definition sorted_entries {V : Type} (m : gmap string V)
  : list (string * V) :=
  foldr insert_key [] (map_to_list m).

Fixpoint encode_all {A : Type} (enc : A -> error + json.value) (l : list A)
  : error + list json.value :=
  match l with
  | [] => inr []
  | x :: r =>
      v ← enc x;
      vs ← encode_all enc r;
      mret (v :: vs)
  end.

Fixpoint encode_entries {V : Type} (enc : V -> error + json.value)
    (l : list (string * V)) : error + list (string * json.value) :=
  match l with
  | [] => inr []
  | (k, x) :: r =>
      v ← enc x;
      ms ← encode_entries enc r;
      mret ((k, v) :: ms)
  end.

Definition encode_map {V : Type} (enc : V -> error + json.value)
    (m : option (gmap string V)) : error + json.value :=
  match m with
  | None => inr json.Null
  | Some m => json.Object <$> encode_entries enc (sorted_entries m)
  end.

Definition encode_slice {A : Type} (enc : A -> error + json.value)
    (l : option (list A)) : error + json.value :=
  match l with
  | None => inr json.Null
  | Some l => json.Array <$> encode_all enc l
  end.

Definition encode_pointer {A : Type} (enc : A -> error + json.value)
    (p : option A) : error + json.value :=
  match p with
  | None => inr json.Null
  | Some x => enc x
  end.

Definition encode_string (s : string) : error + json.value :=
  inr (json.Str s).

Definition encode_bool (b : bool) : error + json.value :=
  inr (json.Boolean b).

(** [omitempty] on a map field. *)
Definition is_empty {V : Type} (m : option (gmap string V)) : bool :=
  match m with
  | None => true
  | Some m => Nat.eqb (size m) 0
  end.

Definition encode_Consumer (c : Consumer) : error + json.value :=
  auth ← encode_map encode_string (Auth c);
  filters ← encode_map (encode_pointer encode_FilterConfig) (Filters c);
  canSkipMethod ← encode_map encode_bool (CanSkipMethod c);
  filterNames ← encode_slice encode_string (FilterNames c);
  filterWrappers ←
    encode_slice (encode_pointer encode_FilterWrapper) (FilterWrappers c);
  mret (json.Object
          ([("auth", auth)] ++
           (if is_empty (Filters c) then [] else [("filters", filters)]) ++
           [("CanSkipMethod", canSkipMethod);
            ("FilterNames", filterNames);
            ("FilterWrappers", filterWrappers)])).

Definition json_Marshal_Consumer (c : Consumer) : error + bytes :=
  json.encode <$> encode_Consumer c.

Definition Marshal (c : Consumer) : string :=
  match json_Marshal_Consumer c with
  | inr b => string_of_bytes b
  | inl _ => string_of_bytes []
  end.

(** *** [json.Unmarshal(data, c)]

    A syntax error leaves [c] as it is.  A value of the wrong kind for its
    field is skipped, the decoder carries on and reports the earliest such
    error.  A map is filled in place, element by element from zero values;
    a slice is refilled, its present elements decoded in place. *)

Definition SyntaxError : error := errors_New "json: syntax error".

Definition UnmarshalTypeError (type : string) : error :=
  fmt_Errorf "json: cannot unmarshal into Go value of type %s" type.

Definition decode_string (v : json.value) (old : string)
  : string * option error :=
  match v with
  | json.Str s => (s, None)
  | json.Null => (old, None)
  | _ => (old, Some (UnmarshalTypeError "string"))
  end.

Definition decode_bool (v : json.value) (old : bool) : bool * option error :=
  match v with
  | json.Boolean b => (b, None)
  | json.Null => (old, None)
  | _ => (old, Some (UnmarshalTypeError "bool"))
  end.

Definition decode_FilterConfig_pointer (v : json.value)
  : option FilterConfig * option error :=
  match v with
  | json.Null => (None, None)
  | _ => let (x, err) := decode_FilterConfig v in (Some x, err)
  end.

Definition decode_FilterWrapper_pointer (v : json.value)
    (old : option FilterWrapper) : option FilterWrapper * option error :=
  match v with
  | json.Null => (None, None)
  | _ => let (x, err) := decode_FilterWrapper v old in (Some x, err)
  end.

Definition decode_map {V : Type} (elem : json.value -> V * option error)
    (type : string) (v : json.value) (old : option (gmap string V))
  : option (gmap string V) * option error :=
  match v with
  | json.Null => (None, None)
  | json.Object members =>
      let (m, err) :=
        fold_left
          (fun acc kv =>
             let (x, e) := elem (snd kv) in
             (<[fst kv := x]> (fst acc), first_error (snd acc) e))
          members (default ∅ old, None) in
      (Some m, err)
  | _ => (old, Some (UnmarshalTypeError type))
  end.

Fixpoint decode_elements {A : Type}
    (elem : json.value -> A -> A * option error) (zero : A)
    (vs : list json.value) (old : list A) : list A * option error :=
  match vs with
  | [] => ([], None)
  | v :: vs' =>
      let (x, e) := elem v (hd zero old) in
      let (xs, e') := decode_elements elem zero vs' (tl old) in
      (x :: xs, first_error e e')
  end.

Definition decode_slice {A : Type}
    (elem : json.value -> A -> A * option error) (zero : A)
    (type : string) (v : json.value) (old : option (list A))
  : option (list A) * option error :=
  match v with
  | json.Null => (None, None)
  | json.Array vs =>
      let (l, err) := decode_elements elem zero vs (default [] old) in
      (Some l, err)
  | _ => (old, Some (UnmarshalTypeError type))
  end.

(** The names the decoder knows the fields by. *)
Definition field_names : list string :=
  ["auth"; "filters"; "CanSkipMethod"; "FilterNames"; "FilterWrappers"].

Definition decode_field (key : string) (v : json.value) (c : Consumer)
  : Consumer * option error :=
  match json.field_of field_names key with
  | Some f =>
      if String.eqb f "auth" then
        let (x, err) :=
          decode_map (fun v => decode_string v EmptyString)
            "map[string]string" v (Auth c) in
        (set_Auth x c, err)
      else if String.eqb f "filters" then
        let (x, err) :=
          decode_map decode_FilterConfig_pointer
            "map[string]*model.FilterConfig" v (Filters c) in
        (set_Filters x c, err)
      else if String.eqb f "CanSkipMethod" then
        let (x, err) :=
          decode_map (fun v => decode_bool v false)
            "map[string]bool" v (CanSkipMethod c) in
        (set_CanSkipMethod x c, err)
      else if String.eqb f "FilterNames" then
        let (x, err) :=
          decode_slice decode_string EmptyString "[]string" v (FilterNames c) in
        (set_FilterNames x c, err)
      else
        let (x, err) :=
          decode_slice decode_FilterWrapper_pointer None
            "[]*model.FilterWrapper" v (FilterWrappers c) in
        (set_FilterWrappers x c, err)
  | None => (c, None)
  end.

Definition decode_Consumer (v : json.value) (c : Consumer)
  : Consumer * option error :=
  match v with
  | json.Null => (c, None)
  | json.Object members =>
      fold_left
        (fun acc kv =>
           let (c', e) := decode_field (fst kv) (snd kv) (fst acc) in
           (c', first_error (snd acc) e))
        members (c, None)
  | _ => (c, Some (UnmarshalTypeError "consumer.Consumer"))
  end.

Definition json_Unmarshal_Consumer (data : bytes) (c : Consumer)
  : Consumer * option error :=
  match json.decode data with
  | None => (c, Some SyntaxError)
  | Some v => decode_Consumer v c
  end.

Definition Unmarshal (c : Consumer) (s : string) : Consumer * option error :=
  json_Unmarshal_Consumer (bytes_of_string s) c.


(** *** [InitConfigs]

    [range] over a map visits the entries in an order Go leaves open:
    the order is an argument, [range_Auth] for [c.Auth] and
    [range_Filters] for [c.Filters]. *)

Definition visits {V : Type} (order : list (string * V))
    (m : option (gmap string V)) : Prop :=
  order ≡ₚ map_to_list (default ∅ m).

(** The body of the first loop, up to the store. *)
Definition resolve_auth (st : state) (name data : string)
  : error + PluginConsumerConfig :=
  match LoadHttpPlugin name st ≫= ConsumerConfig with
  | None => inl (fmt_Errorf "plugin %s is not for consumer" name)
  | Some conf =>
      match proto_UnmarshalJSON (bytes_of_string data) conf with
      | inl err =>
          inl (fmt_Errorf_w
                 "failed to unmarshal consumer config for plugin %s: %w"
                 name err)
      | inr conf =>
          match Validate conf with
          | Some err =>
              inl (fmt_Errorf_w
                     "failed to validate consumer config for plugin %s: %w"
                     name err)
          | None => inr conf
          end
      end
  end.

Fixpoint auth_loop (st : state) (entries : list (string * string))
    (configs : gmap string PluginConsumerConfig)
  : gmap string PluginConsumerConfig * option error :=
  match entries with
  | [] => (configs, None)
  | (name, data) :: rest =>
      match resolve_auth st name data with
      | inl err => (configs, Some err)
      | inr conf => auth_loop st rest (<[name := conf]> configs)
      end
  end.

(** The body of the second loop, up to the store; [data.Config] on a nil
    [data] panics. *)
Definition resolve_filter (st : state) (name : string)
    (data : option FilterConfig) : outcome (error + ParsedFilterConfig) :=
  match LoadHttpFilterFactoryAndParser name st with
  | None => Returned (inl (fmt_Errorf "plugin %s not found" name))
  | Some p =>
      match data with
      | None => Panicked "invalid memory address or nil pointer dereference"
      | Some data =>
          match snd (Parse (ConfigParser p) (FilterConfig_Config data) None) with
          | inl err =>
              Returned
                (inl (fmt_Errorf_w "%w during parsing plugin %s in consumer"
                        name err))
          | inr conf =>
              Returned
                (inr {| Name := name; ParsedConfig := conf;
                        Factory := plugins.Factory p |})
          end
      end
  end.

Fixpoint filters_loop (st : state)
    (entries : list (string * option FilterConfig))
    (configs : gmap string ParsedFilterConfig)
  : gmap string ParsedFilterConfig * outcome (option error) :=
  match entries with
  | [] => (configs, Returned None)
  | (name, data) :: rest =>
      match resolve_filter st name data with
      | Panicked why => (configs, Panicked why)
      | Returned (inl err) => (configs, Returned (Some err))
      | Returned (inr parsed) =>
          filters_loop st rest (<[name := parsed]> configs)
      end
  end.

Definition InitConfigs (st : state)
    (range_Auth : list (string * string))
    (range_Filters : list (string * option FilterConfig))
    (c : Consumer) : Consumer * outcome (option error) :=
  let (consumerConfigs, err) := auth_loop st range_Auth ∅ in
  let c := set_ConsumerConfigs (Some consumerConfigs) c in
  match err with
  | Some err => (c, Returned (Some err))
  | None =>
      let (filterConfigs, result) := filters_loop st range_Filters ∅ in
      (set_FilterConfigs (Some filterConfigs) c, result)
  end.

(** The fields the struct lists as set in the data plane. *)
Definition data_plane (c : Consumer)
  : string * string * Z * option (gmap string PluginConsumerConfig)
    * option (gmap string ParsedFilterConfig) :=
  (namespace c, name c, generation c, ConsumerConfigs c, FilterConfigs c).

(** [c.Name()] and [c.PluginConfig(name)]; the lookup in a nil map or of
    a missing key gives the zero value, a nil interface. *)
Definition Consumer_Name (c : Consumer) : string := name c.

Definition Consumer_PluginConfig (n : string) (c : Consumer)
  : option PluginConsumerConfig :=
  default ∅ (ConsumerConfigs c) !! n.

(** Modelled from the spec: the step that derives [FilterNames] is not in
    the sources.  It takes the names of the [Filters] mapping and sorts
    them by [CompareOrder]; the sort here inserts name by name, asking
    [ComparePluginOrder] for every comparison. *)
Fixpoint insert_by_order (a : string) (sorted : list string) (st : state)
  : list string * state :=
  match sorted with
  | [] => ([a], st)
  | b :: rest =>
      let (before, st) := ComparePluginOrder a b st in
      if before then (a :: b :: rest, st)
      else
        let (rest', st) := insert_by_order a rest st in
        (b :: rest', st)
  end.

Fixpoint sort_by_order (names : list string) (st : state)
  : list string * state :=
  match names with
  | [] => ([], st)
  | a :: rest =>
      let (sorted, st) := sort_by_order rest st in
      insert_by_order a sorted st
  end.

Definition deriveFilterNames
    (range_Filters : list (string * option FilterConfig))
    (c : Consumer) (st : state) : Consumer * state :=
  let (names, st) := sort_by_order (map fst range_Filters) st in
  (set_FilterNames (Some names) c, st).

(** A name of [c.Auth] or [c.Filters] that does not resolve to a
    registered plugin. *)
Definition unresolved (st : state) (c : Consumer) (n : string) : Prop :=
  (is_Some (default ∅ (Auth c) !! n) /\ LoadHttpPlugin n st = None)
  \/ (is_Some (default ∅ (Filters c) !! n)
      /\ LoadHttpFilterFactoryAndParser n st = None).


(** The entry under [n] is the first one a [range] meets that fails to
    resolve, with error [err]: the entries met before it resolved. *)
Definition first_failing_credential (st : state)
    (range_Auth : list (string * string)) (n : string) (err : error) : Prop :=
  exists before data after,
    range_Auth = before ++ (n, data) :: after
    /\ (forall k d, (k, d) ∈ before ->
                    exists conf, resolve_auth st k d = inr conf)
    /\ resolve_auth st n data = inl err.

Definition first_failing_filter (st : state)
    (range_Filters : list (string * option FilterConfig))
    (n : string) (err : error) : Prop :=
  exists before data after,
    range_Filters = before ++ (n, data) :: after
    /\ (forall k d, (k, d) ∈ before ->
                    exists parsed,
                      resolve_filter st k d = Returned (inr parsed))
    /\ resolve_filter st n data = Returned (inl err).

End Consumer.

Arguments ParsedFilterConfig : clear implicits.
Arguments Consumer : clear implicits.

End consumer.

(* --------------------------------------------------------------------- *)
(** ** Package [registry] *)

Module registry.

Definition Protocol : Type := string.

Definition HTTP : Protocol := "HTTP".
Definition HTTPS : Protocol := "HTTPS".
Definition GRPC : Protocol := "GRPC".
Definition HTTP2 : Protocol := "HTTP2".
Definition MONGO : Protocol := "MONGO".
Definition TCP : Protocol := "TCP".
Definition TLS : Protocol := "TLS".
Definition Unsupported : Protocol := "Unsupported".

Definition ProtocolMap : gmap string Protocol :=
  list_to_map
    [("http", HTTP); ("https", HTTPS); ("grpc", GRPC); ("http2", HTTP2);
     ("mongo", MONGO); ("tcp", TCP); ("tls", TLS)].

Section ParseProtocol.
Variable unicode_ToLower : string -> string.

Definition ParseProtocol (s : string) : Protocol :=
  match ProtocolMap !! strings.ToLower unicode_ToLower s with
  | None => Unsupported
  | Some res => res
  end.
End ParseProtocol.

Section Factories.

(** [ServiceEntryStore], [metav1.ObjectMeta] and the instances behind the
    [Registry] interface. *)
Context {ServiceEntryStore ObjectMeta Registry : Type}.

(** A factory answers with Go's pair [(Registry, error)]. *)
Definition RegistryFactory : Type :=
  ServiceEntryStore -> ObjectMeta -> option Registry * option error.

(** A call of the factory registered under [factory_name]. *)
Record invocation : Type := {
  factory_name : string;
  with_store : ServiceEntryStore;
  with_meta : ObjectMeta }.

Definition AddRegistryFactory (name : string) (factory : RegistryFactory)
    (registryFactories : gmap string RegistryFactory)
  : gmap string RegistryFactory :=
  <[name := factory]> registryFactories.

(** [CreateRegistry], with the factory calls it makes on record. *)
Definition CreateRegistry (name : string) (store : ServiceEntryStore)
    (om : ObjectMeta) (registryFactories : gmap string RegistryFactory)
  : list invocation * (option Registry * option error) :=
  match registryFactories !! name with
  | None => ([], (None, Some (fmt_Errorf "unknown registry %s" name)))
  | Some factory =>
      ([{| factory_name := name; with_store := store; with_meta := om |}],
       factory store om)
  end.

End Factories.

Arguments RegistryFactory : clear implicits.
Arguments invocation : clear implicits.

Section ParseConfig.

(** The fields of a protobuf message and the instances behind the
    [Registry] interface. *)
Context {Message Registry : Type}.

(** [RegistryConfig]: a message with the methods of its dynamic type;
    [rc_unmarshal] is what [proto.UnmarshalJSON] does to a message of this
    type ([internal/proto] is not in the sources). *)
Record RegistryConfig : Type := {
  rc_fields : Message;
  rc_unmarshal : bytes -> Message -> error + Message;
  rc_validate : Message -> option error }.

Definition proto_UnmarshalJSON (data : bytes) (conf : RegistryConfig)
  : error + RegistryConfig :=
  match rc_unmarshal conf data (rc_fields conf) with
  | inl err => inl err
  | inr m =>
      inr {| rc_fields := m; rc_unmarshal := rc_unmarshal conf;
             rc_validate := rc_validate conf |}
  end.

Definition Validate (conf : RegistryConfig) : option error :=
  rc_validate conf (rc_fields conf).

(** The method [Config] of the registry at hand. *)
Variable Config : Registry -> RegistryConfig.

(** The calls [ParseConfig] makes. *)
Inductive config_call : Type :=
| asks_Config (reg : Registry)
| asks_UnmarshalJSON (data : bytes) (conf : RegistryConfig)
| asks_Validate (conf : RegistryConfig).

(** [ParseConfig], with its calls on record; the result is Go's pair
    [(RegistryConfig, error)]. *)
Definition ParseConfig (reg : Registry) (data : bytes)
  : list config_call * (option RegistryConfig * option error) :=
  let conf := Config reg in
  match proto_UnmarshalJSON data conf with
  | inl err =>
      ([asks_Config reg; asks_UnmarshalJSON data conf], (None, Some err))
  | inr decoded =>
      match Validate decoded with
      | Some err =>
          ([asks_Config reg; asks_UnmarshalJSON data conf;
            asks_Validate decoded],
           (None, Some err))
      | None =>
          ([asks_Config reg; asks_UnmarshalJSON data conf;
            asks_Validate decoded],
           (Some decoded, None))
      end
  end.

Definition is_asks_Validate (c : config_call) : bool :=
  match c with
  | asks_Validate _ => true
  | _ => false
  end.

End ParseConfig.

Arguments RegistryConfig : clear implicits.
Arguments config_call : clear implicits.

End registry.

(* --------------------------------------------------------------------- *)
(** ** The scenario of the specification

    Two plugins, ["basic-auth"] at [Order{Position:10, Operation:0}] and
    ["rate-limit"] at [Order{Position:20, Operation:0}], whose
    configuration has no fields: any document decodes, validates and
    initialises. *)

Module scenario.

Import plugins.

Definition config : PluginConfig unit unit :=
  {| pc_fields := tt;
     pc_unmarshal := fun _ m => inr m;
     pc_validate := fun _ => None;
     pc_init := fun _ m => inr m |}.

Definition plugin_at (position operation : Z) : Plugin unit unit unit :=
  {| Order := {| Position := position; Operation := operation |};
     ConfigFactory := tt;
     Config := config;
     ConsumerConfig := None |}.

Definition catalog : state unit unit unit :=
  run [Register "basic-auth" (Some (plugin_at 10 0));
       Register "rate-limit" (Some (plugin_at 20 0))]
      initial.

(** A consumer plugin, ["key-auth"], whose credentials decode from any
    text but the empty one, and the catalog with it. *)
Definition credentials : PluginConsumerConfig unit :=
  {| cc_fields := tt;
     cc_unmarshal := fun data m =>
       match data with
       | [] => inl (errors_New "proto: syntax error: unexpected token")
       | _ :: _ => inr m
       end;
     cc_validate := fun _ => None |}.

Definition key_auth : Plugin unit unit unit :=
  {| Order := {| Position := 10; Operation := 0 |};
     ConfigFactory := tt;
     Config := config;
     ConsumerConfig := Some credentials |}.

Definition catalog_with_auth : state unit unit unit :=
  run [Register "key-auth" (Some key_auth)] catalog.

(** A filter configuration that is its blob, written under ["config"], and
    a filter wrapper that is its name: an instance of the types of package
    [model] to run the scenario with. *)
Record FilterConfig : Type := { Config : json.value }.

Definition blob (members : list (string * json.value)) : json.value :=
  fold_left
    (fun found m =>
       match json.field_of ["config"] (fst m) with
       | Some _ => snd m
       | None => found
       end)
    members json.Null.

#[global] Instance model : consumer.Model FilterConfig string := {|
  consumer.FilterConfig_Config fc :=
    match Config fc with
    | json.Null => nil_interface
    | doc => marshals_as doc
    end;
  consumer.encode_FilterConfig fc := inr (json.Object [("config", Config fc)]);
  consumer.decode_FilterConfig v :=
    match v with
    | json.Object members => ({| Config := blob members |}, None)
    | _ => ({| Config := json.Null |},
            Some (consumer.UnmarshalTypeError "model.FilterConfig"))
    end;
  consumer.encode_FilterWrapper fw := inr (json.Object [("Name", json.Str fw)]);
  consumer.decode_FilterWrapper v old :=
    match v with
    | json.Object [(_, json.Str fw)] => (fw, None)
    | _ => (default EmptyString old,
            Some (consumer.UnmarshalTypeError "model.FilterWrapper"))
    end |}.

Abbreviation Consumer := (consumer.Consumer unit unit unit FilterConfig string).

Definition no_config : option FilterConfig := Some {| Config := json.Null |}.

(** The Consumer of the scenario. *)
Definition tenant : Consumer :=
  consumer.set_Filters
    (Some (<["rate-limit" := no_config]> (<["basic-auth" := no_config]> ∅)))
    consumer.zero.

(** A Consumer with two filters that no plugin is registered for. *)
Definition stranger : Consumer :=
  consumer.set_Filters
    (Some (<["acl" := no_config]> (<["cors" := no_config]> ∅)))
    consumer.zero.

(** A Consumer with an empty credential for ["key-auth"] and a filter that
    no plugin is registered for. *)
Definition mistaken : Consumer :=
  consumer.set_Auth (Some (<["key-auth" := EmptyString]> ∅))
    (consumer.set_Filters (Some (<["acl" := no_config]> ∅)) consumer.zero).

(** The Consumer of the scenario with a credential that is no UTF-8: the
    one byte [0xFF]. *)
Definition garbled : Consumer :=
  consumer.set_Auth
    (Some (<["key-auth" := String (ascii_of_nat 255) EmptyString]> ∅))
    tenant.

(** A Consumer whose maps are empty, not nil. *)
Definition hollow : Consumer :=
  consumer.set_Auth (Some ∅) (consumer.set_Filters (Some ∅) consumer.zero).

(** A Consumer with a credential for ["key-auth"] and the filters of the
    scenario. *)
Definition member : Consumer :=
  consumer.set_Auth (Some (<["key-auth" := "{}"]> ∅)) tenant.

(** The Consumer read from a text that gives [null] for the configuration
    of ["basic-auth"]. *)
Definition dangling : Consumer :=
  fst (consumer.Unmarshal consumer.zero
         (json.text "{'filters':{'basic-auth':null}}")).

(** Types of package [model] with a filter configuration that
    [encoding/json] cannot write: its [Config] holds a channel. *)
Definition unwritable : consumer.Model unit string := {|
  consumer.FilterConfig_Config _ :=
    marshal_fails (errors_New "json: unsupported type: chan int");
  consumer.encode_FilterConfig _ :=
    inl (errors_New "json: unsupported type: chan int");
  consumer.decode_FilterConfig _ := (tt, None);
  consumer.encode_FilterWrapper fw := inr (json.Object [("Name", json.Str fw)]);
  consumer.decode_FilterWrapper v old :=
    match v with
    | json.Object [(_, json.Str fw)] => (fw, None)
    | _ => (default EmptyString old,
            Some (consumer.UnmarshalTypeError "model.FilterWrapper"))
    end |}.

(** A Consumer with such a filter. *)
Definition sealed : consumer.Consumer unit unit unit unit string :=
  consumer.set_Filters (Some (<["basic-auth" := Some tt]> ∅)) consumer.zero.

(** The Consumer of the scenario after a resolution and the derivation of
    its filter names. *)
Definition resolved : Consumer :=
  consumer.set_CanSkipMethod
    (Some (<["basic-auth" := true]> (<["rate-limit" := false]> ∅)))
    (consumer.set_FilterNames (Some ["basic-auth"; "rate-limit"]) tenant).

(** The configuration of a registry: the address of its server, which
    any text but the empty one decodes to and [Validate] accepts. *)
Definition address : registry.RegistryConfig string :=
  {| registry.rc_fields := EmptyString;
     registry.rc_unmarshal := fun data _ =>
       match data with
       | [] => inl (errors_New "proto: syntax error: unexpected token")
       | _ :: _ => inr (string_of_bytes data)
       end;
     registry.rc_validate := fun _ => None |}.

(** [range] in the order the map lists its entries. *)
Definition range {V : Type} (m : option (gmap string V)) : list (string * V) :=
  map_to_list (default ∅ m).

End scenario.

(* ===================================================================== *)
(** * Part II.  Properties                                                *)
(* ===================================================================== *)

(** ** Byte-wise order on strings (Go's [<] on [string]) *)

Section StringOrder.

Lemma ascii_compare_refl (c : ascii) : Ascii.compare c c = Eq.
Proof. unfold Ascii.compare. apply N.compare_refl. Qed.

Lemma ascii_compare_eq (c d : ascii) : Ascii.compare c d = Eq -> c = d.
Proof.
  unfold Ascii.compare. intros H%N.compare_eq.
  rewrite <- (ascii_N_embedding c), <- (ascii_N_embedding d). by rewrite H.
Qed.

Lemma ascii_compare_lt_trans (c d e : ascii) :
  Ascii.compare c d = Lt -> Ascii.compare d e = Lt -> Ascii.compare c e = Lt.
Proof.
  unfold Ascii.compare. rewrite !N.compare_lt_iff. lia.
Qed.

Lemma string_compare_refl (s : string) : String.compare s s = Eq.
Proof.
  induction s as [|c s IH]; simpl; [done|]. by rewrite ascii_compare_refl.
Qed.

Lemma string_compare_lt_trans (s t u : string) :
  String.compare s t = Lt -> String.compare t u = Lt -> String.compare s u = Lt.
Proof.
  revert t u. induction s as [|c s IH]; intros [|d t] [|e u]; simpl; try done.
  destruct (Ascii.compare c d) eqn:Hcd; try done;
    destruct (Ascii.compare d e) eqn:Hde; try done; intros H1 H2.
  - apply ascii_compare_eq in Hcd, Hde. subst.
    rewrite ascii_compare_refl. eauto.
  - apply ascii_compare_eq in Hcd. subst. by rewrite Hde.
  - apply ascii_compare_eq in Hde. subst. by rewrite Hcd.
  - by rewrite (ascii_compare_lt_trans c d e).
Qed.

Lemma ltb_lt (s t : string) : String.ltb s t = true <-> String.compare s t = Lt.
Proof. unfold String.ltb. destruct (String.compare s t); naive_solver. Qed.

Lemma ltb_irrefl (s : string) : String.ltb s s = false.
Proof. unfold String.ltb. by rewrite string_compare_refl. Qed.

Lemma ltb_trans (s t u : string) :
  String.ltb s t = true -> String.ltb t u = true -> String.ltb s u = true.
Proof. rewrite !ltb_lt. apply string_compare_lt_trans. Qed.

(** Of two different strings exactly one is below the other. *)
Lemma ltb_connex (s t : string) : s ≠ t -> String.ltb s t = negb (String.ltb t s).
Proof.
  intros Hne. unfold String.ltb. rewrite (String.compare_antisym t s).
  destruct (String.compare s t) eqn:H; try done.
  by apply String.compare_eq_iff in H.
Qed.

End StringOrder.

(** ** The plugin catalog and its order *)

Module PluginsSpec.

Import plugins.

Section Order.

Context {Message FilterFactory Callbacks : Type}.

Local Abbreviation Plugin := (plugins.Plugin Message FilterFactory Callbacks).
Local Abbreviation state := (plugins.state Message FilterFactory Callbacks).
Local Abbreviation action := (plugins.action Message FilterFactory Callbacks).

Implicit Types (st : state) (a b c : string) (x y z : PluginOrder).

Lemma less_irrefl x a : less x x a a = false.
Proof. unfold less. rewrite !Z.eqb_refl. apply ltb_irrefl. Qed.

Lemma less_connex x y a b : a ≠ b -> less x y a b = negb (less y x b a).
Proof.
  intros Hne. unfold less.
  destruct (Z.eqb_spec (Position x) (Position y)) as [Hp|Hp];
    destruct (Z.eqb_spec (Position y) (Position x)); try congruence; simpl.
  - destruct (Z.eqb_spec (Operation x) (Operation y)) as [Ho|Ho];
      destruct (Z.eqb_spec (Operation y) (Operation x)); try congruence; simpl.
    + by apply ltb_connex.
    + destruct (Z.ltb_spec (Operation x) (Operation y)),
        (Z.ltb_spec (Operation y) (Operation x)); simpl; try done; lia.
  - destruct (Z.ltb_spec (Position x) (Position y)),
      (Z.ltb_spec (Position y) (Position x)); simpl; try done; lia.
Qed.

Lemma less_trans x y z a b c :
  less x y a b = true -> less y z b c = true -> less x z a c = true.
Proof.
  unfold less.
  destruct (Z.eqb_spec (Position x) (Position y)),
    (Z.eqb_spec (Position y) (Position z)),
    (Z.eqb_spec (Position x) (Position z)); simpl;
    rewrite ?Z.ltb_lt; try lia.
  destruct (Z.eqb_spec (Operation x) (Operation y)),
    (Z.eqb_spec (Operation y) (Operation z)),
    (Z.eqb_spec (Operation x) (Operation z)); simpl;
    rewrite ?Z.ltb_lt; try lia.
  apply ltb_trans.
Qed.

(** The table the first comparison writes: the orders of the plugins in
    the catalog, over what the table held. *)
Lemma Range_orders (entries : list (string * Plugin))
    (table : gmap string PluginOrder) (k : string) :
  NoDup entries.*1 ->
  Range (fun key value table => (<[key := Order value]> table, true))
    entries table !! k
  = match (list_to_map entries : gmap string Plugin) !! k with
    | Some p => Some (Order p)
    | None => table !! k
    end.
Proof.
  revert table. induction entries as [|[k0 v0] rest IH]; intros table Hnd.
  - simpl. by rewrite lookup_empty.
  - apply NoDup_cons in Hnd as [Hk0 Hnd]. simpl. rewrite IH by done.
    destruct (decide (k0 = k)) as [->|Hne].
    + rewrite lookup_insert_eq.
      rewrite (not_elem_of_list_to_map_1 _ k) by done.
      by rewrite lookup_insert_eq.
    + rewrite !lookup_insert_ne by done. done.
Qed.

Lemma Do_done (f : state -> gmap string PluginOrder) st :
  nameToOrderInit st = true -> Do f st = st.
Proof. unfold Do. by intros ->. Qed.

(** Once the table is there, a comparison reads it and changes nothing. *)
Lemma ComparePluginOrder_frozen a b st :
  nameToOrderInit st = true ->
  ComparePluginOrder a b st = (less (order_of a st) (order_of b st) a b, st).
Proof. intros H. unfold ComparePluginOrder. by rewrite Do_done. Qed.

Lemma ComparePluginOrder_init a b st :
  nameToOrderInit (snd (ComparePluginOrder a b st)) = true.
Proof.
  unfold ComparePluginOrder, Do. simpl. by destruct (nameToOrderInit st) eqn:H.
Qed.

(** The first comparison: the table holds the order of every plugin of the
    catalog, and what it held before under the other names. *)
Lemma ComparePluginOrder_first a b st k :
  nameToOrderInit st = false ->
  nameToOrder (snd (ComparePluginOrder a b st)) !! k
  = match httpPlugins st !! k with
    | Some p => Some (Order p)
    | None => nameToOrder st !! k
    end.
Proof.
  intros H. unfold ComparePluginOrder, Do, IterateHttpPlugin. rewrite H. simpl.
  rewrite Range_orders by apply NoDup_fst_map_to_list.
  by rewrite list_to_map_to_list.
Qed.

Lemma step_frozen act st :
  nameToOrderInit st = true ->
  nameToOrderInit (step act st) = true
  /\ nameToOrder (step act st) = nameToOrder st.
Proof.
  intros H. destruct act as [name [p|]|a b]; [done..|].
  unfold step. by rewrite ComparePluginOrder_frozen.
Qed.

Lemma run_frozen acts st :
  nameToOrderInit st = true ->
  nameToOrderInit (run acts st) = true
  /\ nameToOrder (run acts st) = nameToOrder st.
Proof.
  revert st. induction acts as [|act acts IH]; intros st H; [done|].
  unfold run. simpl. destruct (step_frozen act st H) as [Hi Ht].
  destruct (IH _ Hi) as [Hi' Ht']. unfold run in *. by rewrite Ht', Ht.
Qed.

Lemma order_of_frozen acts st a :
  nameToOrderInit st = true -> order_of a (run acts st) = order_of a st.
Proof.
  intros H. unfold order_of. by rewrite (proj2 (run_frozen acts st H)).
Qed.

(** What a comparison answers, by the state it leaves. *)
Lemma ComparePluginOrder_result a b st :
  let st' := snd (ComparePluginOrder a b st) in
  fst (ComparePluginOrder a b st) = less (order_of a st') (order_of b st') a b.
Proof. done. Qed.

(** A later comparison, after any calls in between, reads the table the
    first one left. *)
Lemma ComparePluginOrder_later a b c d acts st :
  let st1 := snd (ComparePluginOrder a b st) in
  fst (ComparePluginOrder c d (run acts st1))
  = less (order_of c st1) (order_of d st1) c d.
Proof.
  intros st1. pose proof (ComparePluginOrder_init a b st) as Hinit.
  fold st1 in Hinit.
  rewrite ComparePluginOrder_frozen by by apply run_frozen.
  simpl. by rewrite !order_of_frozen.
Qed.

(** C4. For two distinct plugin names exactly one of CompareOrder(a,b) and
    CompareOrder(b,a) is true, and the answers of the first comparison stay
    the answers of every later call of the process, whatever registrations
    and comparisons come in between.  The comparison is irreflexive and
    transitive as well: a strict total order on names. *)
Theorem ComparePluginOrder_strict_total st a b (acts : list action) :
  a ≠ b ->
  let first := ComparePluginOrder a b st in
  let later := run acts (snd first) in
  fst (ComparePluginOrder a b later) = fst first
  /\ fst (ComparePluginOrder b a later) = negb (fst first)
  /\ fst (ComparePluginOrder a a later) = false
  /\ (forall c,
        fst (ComparePluginOrder a b later) = true ->
        fst (ComparePluginOrder b c later) = true ->
        fst (ComparePluginOrder a c later) = true).
Proof.
  intros Hne first later. unfold later, first.
  rewrite !ComparePluginOrder_later, ComparePluginOrder_result.
  split; [done|]. split; [by apply less_connex|].
  split; [apply less_irrefl|].
  intros c. rewrite !ComparePluginOrder_later. apply less_trans.
Qed.

(** C9 (as amended). The table of orders is written by the first
    comparison, from the plugins registered by then, and by no later call.
    A plugin registered afterwards is in the catalog but not in the table:
    comparisons read, under its name, the order frozen at the first
    comparison, which is the zero value when the name was not registered
    then. *)
Theorem snapshot_frozen st a b name (plugin : Plugin)
    (before after : list action) :
  nameToOrderInit st = false ->
  nameToOrder st = ∅ ->
  let st1 := snd (ComparePluginOrder a b st) in
  let st2 := run (before ++ Register name (Some plugin) :: after) st1 in
  (forall k, nameToOrder st1 !! k = Order <$> httpPlugins st !! k)
  /\ nameToOrder st2 = nameToOrder st1
  /\ order_of name st2
     = match LoadHttpPlugin name st with
       | Some registered => Order registered
       | None => zero_order
       end.
Proof.
  intros Hinit Hempty st1 st2.
  assert (Hfirst : forall k, nameToOrder st1 !! k = Order <$> httpPlugins st !! k).
  { intros k. unfold st1. rewrite ComparePluginOrder_first by done.
    rewrite Hempty, lookup_empty. by destruct (httpPlugins st !! k). }
  pose proof (ComparePluginOrder_init a b st) as Hdone. fold st1 in Hdone.
  split; [done|]. split.
  - by apply run_frozen.
  - unfold st2. rewrite order_of_frozen by done.
    unfold order_of, LoadHttpPlugin. rewrite Hfirst.
    by destruct (httpPlugins st !! name).
Qed.

End Order.

(** The hypotheses of [ComparePluginOrder_strict_total] hold of the two
    names of the scenario. *)
Lemma ComparePluginOrder_strict_total_witness :
  let first := ComparePluginOrder "basic-auth" "rate-limit" scenario.catalog in
  let later :=
    run [Register "oidc" (Some (scenario.plugin_at 5 0))] (snd first) in
  fst (ComparePluginOrder "basic-auth" "rate-limit" later) = fst first
  /\ fst (ComparePluginOrder "rate-limit" "basic-auth" later)
     = negb (fst first).
Proof.
  pose proof (ComparePluginOrder_strict_total scenario.catalog
                "basic-auth" "rate-limit"
                [Register "oidc" (Some (scenario.plugin_at 5 0))]) as H.
  cbv zeta in H. destruct H as (H1 & H2 & _); [done|]. exact (conj H1 H2).
Defined.

(** [snapshot_frozen] at the catalog of the scenario, with ["oidc"]
    registered after the first comparison. *)
Lemma snapshot_frozen_witness :
  let st1 :=
    snd (ComparePluginOrder "basic-auth" "rate-limit" scenario.catalog) in
  let st2 := run ([] ++ Register "oidc" (Some (scenario.plugin_at 5 0)) :: []) st1 in
  (forall k, nameToOrder st1 !! k = Order <$> httpPlugins scenario.catalog !! k)
  /\ nameToOrder st2 = nameToOrder st1
  /\ order_of "oidc" st2
     = match LoadHttpPlugin "oidc" scenario.catalog with
       | Some registered => Order registered
       | None => zero_order
       end.
Proof.
  apply (snapshot_frozen scenario.catalog "basic-auth" "rate-limit" "oidc"
           (scenario.plugin_at 5 0) [] []); reflexivity.
Defined.

(** C9 as stated fails: a plugin registered after the first comparison
    under a name that was registered before it is compared by the order
    frozen for that name, not by the zero value.  ["basic-auth"], frozen at
    position 10, is registered again at position 30: comparisons go on
    reading position 10, so it does not precede the unregistered ["z"], as
    it would with the zero value, by its name. *)
Lemma late_override_not_zero :
  let st1 :=
    snd (ComparePluginOrder "basic-auth" "rate-limit" scenario.catalog) in
  let st2 := run [Register "basic-auth" (Some (scenario.plugin_at 30 0))] st1 in
  LoadHttpPlugin "basic-auth" st2 = Some (scenario.plugin_at 30 0)
  /\ order_of "basic-auth" st2 = {| Position := 10; Operation := 0 |}
  /\ order_of "basic-auth" st2 <> zero_order
  /\ fst (ComparePluginOrder "basic-auth" "z" st2) = false
  /\ less zero_order zero_order "basic-auth" "z" = true.
Proof. vm_compute. repeat split; congruence. Qed.

Section Parse.

Context {Message FilterFactory Callbacks : Type}.

Local Abbreviation PluginConfigParser :=
  (plugins.PluginConfigParser Message FilterFactory Callbacks).
Local Abbreviation call := (plugins.call Message Callbacks).

Implicit Types (cp : PluginConfigParser) (any : interface)
  (callbacks : option Callbacks).

(** [Parse], run on its cases. *)
Lemma Parse_run cp any callbacks :
  Parse cp any callbacks
  = match decoded cp any with
    | inl err => (call_Config :: decode_calls cp any, inl err)
    | inr conf =>
        match Validate conf with
        | Some err =>
            (call_Config :: decode_calls cp any ++ [call_Validate conf],
             inl err)
        | None =>
            (call_Config :: decode_calls cp any
               ++ [call_Validate conf; call_Init conf],
             Init conf callbacks)
        end
    end.
Proof.
  unfold Parse, decoded, decode_calls.
  destruct any as [|doc|err]; simpl.
  - destruct (Validate _); simpl; [done|]. by destruct (Init _ _).
  - destruct (protojson_Unmarshal _ _) as [e|conf]; simpl; [done|].
    destruct (Validate conf); simpl; [done|]. by destruct (Init _ _).
  - done.
Qed.

(** C5. The stages of [Parse] run in the order decode, validate,
    initialise, each at most once.  When the decoding fails (the re-encoding
    of the value or the decoding into the config object), its error is the
    result and neither [Validate] nor [Init] is called; when [Validate]
    fails on the decoded object, its error is the result and [Init] is not
    called; otherwise the result is that of [Init]. *)
Theorem Parse_fail_fast cp any callbacks :
  let (calls, result) := Parse cp any callbacks in
  StronglySorted lt (stage <$> calls)
  /\ match decoded cp any with
     | inl err =>
         result = inl err
         /\ List.filter is_Validate calls = []
         /\ List.filter is_Init calls = []
     | inr conf =>
         match Validate conf with
         | Some err =>
             result = inl err
             /\ List.filter is_Validate calls = [call_Validate conf]
             /\ List.filter is_Init calls = []
         | None =>
             result = Init conf callbacks
             /\ List.filter is_Validate calls = [call_Validate conf]
             /\ List.filter is_Init calls = [call_Init conf]
         end
     end.
Proof.
  rewrite Parse_run. unfold decoded, decode_calls.
  destruct any as [|doc|err]; simpl.
  - destruct (Validate _); simpl;
      (split; [repeat constructor; lia | done]).
  - destruct (protojson_Unmarshal _ _) as [e|conf]; simpl;
      [|destruct (Validate conf); simpl];
      (split; [repeat constructor; lia | done]).
  - split; [repeat constructor; lia | done].
Qed.

(** C10. With a nil value [Parse] makes no decoding call: it validates the
    fresh object of the factory, then initialises it, and returns what
    [Init] returns, or the error of [Validate] without calling [Init]. *)
Theorem Parse_nil cp callbacks :
  let conf := Config (parser_Plugin cp) in
  Parse cp nil_interface callbacks
  = match Validate conf with
    | Some err => ([call_Config; call_Validate conf], inl err)
    | None =>
        ([call_Config; call_Validate conf; call_Init conf],
         Init conf callbacks)
    end
  /\ List.filter is_decode (fst (Parse cp nil_interface callbacks)) = [].
Proof.
  intros conf. rewrite Parse_run. simpl. fold conf.
  by destruct (Validate conf).
Qed.

End Parse.
End PluginsSpec.

(** ** The registry package *)

Module RegistrySpec.

Import registry.

Section Protocols.

Variable unicode_ToLower : string -> string.

Local Abbreviation ToLower := (strings.ToLower unicode_ToLower).
Local Abbreviation ParseProtocol := (registry.ParseProtocol unicode_ToLower).

(** [ParseProtocol] by the lower-case form of its argument. *)
Lemma ParseProtocol_lower (s : string) :
  ParseProtocol s
  = let l := ToLower s in
    if decide (l = "http") then HTTP
    else if decide (l = "https") then HTTPS
    else if decide (l = "grpc") then GRPC
    else if decide (l = "http2") then HTTP2
    else if decide (l = "mongo") then MONGO
    else if decide (l = "tcp") then TCP
    else if decide (l = "tls") then TLS
    else Unsupported.
Proof.
  unfold registry.ParseProtocol, ProtocolMap. simpl.
  repeat (rewrite lookup_insert; case_decide; [subst; simplify_eq; try done|]).
  all: repeat (case_decide; [congruence|]); try done.
Qed.

(** C7. [ParseProtocol] answers by the lower-case form of its argument
    alone: the protocol listed for it, [Unsupported] for every other
    string; it always returns a protocol.  Strings of ASCII that differ in
    the case of their letters only are parsed alike, and ["HTTP"], ["http"]
    and ["Http"] all give [HTTP]. *)
Theorem ParseProtocol_case_insensitive_total :
  (forall s : string,
     ParseProtocol s
     = let l := ToLower s in
       if decide (l = "http") then HTTP
       else if decide (l = "https") then HTTPS
       else if decide (l = "grpc") then GRPC
       else if decide (l = "http2") then HTTP2
       else if decide (l = "mongo") then MONGO
       else if decide (l = "tcp") then TCP
       else if decide (l = "tls") then TLS
       else Unsupported)
  /\ (forall s t : string,
        utf8.ascii_only (bytes_of_string s) = true ->
        utf8.ascii_only (bytes_of_string t) = true ->
        map strings.lower (bytes_of_string s)
        = map strings.lower (bytes_of_string t) ->
        ParseProtocol s = ParseProtocol t)
  /\ ParseProtocol "HTTP" = HTTP
  /\ ParseProtocol "http" = HTTP
  /\ ParseProtocol "Http" = HTTP
  /\ ParseProtocol "carrier-pigeon" = Unsupported.
Proof.
  split; [exact ParseProtocol_lower|]. split.
  - intros s t Hs Ht Heq. unfold registry.ParseProtocol, strings.ToLower.
    by rewrite Hs, Ht, Heq.
  - repeat split; vm_compute; reflexivity.
Qed.

End Protocols.

(** Two spellings of one protocol meet the hypotheses of
    [ParseProtocol_case_insensitive_total]. *)
Lemma ParseProtocol_case_insensitive_total_witness :
  registry.ParseProtocol id "hTTpS" = registry.ParseProtocol id "HttPs".
Proof.
  apply (proj1 (proj2 (ParseProtocol_case_insensitive_total id)));
    reflexivity.
Defined.

Section Factories.

Context {ServiceEntryStore ObjectMeta Registry : Type}.

Local Abbreviation RegistryFactory :=
  (registry.RegistryFactory ServiceEntryStore ObjectMeta Registry).

(** C8. For a name without an entry in the factory table [CreateRegistry]
    returns the "unknown registry" error made with that name and calls no
    factory; for a name with an entry it calls the factory of that entry,
    once, on the store and the metadata, and returns what the factory
    returns.  The factory of a name is the one added last under it. *)
Theorem CreateRegistry_lookup (name : string) (store : ServiceEntryStore)
    (om : ObjectMeta) (registryFactories : gmap string RegistryFactory) :
  (registryFactories !! name = None ->
   CreateRegistry name store om registryFactories
   = ([], (None, Some (fmt_Errorf "unknown registry %s" name))))
  /\ (forall factory,
        registryFactories !! name = Some factory ->
        CreateRegistry name store om registryFactories
        = ([{| factory_name := name; with_store := store; with_meta := om |}],
           factory store om))
  /\ (forall factory,
        snd (CreateRegistry name store om
               (AddRegistryFactory name factory registryFactories))
        = factory store om).
Proof.
  split; [|split].
  - intros H. unfold CreateRegistry.
    by destruct (registryFactories !! name).
  - intros factory H. unfold CreateRegistry.
    destruct (registryFactories !! name); by simplify_eq.
  - intros factory. unfold CreateRegistry, AddRegistryFactory.
    by rewrite lookup_insert_eq.
Qed.

End Factories.

(** The hypothesis of [CreateRegistry_lookup] holds of a name that was
    never added. *)
Lemma CreateRegistry_lookup_witness :
  CreateRegistry "unknown-backend" tt tt
    (AddRegistryFactory "nacos" (fun _ _ => (Some tt, None)) ∅)
  = ([], (None, Some (fmt_Errorf "unknown registry %s" "unknown-backend"))).
Proof.
  apply (proj1 (CreateRegistry_lookup "unknown-backend" tt tt _)).
  reflexivity.
Defined.

End RegistrySpec.

(** ** Consumer resolution *)

Module ConsumerSpec.

Import plugins consumer.

Section InitConfigs.

Context {Message FilterFactory Callbacks FilterConfig FilterWrapper : Type}.
Context `{!Model FilterConfig FilterWrapper}.

Local Abbreviation Consumer :=
  (consumer.Consumer Message FilterFactory Callbacks FilterConfig FilterWrapper).
Local Abbreviation state := (plugins.state Message FilterFactory Callbacks).
Local Abbreviation ParsedFilterConfig :=
  (consumer.ParsedFilterConfig Message FilterFactory Callbacks).
Local Abbreviation PluginConsumerConfig :=
  (plugins.PluginConsumerConfig Message).

Implicit Types (st : state) (c : Consumer) (n : string) (e : error).





(** The first loop stops at the first entry that fails, with its error. *)
Lemma auth_loop_error st entries configs e :
  snd (auth_loop st entries configs) = Some e ->
  exists n data, (n, data) ∈ entries /\ resolve_auth st n data = inl e.
Proof.
  revert configs. induction entries as [|[n data] rest IH]; intros configs;
    simpl; [done|].
  destruct (resolve_auth st n data) as [err|conf] eqn:Hr; simpl.
  - intros [= <-]. exists n, data. split; [left|done].
  - intros (n' & data' & Hin & Hr')%IH. exists n', data'.
    split; [by right|done].
Qed.

Lemma auth_loop_done st entries configs :
  snd (auth_loop st entries configs) = None ->
  forall n data, (n, data) ∈ entries ->
                 exists conf, resolve_auth st n data = inr conf.
Proof.
  revert configs. induction entries as [|[n data] rest IH]; intros configs;
    simpl; intros Hnone n' data' Hin; [by apply elem_of_nil in Hin|].
  destruct (resolve_auth st n data) as [err|conf] eqn:Hr; simpl in *; [done|].
  apply elem_of_cons in Hin as [[= -> ->]|Hin]; eauto.
Qed.

(** The second loop likewise, unless it panics. *)
Lemma filters_loop_error st entries configs e :
  snd (filters_loop st entries configs) = Returned (Some e) ->
  exists n data,
    (n, data) ∈ entries /\ resolve_filter st n data = Returned (inl e).
Proof.
  revert configs. induction entries as [|[n data] rest IH]; intros configs;
    simpl; [done|].
  destruct (resolve_filter st n data) as [[err|parsed]|why] eqn:Hr; simpl.
  - intros [= <-]. exists n, data. split; [left|done].
  - intros (n' & data' & Hin & Hr')%IH. exists n', data'.
    split; [by right|done].
  - done.
Qed.

Lemma filters_loop_done st entries configs :
  snd (filters_loop st entries configs) = Returned None ->
  forall n data, (n, data) ∈ entries ->
                 exists parsed, resolve_filter st n data = Returned (inr parsed).
Proof.
  revert configs. induction entries as [|[n data] rest IH]; intros configs;
    simpl; intros Hnone n' data' Hin; [by apply elem_of_nil in Hin|].
  destruct (resolve_filter st n data) as [[err|parsed]|why] eqn:Hr;
    simpl in *; try done.
  apply elem_of_cons in Hin as [[= -> ->]|Hin]; eauto.
Qed.



(** The entries a [range] visits are those of the map. *)
Lemma visits_lookup {V : Type} (order : list (string * V))
    (m : option (gmap string V)) n (x : V) :
  visits order m -> (n, x) ∈ order <-> default ∅ m !! n = Some x.
Proof.
  unfold visits. intros ->. apply elem_of_map_to_list.
Qed.

(** [InitConfigs] writes the two tables of resolved configurations and no
    other field. *)
Lemma InitConfigs_fields st range_Auth range_Filters c :
  let c' := fst (InitConfigs st range_Auth range_Filters c) in
  Auth c' = Auth c /\ Filters c' = Filters c
  /\ CanSkipMethod c' = CanSkipMethod c /\ FilterNames c' = FilterNames c
  /\ FilterWrappers c' = FilterWrappers c.
Proof.
  unfold InitConfigs. destruct (auth_loop _ _ _) as [configs [err|]]; simpl;
    [done|]. by destruct (filters_loop _ _ _).
Qed.



(** A [range] has one first failing entry. *)
Lemma first_failing_filter_unique st entries m m' e e' :
  first_failing_filter st entries m e ->
  first_failing_filter st entries m' e' ->
  m = m' /\ e = e'.
Proof.
  intros (before & data & after & -> & Hbefore & Hm)
         (before' & data' & after' & Heq & Hbefore' & Hm').
  revert before' Heq Hbefore'.
  induction before as [|[k d] before IH]; intros before' Heq Hbefore'.
  - destruct before' as [|[k' d'] before'].
    + injection Heq as <- <- _. split; congruence.
    + injection Heq as <- <- _.
      destruct (Hbefore' m data ltac:(left)) as [parsed Hp]. congruence.
  - destruct before' as [|[k' d'] before'].
    + injection Heq as -> -> _.
      destruct (Hbefore m' data' ltac:(left)) as [parsed Hp]. congruence.
    + injection Heq as <- <- Heq. eapply IH; [|exact Heq|].
      * intros k0 d0 Hin. apply Hbefore. by right.
      * intros k0 d0 Hin. apply Hbefore'. by right.
Qed.

Lemma first_failing_credential_unique st entries m m' e e' :
  first_failing_credential st entries m e ->
  first_failing_credential st entries m' e' ->
  m = m' /\ e = e'.
Proof.
  intros (before & data & after & -> & Hbefore & Hm)
         (before' & data' & after' & Heq & Hbefore' & Hm').
  revert before' Heq Hbefore'.
  induction before as [|[k d] before IH]; intros before' Heq Hbefore'.
  - destruct before' as [|[k' d'] before'].
    + injection Heq as <- <- _. split; congruence.
    + injection Heq as <- <- _.
      destruct (Hbefore' m data ltac:(left)) as [conf Hp]. congruence.
  - destruct before' as [|[k' d'] before'].
    + injection Heq as -> -> _.
      destruct (Hbefore m' data' ltac:(left)) as [conf Hp]. congruence.
    + injection Heq as <- <- Heq. eapply IH; [|exact Heq|].
      * intros k0 d0 Hin. apply Hbefore. by right.
      * intros k0 d0 Hin. apply Hbefore'. by right.
Qed.


(** *** The order of the filters *)

Lemma CompareOrder_less st a b :
  let st' := snd (ComparePluginOrder a b st) in
  CompareOrder st a b = less (order_of a st') (order_of b st') a b.
Proof. done. Qed.

(** The state a comparison leaves does not depend on the names compared,
    and comparisons answer in it as they did before. *)
Lemma CompareOrder_after st a b x y :
  CompareOrder (snd (ComparePluginOrder a b st)) x y = CompareOrder st x y.
Proof.
  unfold CompareOrder.
  exact (PluginsSpec.ComparePluginOrder_later a b x y [] st).
Qed.

Lemma CompareOrder_trans st a b d :
  CompareOrder st a b = true -> CompareOrder st b d = true ->
  CompareOrder st a d = true.
Proof. rewrite !CompareOrder_less. apply PluginsSpec.less_trans. Qed.

Lemma CompareOrder_connex st a b :
  a ≠ b -> CompareOrder st a b = negb (CompareOrder st b a).
Proof. intros Hne. rewrite !CompareOrder_less. by apply PluginsSpec.less_connex. Qed.

Lemma insert_by_order_cons a b rest st :
  insert_by_order a (b :: rest) st
  = let st1 := snd (ComparePluginOrder a b st) in
    if CompareOrder st a b then (a :: b :: rest, st1)
    else (b :: fst (insert_by_order a rest st1),
          snd (insert_by_order a rest st1)).
Proof.
  cbn [insert_by_order]. unfold CompareOrder.
  destruct (ComparePluginOrder a b st) as [[] st1]; cbn [fst snd]; [done|].
  by destruct (insert_by_order a rest st1).
Qed.

Lemma insert_by_order_after a sorted st x y :
  CompareOrder (snd (insert_by_order a sorted st)) x y = CompareOrder st x y.
Proof.
  revert st. induction sorted as [|b rest IH]; intros st; [done|].
  rewrite insert_by_order_cons. cbv zeta.
  destruct (CompareOrder st a b); cbn [snd].
  - apply CompareOrder_after.
  - rewrite IH. apply CompareOrder_after.
Qed.

Lemma insert_by_order_perm a sorted st :
  fst (insert_by_order a sorted st) ≡ₚ a :: sorted.
Proof.
  revert st. induction sorted as [|b rest IH]; intros st; [done|].
  rewrite insert_by_order_cons. cbv zeta.
  destruct (CompareOrder st a b); cbn [fst]; [done|].
  rewrite IH. apply perm_swap.
Qed.

Lemma StronglySorted_impl {A : Type} (R1 R2 : relation A) (l : list A) :
  (forall x y, R1 x y -> R2 x y) -> StronglySorted R1 l -> StronglySorted R2 l.
Proof.
  intros HR. induction 1 as [|x l Hs IH Hx]; constructor; [done|].
  eapply Forall_impl; [exact Hx|]. intros y. apply HR.
Qed.

Lemma insert_by_order_sorted a sorted st :
  a ∉ sorted ->
  StronglySorted (fun x y => CompareOrder st x y = true) sorted ->
  StronglySorted (fun x y => CompareOrder st x y = true)
    (fst (insert_by_order a sorted st)).
Proof.
  revert st. induction sorted as [|b rest IH]; intros st Hnin Hs.
  - repeat constructor.
  - apply not_elem_of_cons in Hnin as [Hne Hnin].
    apply StronglySorted_inv in Hs as [Hrest Hb].
    rewrite insert_by_order_cons. cbv zeta.
    destruct (CompareOrder st a b) eqn:Hbefore; cbn [fst].
    + constructor; [by constructor|]. constructor; [done|].
      eapply Forall_impl; [exact Hb|]. intros x Hx. simpl in Hx.
      by eapply CompareOrder_trans.
    + set (st1 := snd (ComparePluginOrder a b st)).
      assert (Hsame : forall x y,
                 CompareOrder st1 x y = true <-> CompareOrder st x y = true).
      { intros x y. unfold st1. by rewrite CompareOrder_after. }
      constructor.
      * eapply StronglySorted_impl; [intros x y; apply Hsame|].
        apply IH; [done|].
        eapply StronglySorted_impl; [intros x y; apply Hsame|done].
      * rewrite insert_by_order_perm. constructor; [|done].
        rewrite (CompareOrder_connex st b a) by done. by rewrite Hbefore.
Qed.

Lemma sort_by_order_cons a rest st :
  sort_by_order (a :: rest) st
  = insert_by_order a (fst (sort_by_order rest st))
      (snd (sort_by_order rest st)).
Proof. cbn [sort_by_order]. by destruct (sort_by_order rest st). Qed.

Lemma sort_by_order_after l st x y :
  CompareOrder (snd (sort_by_order l st)) x y = CompareOrder st x y.
Proof.
  induction l as [|a rest IH]; [done|].
  rewrite sort_by_order_cons, insert_by_order_after. done.
Qed.

Lemma sort_by_order_perm l st : fst (sort_by_order l st) ≡ₚ l.
Proof.
  induction l as [|a rest IH]; [done|].
  rewrite sort_by_order_cons, insert_by_order_perm. by rewrite IH.
Qed.

Lemma sort_by_order_sorted l st :
  NoDup l ->
  StronglySorted (fun x y => CompareOrder st x y = true)
    (fst (sort_by_order l st)).
Proof.
  induction l as [|a rest IH]; intros Hnd.
  - constructor.
  - apply NoDup_cons in Hnd as [Hnin Hnd].
    rewrite sort_by_order_cons.
    set (st' := snd (sort_by_order rest st)).
    assert (Hsame : forall x y,
               CompareOrder st' x y = true <-> CompareOrder st x y = true).
    { intros x y. unfold st'. by rewrite sort_by_order_after. }
    apply (StronglySorted_impl (fun x y => CompareOrder st' x y = true));
      [intros x y; apply Hsame|].
    apply insert_by_order_sorted.
    + by rewrite sort_by_order_perm.
    + eapply StronglySorted_impl; [|by apply IH].
      intros x y. apply Hsame.
Qed.

(** The names [deriveFilterNames] leaves in [FilterNames]. *)
Lemma deriveFilterNames_names range_Filters c st :
  FilterNames (fst (deriveFilterNames range_Filters c st))
  = Some (fst (sort_by_order range_Filters.*1 st)).
Proof.
  unfold deriveFilterNames. by destruct (sort_by_order _ st).
Qed.

Lemma visits_NoDup {V : Type} (order : list (string * V))
    (m : option (gmap string V)) :
  visits order m -> NoDup order.*1.
Proof.
  unfold visits. intros ->. apply NoDup_fst_map_to_list.
Qed.

(** C2 (as amended). [InitConfigs] leaves [FilterNames] as it finds it.
    The step that derives [FilterNames] apart from it puts there the names
    of [c.Filters], each once, sorted by [CompareOrder]; with ["basic-auth"]
    registered at [Order{Position:10, Operation:0}] and ["rate-limit"] at
    [Order{Position:20, Operation:0}] before any comparison was made, a
    Consumer whose [Filters] are exactly these two gets
    [FilterNames = ["basic-auth"; "rate-limit"]]. *)
Theorem FilterNames_derived st range_Auth range_Filters c :
  visits range_Filters (Filters c) ->
  FilterNames (fst (InitConfigs st range_Auth range_Filters c)) = FilterNames c
  /\ (exists sorted,
        FilterNames (fst (deriveFilterNames range_Filters c st)) = Some sorted
        /\ sorted ≡ₚ (map_to_list (default ∅ (Filters c))).*1
        /\ StronglySorted (fun a b => CompareOrder st a b = true) sorted)
  /\ (forall basic_auth rate_limit x y,
        nameToOrderInit st = false ->
        nameToOrder st = ∅ ->
        LoadHttpPlugin "basic-auth" st = Some basic_auth ->
        Order basic_auth = {| Position := 10; Operation := 0 |} ->
        LoadHttpPlugin "rate-limit" st = Some rate_limit ->
        Order rate_limit = {| Position := 20; Operation := 0 |} ->
        Filters c = Some (<["rate-limit" := x]> (<["basic-auth" := y]> ∅)) ->
        FilterNames (fst (deriveFilterNames range_Filters c st))
        = Some ["basic-auth"; "rate-limit"]).
Proof.
  intros HF.
  assert (Hgen : fst (sort_by_order range_Filters.*1 st)
                   ≡ₚ (map_to_list (default ∅ (Filters c))).*1
                 /\ StronglySorted (fun a b => CompareOrder st a b = true)
                      (fst (sort_by_order range_Filters.*1 st))).
  { split.
    - rewrite sort_by_order_perm. unfold visits in HF. by rewrite HF.
    - apply sort_by_order_sorted. by eapply visits_NoDup. }
  destruct Hgen as [Hperm Hsorted].
  split; [apply InitConfigs_fields|]. split.
  { eexists. split; [apply deriveFilterNames_names|done]. }
  intros p1 p2 x y Hinit Hempty Hp1 Ho1 Hp2 Ho2 Hfilters.
  rewrite deriveFilterNames_names. f_equal.
  rewrite Hfilters in Hperm. simpl in Hperm.
  rewrite map_to_list_insert in Hperm by done.
  rewrite map_to_list_insert in Hperm by done.
  rewrite map_to_list_empty in Hperm. simpl in Hperm.
  symmetry in Hperm.
  apply Permutation_length_2_inv in Hperm as [Heq|Heq];
    rewrite Heq in Hsorted |- *.
  - exfalso. apply StronglySorted_inv in Hsorted as [_ Hlt].
    apply Forall_cons in Hlt as [Hlt _]. revert Hlt.
    rewrite CompareOrder_less. cbv zeta. unfold order_of.
    rewrite !PluginsSpec.ComparePluginOrder_first by done.
    unfold LoadHttpPlugin in Hp1, Hp2. rewrite Hp1, Hp2, Ho1, Ho2. done.
  - done.
Qed.

End InitConfigs.

(** The Consumer of the scenario meets the hypothesis of
    [FilterNames_derived]. *)
Lemma FilterNames_derived_witness :
  FilterNames
    (fst (InitConfigs scenario.catalog [] (scenario.range (Filters scenario.tenant))
            scenario.tenant))
  = FilterNames scenario.tenant
  /\ FilterNames
       (fst (deriveFilterNames (scenario.range (Filters scenario.tenant))
               scenario.tenant scenario.catalog))
     = Some ["basic-auth"; "rate-limit"].
Proof.
  assert (Hv : visits (scenario.range (Filters scenario.tenant))
                 (Filters scenario.tenant)) by (unfold visits; reflexivity).
  destruct (FilterNames_derived scenario.catalog []
              (scenario.range (Filters scenario.tenant)) scenario.tenant Hv)
    as (H1 & _ & H3).
  split; [exact H1|].
  eapply (H3 (scenario.plugin_at 10 0) (scenario.plugin_at 20 0));
    reflexivity.
Defined.

(** C2 as stated fails: in the scenario [InitConfigs] succeeds and
    [FilterNames] is still nil. *)
Lemma InitConfigs_leaves_FilterNames_nil :
  let after :=
    InitConfigs scenario.catalog
      (scenario.range (Auth scenario.tenant))
      (scenario.range (Filters scenario.tenant)) scenario.tenant in
  snd after = Returned None
  /\ FilterNames (fst after) = None
  /\ FilterNames (fst after) <> Some ["basic-auth"; "rate-limit"].
Proof. vm_compute. repeat split; congruence. Qed.



(** Of two names that no plugin is registered for, the error identifies
    the one met first. *)
Lemma InitConfigs_names_one_offender :
  let result :=
    snd (InitConfigs scenario.catalog
           (scenario.range (Auth scenario.stranger))
           (scenario.range (Filters scenario.stranger)) scenario.stranger) in
  unresolved scenario.catalog scenario.stranger "acl"
  /\ result = Returned (Some (fmt_Errorf "plugin %s not found" "cors"))
  /\ ~ names (fmt_Errorf "plugin %s not found" "cors") "acl".
Proof.
  split; [|split].
  - right. split; [eexists|]; vm_compute; reflexivity.
  - vm_compute. reflexivity.
  - simpl. congruence.
Qed.

End ConsumerSpec.

(** ** The JSON text of a document reads back *)

Module JsonSpec.

Import json.

Lemma string_literal_idle (s : bytes) :
  string_literal (Skip 0) s = string_literal (Copy 0) s.
Proof. by destruct s. Qed.

Lemma string_body_idle (s : bytes) :
  string_body (Skip 0) s = string_body (Copy 0) s.
Proof. by destruct s. Qed.

(** The decoder at the start of a rune, case by case. *)
Lemma string_literal_start (c : ascii) (r : bytes) :
  string_literal (Copy 0) (c :: r)
  = if Ascii.eqb c dquote then Some ([], r)
    else if Ascii.eqb c backslash then
      match r with
      | [] => None
      | e :: r' =>
          if Ascii.eqb e "u"%char then
            match getu4 r' with
            | Some hi =>
                let (rune, more) := escaped_rune hi (drop 4 r') in
                prepend (utf8.EncodeRune rune)
                  (string_literal (Skip (5 + more)) r)
            | None => None
            end
          else
            match simple_escape e with
            | Some x => prepend [x] (string_literal (Skip 1) r)
            | None => None
            end
      end
    else if (utf8.code c <? 32)%N then None
    else if utf8.single c then prepend [c] (string_literal (Copy 0) r)
    else
      match utf8.width c r with
      | O => prepend (utf8.EncodeRune 0xFFFD) (string_literal (Copy 0) r)
      | S k => prepend [c] (string_literal (Copy k) r)
      end.
Proof. reflexivity. Qed.

Lemma string_literal_simple (e x : ascii) (tail : bytes) :
  Ascii.eqb e "u"%char = false ->
  simple_escape e = Some x ->
  string_literal (Copy 0) (backslash :: e :: tail)
  = prepend [x] (string_literal (Copy 0) tail).
Proof.
  intros Hu Hx. rewrite string_literal_start.
  change (Ascii.eqb backslash dquote) with false.
  change (Ascii.eqb backslash backslash) with true. cbv iota.
  rewrite Hu, Hx. cbn [string_literal]. by rewrite string_literal_idle.
Qed.

Lemma string_literal_u (x y a b : ascii) (n : N) (tail : bytes) :
  getu4 [x; y; a; b] = Some n ->
  (n < 0xD800)%N ->
  string_literal (Copy 0)
    (backslash :: "u"%char :: x :: y :: a :: b :: tail)
  = prepend (utf8.EncodeRune n) (string_literal (Copy 0) tail).
Proof.
  intros Hn Hlt. rewrite string_literal_start.
  change (Ascii.eqb backslash dquote) with false.
  change (Ascii.eqb backslash backslash) with true. cbv iota.
  change (Ascii.eqb "u" "u") with true. cbv iota.
  assert (Hg : getu4 (x :: y :: a :: b :: tail) = Some n) by exact Hn.
  rewrite Hg. unfold escaped_rune.
  assert (H1 : ((0xD800 <=? n) && (n <=? 0xDBFF))%N = false).
  { apply andb_false_iff. left. apply N.leb_gt. lia. }
  assert (H2 : ((0xDC00 <=? n) && (n <=? 0xDFFF))%N = false).
  { apply andb_false_iff. left. apply N.leb_gt. lia. }
  rewrite H1, H2. cbn [string_literal Nat.add]. by rewrite string_literal_idle.
Qed.

(** The digits the encoder writes for an ASCII byte give the byte back. *)
Lemma hex_read (c : ascii) :
  utf8.single c = true ->
  getu4 ["0"%char; "0"%char; hex (utf8.code c / 16); hex (utf8.code c mod 16)]
  = Some (utf8.code c)
  /\ utf8.EncodeRune (utf8.code c) = [c].
Proof.
  destruct c as [[] [] [] [] [] [] [] []]; intros Hs; vm_compute in Hs;
    try discriminate Hs; vm_compute; done.
Qed.

Lemma code_bound (c : ascii) : (utf8.code c < 256)%N.
Proof. apply N_ascii_bounded. Qed.

(** An ASCII byte reads back from the way it is written. *)
Lemma escaped_read (c : ascii) (tail : bytes) :
  utf8.single c = true ->
  string_literal (Copy 0) (escaped c ++ tail)
  = prepend [c] (string_literal (Copy 0) tail).
Proof.
  intros Hs. destruct (hex_read c Hs) as [Hhex Henc].
  assert (Hlt : (utf8.code c < 0xD800)%N).
  { pose proof (code_bound c). lia. }
  unfold escaped.
  destruct c as [[] [] [] [] [] [] [] []]; vm_compute in Hs;
    try discriminate Hs; clear Hs;
    first
      [ (* written as it is *)
        reflexivity
      | (* a two-byte escape *)
        apply string_literal_simple; reflexivity
      | (* six bytes *)
        rewrite <- Henc; apply string_literal_u; [exact Hhex|exact Hlt] ].
Qed.

Lemma single_width (c : ascii) (r : bytes) :
  utf8.single c = true -> utf8.width c r = 1.
Proof. unfold utf8.width. by intros ->. Qed.

(** A byte outside ASCII is no quote, no backslash and no control byte. *)
Lemma wide_plain (c : ascii) :
  utf8.single c = false ->
  Ascii.eqb c dquote = false /\ Ascii.eqb c backslash = false
  /\ (utf8.code c <? 32)%N = false.
Proof.
  destruct c as [[] [] [] [] [] [] [] []]; intros Hs; vm_compute in Hs;
    try discriminate Hs; vm_compute; done.
Qed.

(** The width of a rune is read off the bytes the encoder copies. *)
Lemma width_copied (c : ascii) (r t : bytes) (k : nat) :
  utf8.single c = false ->
  utf8.width c r = S k ->
  utf8.width c (string_body (Copy k) r ++ t) = S k.
Proof.
  intros Hs. unfold utf8.width. rewrite Hs.
  destruct (utf8.between 194 223 c).
  { destruct r as [|c1 r1]; [done|].
    destruct (utf8.continuation c1) eqn:H1; [|done].
    intros [= <-]. cbn [string_body app]. by rewrite H1. }
  destruct (utf8.between 224 239 c).
  { destruct r as [|c1 [|c2 r2]]; [done..|].
    destruct (utf8.second c c1 && utf8.continuation c2) eqn:H1; [|done].
    intros [= <-]. cbn [string_body app]. by rewrite H1. }
  destruct (utf8.between 240 244 c); [|done].
  destruct r as [|c1 [|c2 [|c3 r3]]]; [done..|].
  destruct (utf8.second c c1 && utf8.continuation c2 && utf8.continuation c3)
    eqn:H1; [|done].
  intros [= <-]. cbn [string_body app]. by rewrite H1.
Qed.

Lemma code_inj (c : ascii) (n : N) : utf8.code c = n -> c = ascii_of_N n.
Proof. intros <-. symmetry. apply ascii_N_embedding. Qed.

(** The runes the encoder escapes: U+2028 and U+2029. *)
Lemma separator_inv (c : ascii) (r : bytes) (d : ascii) :
  separator c r = Some d ->
  exists r',
    (c :: r = ascii_of_N 0xE2 :: ascii_of_N 0x80 :: ascii_of_N 0xA8 :: r'
     /\ d = "8"%char)
    \/ (c :: r = ascii_of_N 0xE2 :: ascii_of_N 0x80 :: ascii_of_N 0xA9 :: r'
        /\ d = "9"%char).
Proof.
  unfold separator. destruct r as [|c1 [|c2 r']]; [done..|].
  destruct (N.eqb_spec (utf8.code c) 226) as [Hc|]; [|done].
  destruct (N.eqb_spec (utf8.code c1) 128) as [Hc1|]; [|done]. simpl.
  apply code_inj in Hc, Hc1. subst c c1.
  destruct (N.eqb_spec (utf8.code c2) 168) as [Hc2|].
  { intros [= <-]. apply code_inj in Hc2. subst. eauto. }
  destruct (N.eqb_spec (utf8.code c2) 169) as [Hc2|]; [|done].
  intros [= <-]. apply code_inj in Hc2. subst. eauto.
Qed.

(** A text in valid UTF-8 reads back from its string literal; [k] bytes of
    a rune are still to come. *)
Lemma string_read_aux (n : nat) :
  forall (s : bytes) (k : nat) (rest : bytes),
    length s <= n ->
    utf8.valid_tail k s = true ->
    string_literal (Copy k) (string_body (Copy k) s ++ dquote :: rest)
    = Some (s, rest).
Proof.
  induction n as [|n IH]; intros s k rest Hlen Hv.
  { destruct s; [|simpl in Hlen; lia]. destruct k; [done|discriminate]. }
  destruct s as [|c r]; [destruct k; [done|discriminate]|].
  simpl in Hlen. destruct k as [|k].
  - cbn [utf8.valid_tail] in Hv.
    destruct (utf8.single c) eqn:Hs.
    + rewrite single_width in Hv by done.
      cbn [string_body]. rewrite Hs, <- app_assoc, escaped_read by done.
      rewrite IH by (done || lia). done.
    + destruct (utf8.width c r) as [|k] eqn:Hw; [done|].
      cbn [string_body]. rewrite Hs, Hw.
      destruct (separator c r) as [d|] eqn:Hsep.
      * apply separator_inv in Hsep as [r' [[Heq ->]|[Heq ->]]];
          injection Heq as -> ->;
          (assert (k = 2) as -> by (vm_compute in Hw; congruence));
          cbn [string_body app bytes_of_string list_ascii_of_string];
          rewrite string_body_idle;
          (erewrite string_literal_u; [|vm_compute; reflexivity|done]);
          rewrite IH by (simpl in *; (done || lia)); vm_compute; reflexivity.
      * destruct (wide_plain c Hs) as (Hq & Hb & Hctl).
        cbn [app]. rewrite string_literal_start, Hq, Hb, Hctl, Hs.
        rewrite width_copied by done.
        rewrite IH by (done || lia). done.
  - cbn [utf8.valid_tail] in Hv. cbn [string_body app string_literal].
    rewrite IH by (done || lia). done.
Qed.

Lemma after_quote_read (s : string) (rest : bytes) :
  utf8.ValidString s = true ->
  after_quote (string_body (Copy 0) (bytes_of_string s) ++ dquote :: rest)
  = Some (s, rest).
Proof.
  intros Hv. unfold after_quote.
  rewrite (string_read_aux (length (bytes_of_string s))) by done.
  unfold string_of_bytes, bytes_of_string.
  by rewrite string_of_list_ascii_of_string.
Qed.

(** *** Number literals *)

Lemma number_tail_split (s : bytes) :
  forall q lit rest, number_tail q s = Some (lit, rest) -> s = lit ++ rest.
Proof.
  induction s as [|c r IH]; intros q lit rest; cbn [number_tail].
  - destruct (number_end q); [|done]. by intros [= <- <-].
  - destruct (number_step q c) as [q'|].
    + destruct (number_tail q' r) as [[lit' rest']|] eqn:Ht; [|done].
      intros [= <- <-]. by rewrite (IH _ _ _ Ht).
    + destruct (number_end q); [|done]. by intros [= <- <-].
Qed.

Lemma closes_number_step (c : ascii) (rest : bytes) (q : number_state) :
  closes (c :: rest) = true -> number_step q c = None.
Proof.
  cbn [closes]. intros H.
  destruct (Ascii.eqb_spec c ","%char) as [->|]; [by destruct q|].
  destruct (Ascii.eqb_spec c "]"%char) as [->|]; [by destruct q|].
  destruct (Ascii.eqb_spec c "}"%char) as [->|]; [by destruct q|done].
Qed.

Lemma number_tail_read (lit : bytes) :
  forall q rest,
    number_tail q lit = Some (lit, []) ->
    closes rest = true ->
    number_tail q (lit ++ rest) = Some (lit, rest).
Proof.
  induction lit as [|c r IH]; intros q rest; cbn [number_tail app].
  - destruct (number_end q) eqn:He; [|done]. intros _ Hc.
    destruct rest as [|c rest]; cbn [number_tail]; [by rewrite He|].
    by rewrite (closes_number_step c rest q), He.
  - destruct (number_step q c) as [q'|].
    + destruct (number_tail q' r) as [[lit' rest']|] eqn:Ht; [|done].
      intros [= -> ->] Hc. by rewrite (IH q' rest).
    + by destruct (number_end q).
Qed.

Lemma number_literal_inv (literal : string) :
  number_literal literal = true ->
  exists c r q,
    bytes_of_string literal = c :: r /\ number_start c = Some q
    /\ number_tail q r = Some (r, []).
Proof.
  unfold number_literal. destruct (bytes_of_string literal) as [|c r]; [done|].
  destruct (number_start c) as [q|] eqn:Hq; [|done].
  destruct (number_tail q r) as [[lit []]|] eqn:Ht; [|done..]. intros _.
  apply number_tail_split in Ht as Hs. rewrite app_nil_r in Hs. subst lit.
  by exists c, r, q.
Qed.

(** What a number starts with starts no other value. *)
Lemma number_start_head (c : ascii) (q : number_state) :
  number_start c = Some q ->
  is_space c = false
  /\ Ascii.eqb c "{"%char = false /\ Ascii.eqb c "["%char = false
  /\ Ascii.eqb c dquote = false /\ Ascii.eqb c "n"%char = false
  /\ Ascii.eqb c "t"%char = false /\ Ascii.eqb c "f"%char = false
  /\ Ascii.eqb c "]"%char = false /\ Ascii.eqb c "}"%char = false.
Proof.
  destruct c as [[] [] [] [] [] [] [] []]; intros H; vm_compute in H;
    try discriminate H; vm_compute; done.
Qed.

(** *** Values *)

Lemma value_ind (P : value -> Prop) :
  P Null ->
  (forall b, P (Boolean b)) ->
  (forall literal, P (Number literal)) ->
  (forall s, P (Str s)) ->
  (forall elements, Forall P elements -> P (Array elements)) ->
  (forall members, Forall (fun m => P (snd m)) members -> P (Object members)) ->
  forall v, P v.
Proof.
  intros HNull HBool HNum HStr HArr HObj. fix IH 1.
  intros [|b|literal|s|elements|members]; [done..| |].
  - apply HArr. induction elements as [|x r IHr]; constructor; [apply IH|done].
  - apply HObj. induction members as [|m r IHr]; constructor; [apply IH|done].
Qed.

Lemma encode_opens (v : value) : legible v = true -> opens (encode v).
Proof.
  destruct v as [|[]|literal|s|elements|members]; intros Hwf;
    try (by eexists _, _).
  cbn [legible] in Hwf.
  apply number_literal_inv in Hwf as (c & r & q & Hb & Hq & _).
  destruct (number_start_head c q Hq) as (? & ? & ? & ? & ? & ? & ? & ? & ?).
  exists c, r. cbn [encode]. by rewrite Hb.
Qed.

Lemma skip_space_opens (text rest : bytes) :
  opens text -> skip_space (text ++ rest) = text ++ rest.
Proof. intros (c & t & -> & Hs & _). cbn [app skip_space]. by rewrite Hs. Qed.

Lemma skip_space_closes (rest : bytes) :
  closes rest = true -> skip_space rest = rest.
Proof.
  destruct rest as [|c rest]; [done|]. cbn [closes skip_space]. intros H.
  destruct (Ascii.eqb_spec c ","%char) as [->|]; [done|].
  destruct (Ascii.eqb_spec c "]"%char) as [->|]; [done|].
  destruct (Ascii.eqb_spec c "}"%char) as [->|]; done.
Qed.

(** No element nests deeper than the deepest. *)
Lemma nesting_le_max {A : Type} (f : A -> N) (l : list A) (x : A) :
  x ∈ l -> (f x <= fold_right (fun y d => N.max (f y) d) 0 l)%N.
Proof.
  induction l as [|y l IH]; intros Hx; [by apply elem_of_nil in Hx|].
  cbn [fold_right]. apply elem_of_cons in Hx as [->|Hx]; [lia|].
  specialize (IH Hx). lia.
Qed.

Lemma elements_at_read (elements : list value) :
  Forall reads elements ->
  forallb legible elements = true ->
  elements <> [] ->
  forall fuel depth rest,
    need id elements <= fuel ->
    Forall (fun x => (depth + nesting x <= maxNestingDepth)%N) elements ->
    elements_at fuel depth (commas (map encode elements) ++ "]"%char :: rest)
    = Some (elements, rest).
Proof.
  induction 1 as [|v vs Hv Hvs IH]; intros Hwf Hne fuel depth rest Hfuel Hd;
    [by destruct Hne|]. clear Hne.
  cbn [forallb] in Hwf. apply andb_prop in Hwf as [Hwfv Hwfvs].
  apply Forall_cons in Hd as [Hdv Hdvs].
  unfold need, id in Hfuel. cbn [map] in Hfuel.
  change (list_sum (?x :: ?l)) with (x + list_sum l) in Hfuel.
  destruct fuel as [|fuel]; [lia|]. cbn [elements_at].
  destruct vs as [|v' vs'].
  - cbn [map commas]. rewrite Hv by (done || lia). done.
  - change (commas (map encode (v :: v' :: vs')))
      with (encode v ++ ","%char :: commas (map encode (v' :: vs'))).
    rewrite <- app_assoc. cbn [app].
    rewrite Hv by (done || lia). rewrite skip_space_closes by done.
    change (Ascii.eqb "," ",") with true. cbv iota.
    rewrite IH; [done|done|done| |done]. unfold need, id. lia.
Qed.

Lemma member_text_app (m : string * value) (rest : bytes) :
  member_text m ++ rest
  = dquote :: string_body (Copy 0) (bytes_of_string (fst m))
      ++ dquote :: ":"%char :: encode (snd m) ++ rest.
Proof.
  unfold member_text, quote. cbn [app]. by rewrite <- !app_assoc.
Qed.

Lemma members_at_read (members : list (string * value)) :
  Forall (fun m => reads (snd m)) members ->
  forallb (fun m => utf8.ValidString (fst m) && legible (snd m)) members
  = true ->
  members <> [] ->
  forall fuel depth rest,
    need snd members <= fuel ->
    Forall (fun m => (depth + nesting (snd m) <= maxNestingDepth)%N) members ->
    members_at fuel depth
      (commas (map member_text members) ++ "}"%char :: rest)
    = Some (members, rest).
Proof.
  induction 1 as [|[k v] ms Hv Hms IH];
    intros Hwf Hne fuel depth rest Hfuel Hd; [by destruct Hne|]. clear Hne.
  cbn [forallb fst snd] in Hwf, Hv.
  apply andb_prop in Hwf as [Hwf Hwfms]. apply andb_prop in Hwf as [Hk Hwfv].
  apply Forall_cons in Hd as [Hdv Hdms]. cbn [snd] in Hdv.
  unfold need in Hfuel. cbn [map snd] in Hfuel.
  change (list_sum (?x :: ?l)) with (x + list_sum l) in Hfuel.
  destruct fuel as [|fuel]; [lia|]. cbn [members_at].
  assert (Hstep : forall tail,
             closes tail = true ->
             match skip_space (member_text (k, v) ++ tail) with
             | q :: r =>
                 if Ascii.eqb q dquote then
                   match after_quote r with
                   | Some (key, rest) =>
                       match skip_space rest with
                       | c :: r' =>
                           if Ascii.eqb c ":"%char then
                             match value_at fuel depth r' with
                             | Some (v, rest') => Some (key, v, rest')
                             | None => None
                             end
                           else None
                       | [] => None
                       end
                   | None => None
                   end
                 else None
             | [] => None
             end = Some (k, v, tail)).
  { intros tail Htail. rewrite member_text_app. cbn [fst snd].
    change (skip_space (dquote :: ?x)) with (dquote :: x).
    change (Ascii.eqb dquote dquote) with true. cbv iota.
    rewrite after_quote_read by done.
    change (skip_space (":"%char :: ?x)) with (":"%char :: x).
    change (Ascii.eqb ":" ":") with true. cbv iota.
    rewrite Hv by (done || lia). done. }
  destruct ms as [|m' ms'].
  - cbn [map commas].
    specialize (Hstep ("}"%char :: rest) eq_refl).
    destruct (skip_space _) as [|q r]; [done|].
    destruct (Ascii.eqb q dquote); [|done].
    destruct (after_quote r) as [[key rest1]|]; [|done].
    destruct (skip_space rest1) as [|c r']; [done|].
    destruct (Ascii.eqb c ":"%char); [|done].
    destruct (value_at fuel depth r') as [[v1 rest']|]; [|done].
    injection Hstep as -> -> ->. done.
  - change (commas (map member_text ((k, v) :: m' :: ms')))
      with (member_text (k, v)
              ++ ","%char :: commas (map member_text (m' :: ms'))).
    rewrite <- app_assoc. cbn [app].
    specialize (Hstep (","%char :: commas (map member_text (m' :: ms'))
                         ++ "}"%char :: rest) eq_refl).
    destruct (skip_space _) as [|q r]; [done|].
    destruct (Ascii.eqb q dquote); [|done].
    destruct (after_quote r) as [[key rest1]|]; [|done].
    destruct (skip_space rest1) as [|c r']; [done|].
    destruct (Ascii.eqb c ":"%char); [|done].
    destruct (value_at fuel depth r') as [[v1 rest']|]; [|done].
    injection Hstep as -> -> ->.
    rewrite skip_space_closes by done.
    change (Ascii.eqb "," ",") with true. cbv iota.
    rewrite IH; [done|done|done| |done]. unfold need. lia.
Qed.

(** Every legible document is read back from its text, whatever closes
    it, as far as the nesting limit allows. *)
Lemma value_at_read (v : value) : legible v = true -> reads v.
Proof.
  induction v as [|b|literal|s|elements IH|members IH] using value_ind;
    intros Hwf fuel depth rest Hfuel Hdepth Hrest;
    (destruct fuel as [|fuel]; [cbn [size] in Hfuel; lia|]).
  - done.
  - by destruct b.
  - cbn [legible] in Hwf.
    apply number_literal_inv in Hwf as (c & r & q & Hb & Hq & Ht).
    destruct (number_start_head c q Hq)
      as (Hs & H1 & H2 & H3 & H4 & H5 & H6 & _).
    cbn [encode]. rewrite Hb. cbn [app value_at skip_space].
    rewrite Hs, H1, H2, H3, H4, H5, H6, Hq.
    rewrite (number_tail_read r q rest) by done.
    rewrite <- Hb. unfold string_of_bytes, bytes_of_string.
    by rewrite string_of_list_ascii_of_string.
  - cbn [legible] in Hwf. cbn [encode]. unfold quote.
    cbn [app]. rewrite <- app_assoc. cbn [app value_at].
    change (skip_space (dquote :: ?x)) with (dquote :: x). cbv iota.
    change (Ascii.eqb dquote "{") with false.
    change (Ascii.eqb dquote "[") with false.
    change (Ascii.eqb dquote dquote) with true. cbv iota.
    by rewrite after_quote_read.
  - cbn [legible] in Hwf. cbn [size] in Hfuel. cbn [nesting] in Hdepth.
    cbn [encode]. cbn [app]. rewrite <- app_assoc. cbn [app value_at].
    change (skip_space ("["%char :: ?x)) with ("["%char :: x). cbv iota.
    change (Ascii.eqb "[" "{") with false.
    change (Ascii.eqb "[" "[") with true. cbv iota.
    assert (Hroom : (maxNestingDepth <=? depth)%N = false)
      by (apply N.leb_gt; lia).
    rewrite Hroom.
    destruct elements as [|v vs]; [done|].
    assert (Hop : opens (commas (map encode (v :: vs)))).
    { cbn [forallb] in Hwf. apply andb_prop in Hwf as [Hwfv _].
      destruct (encode_opens v Hwfv) as (c & t & Hc & Hprops).
      destruct vs; cbn [map commas]; rewrite Hc; by eexists _, _. }
    rewrite skip_space_opens by done.
    destruct Hop as (c & t & Hc & _ & Hclose & _).
    rewrite Hc at 1. cbn [app]. rewrite Hclose.
    rewrite elements_at_read; [done| |done|done| |].
    + apply Forall_forall. intros x Hx.
      rewrite Forall_forall in IH. apply IH; [done|].
      rewrite forallb_forall in Hwf. apply Hwf. by apply list_elem_of_In.
    + unfold need, id. lia.
    + apply Forall_forall. intros x Hx.
      pose proof (nesting_le_max nesting (v :: vs) x Hx). lia.
  - cbn [legible] in Hwf. cbn [size] in Hfuel. cbn [nesting] in Hdepth.
    cbn [encode]. cbn [app]. rewrite <- app_assoc. cbn [app value_at].
    change (skip_space ("{"%char :: ?x)) with ("{"%char :: x). cbv iota.
    change (Ascii.eqb "{" "{") with true. cbv iota.
    assert (Hroom : (maxNestingDepth <=? depth)%N = false)
      by (apply N.leb_gt; lia).
    rewrite Hroom.
    destruct members as [|m ms]; [done|].
    change (map (fun m => quote (fst m) ++ ":"%char :: encode (snd m)))
      with (map member_text).
    assert (Hop : exists t, commas (map member_text (m :: ms)) = dquote :: t).
    { destruct ms; cbn [map commas]; unfold member_text, quote;
        by eexists. }
    destruct Hop as [t Hc]. rewrite Hc at 1. cbn [app].
    change (skip_space (dquote :: ?x)) with (dquote :: x).
    change (Ascii.eqb dquote "}") with false. cbv iota.
    rewrite members_at_read; [done| |done|done| |].
    + apply Forall_forall. intros x Hx.
      rewrite Forall_forall in IH. intros fuel' depth' rest' Hf Hdp Hr.
      apply IH; [done| |done|done|done].
      rewrite forallb_forall in Hwf.
      specialize (Hwf x). rewrite <- list_elem_of_In in Hwf.
      by destruct (andb_prop _ _ (Hwf Hx)).
    + unfold need. lia.
    + apply Forall_forall. intros x Hx.
      pose proof (nesting_le_max (fun m => nesting (snd m)) (m :: ms) x Hx).
      cbn beta in *. lia.
Qed.

(** *** The fuel [decode] gives is enough *)

Lemma commas_length (l : list bytes) :
  list_sum (map (fun x => S (length x)) l) <= S (length (commas l)).
Proof.
  induction l as [|x l IH]; [simpl; lia|].
  destruct l as [|y l]; [simpl; lia|].
  change (commas (x :: y :: l)) with (x ++ ","%char :: commas (y :: l)).
  change (map ?f (x :: ?t)) with (f x :: map f t).
  change (list_sum (?a :: ?b)) with (a + list_sum b).
  rewrite length_app. cbn [length]. lia.
Qed.

Lemma list_sum_le {A : Type} (f g : A -> nat) (l : list A) :
  Forall (fun x => f x <= g x) l ->
  list_sum (map f l) <= list_sum (map g l).
Proof.
  induction 1 as [|x l Hx Hl IH]; [done|]. cbn [map].
  change (list_sum (?a :: ?b)) with (a + list_sum b). lia.
Qed.

Lemma size_le_length (v : value) :
  legible v = true -> size v <= length (encode v).
Proof.
  induction v as [|b|literal|s|elements IH|members IH] using value_ind;
    intros Hwf.
  - simpl. lia.
  - destruct b; simpl; lia.
  - cbn [legible] in Hwf.
    apply number_literal_inv in Hwf as (c & r & q & Hb & _).
    cbn [encode size]. rewrite Hb. simpl. lia.
  - cbn [encode size]. unfold quote. simpl. lia.
  - cbn [legible] in Hwf. cbn [encode size length].
    rewrite length_app. cbn [length].
    pose proof (commas_length (map encode elements)) as Hc.
    rewrite map_map in Hc.
    assert (Hle : list_sum (map (fun x => S (size x)) elements)
                  <= list_sum (map (fun x => S (length (encode x))) elements)).
    { apply list_sum_le. apply Forall_forall. intros x Hx.
      rewrite Forall_forall in IH. rewrite forallb_forall in Hwf.
      specialize (IH x Hx (Hwf x (proj1 (list_elem_of_In _ _) Hx))). lia. }
    lia.
  - cbn [legible] in Hwf. cbn [encode size length].
    rewrite length_app. cbn [length].
    pose proof (commas_length
                  (map (fun m => quote (fst m) ++ ":"%char :: encode (snd m))
                       members)) as Hc.
    rewrite map_map in Hc.
    assert (Hle : list_sum (map (fun m => S (size (snd m))) members)
                  <= list_sum
                       (map (fun m =>
                               S (length (quote (fst m)
                                            ++ ":"%char :: encode (snd m))))
                            members)).
    { apply list_sum_le. apply Forall_forall. intros x Hx.
      rewrite Forall_forall in IH. rewrite forallb_forall in Hwf.
      specialize (Hwf x (proj1 (list_elem_of_In _ _) Hx)).
      apply andb_prop in Hwf as [_ Hwf]. specialize (IH x Hx Hwf).
      rewrite length_app. cbn [length]. lia. }
    lia.
Qed.

(** Every well-formed document is decoded from its text. *)
Lemma decode_encode (v : value) :
  well_formed v = true -> decode (encode v) = Some v.
Proof.
  unfold well_formed. intros [Hwf Hdepth%N.leb_le]%andb_prop. unfold decode.
  rewrite <- (app_nil_r (encode v)) at 2.
  rewrite (value_at_read v Hwf); [done| |lia|done].
  pose proof (size_le_length v Hwf). lia.
Qed.

End JsonSpec.

(** ** The transport form of a Consumer *)

Module TransportSpec.

Import plugins consumer.

Section Transport.

Context {Message FilterFactory Callbacks FilterConfig FilterWrapper : Type}.
Context `{!Model FilterConfig FilterWrapper}.

Local Abbreviation Consumer :=
  (consumer.Consumer Message FilterFactory Callbacks FilterConfig FilterWrapper).

Implicit Types (c : Consumer) (doc : json.value).

(** *** Maps are written entry by entry and read back whole *)

Lemma insert_key_perm {V : Type} (kv : string * V) (l : list (string * V)) :
  insert_key kv l ≡ₚ kv :: l.
Proof.
  induction l as [|x r IH]; [done|]. cbn [insert_key].
  destruct (String.ltb (fst kv) (fst x)); [done|].
  rewrite IH. apply perm_swap.
Qed.

Lemma sorted_entries_perm {V : Type} (m : gmap string V) :
  sorted_entries m ≡ₚ map_to_list m.
Proof.
  unfold sorted_entries. induction (map_to_list m) as [|kv l IH]; [done|].
  cbn [foldr]. by rewrite insert_key_perm, IH.
Qed.

Lemma fold_left_insert {V : Type} (l : list (string * V)) (acc : gmap string V) :
  fold_left (fun a kv => <[fst kv := snd kv]> a) l acc
  = foldr (fun kv a => <[fst kv := snd kv]> a) acc (reverse l).
Proof.
  revert acc. induction l as [|kv l IH]; intros acc; [done|].
  cbn [fold_left]. rewrite IH, reverse_cons, foldr_app. done.
Qed.

(** Filling an empty map with the entries of [m], in the order they are
    written, gives [m]. *)
Lemma fill_sorted_entries {V : Type} (m : gmap string V) :
  fold_left (fun a kv => <[fst kv := snd kv]> a) (sorted_entries m) ∅ = m.
Proof.
  rewrite fold_left_insert.
  change (foldr (fun kv a => <[fst kv := snd kv]> a) ∅ ?l)
    with (list_to_map l : gmap string V).
  transitivity (list_to_map (map_to_list m) : gmap string V);
    [|apply list_to_map_to_list].
  apply list_to_map_proper.
  - rewrite reverse_Permutation, sorted_entries_perm.
    apply NoDup_fst_map_to_list.
  - by rewrite reverse_Permutation, sorted_entries_perm.
Qed.

Lemma encode_entries_cons {V : Type} (enc : V -> error + json.value)
    (k : string) (x : V) (r : list (string * V)) :
  encode_entries enc ((k, x) :: r)
  = match enc x with
    | inl err => inl err
    | inr v =>
        match encode_entries enc r with
        | inl err => inl err
        | inr ms => inr ((k, v) :: ms)
        end
    end.
Proof.
  cbn [encode_entries]. destruct (enc x); [done|]. cbn.
  by destruct (encode_entries enc r).
Qed.

Lemma decode_encode_entries {V : Type} (enc : V -> error + json.value)
    (elem : json.value -> V * option error) (l : list (string * V)) :
  forall ms (acc : gmap string V) e,
    encode_entries enc l = inr ms ->
    (forall k x d, (k, x) ∈ l -> enc x = inr d -> fst (elem d) = x) ->
    fst (fold_left
           (fun acc kv =>
              let (x, e) := elem (snd kv) in
              (<[fst kv := x]> (fst acc), first_error (snd acc) e))
           ms (acc, e))
    = fold_left (fun a kv => <[fst kv := snd kv]> a) l acc.
Proof.
  induction l as [|[k x] r IH]; intros ms acc e Henc Hread.
  - by injection Henc as <-.
  - rewrite encode_entries_cons in Henc.
    destruct (enc x) as [err|d] eqn:Hx; [done|].
    destruct (encode_entries enc r) as [err|ms'] eqn:Hr; [done|].
    injection Henc as <-. cbn [fold_left fst snd].
    pose proof (Hread k x d ltac:(left) Hx) as Hd.
    destruct (elem d) as [x' e']. cbn [fst] in Hd. subst x'.
    apply IH; [done|]. intros k' x' d' Hin. apply (Hread k'). by right.
Qed.

Lemma decode_encode_map {V : Type} (enc : V -> error + json.value)
    (elem : json.value -> V * option error) (type : string)
    (m : gmap string V) (doc : json.value) :
  encode_map enc (Some m) = inr doc ->
  (forall k x d, m !! k = Some x -> enc x = inr d -> fst (elem d) = x) ->
  fst (decode_map elem type doc None) = Some m.
Proof.
  cbn [encode_map]. intros Henc Hread.
  destruct (encode_entries enc (sorted_entries m)) as [err|ms] eqn:Hms;
    [done|].
  injection Henc as <-. cbn [decode_map default].
  pose proof (decode_encode_entries enc elem (sorted_entries m) ms ∅ None Hms)
    as Hfold.
  destruct (fold_left _ ms (∅, None)) as [m' err]. cbn [fst] in *.
  rewrite Hfold, fill_sorted_entries; [done|].
  intros k x d Hin. apply (Hread k).
  apply elem_of_map_to_list. by rewrite <- sorted_entries_perm.
Qed.

(** *** The document of a Consumer *)

(** What [encode_Consumer] puts together. *)
Lemma encode_Consumer_inv c doc :
  encode_Consumer c = inr doc ->
  exists auth filters canSkipMethod filterNames filterWrappers,
    encode_map encode_string (Auth c) = inr auth
    /\ encode_map (encode_pointer encode_FilterConfig) (Filters c) = inr filters
    /\ doc = json.Object
               ([("auth", auth)] ++
                (if is_empty (Filters c) then [] else [("filters", filters)]) ++
                [("CanSkipMethod", canSkipMethod);
                 ("FilterNames", filterNames);
                 ("FilterWrappers", filterWrappers)]).
Proof.
  unfold encode_Consumer.
  destruct (encode_map encode_string (Auth c)) as [|auth]; [done|].
  destruct (encode_map _ (Filters c)) as [|filters]; [done|].
  destruct (encode_map encode_bool (CanSkipMethod c)) as [|csm]; [done|].
  destruct (encode_slice encode_string (FilterNames c)) as [|fn]; [done|].
  destruct (encode_slice _ (FilterWrappers c)) as [|fw]; [done|].
  intros [= <-]. by eexists _, _, _, _, _.
Qed.

(** [decode_field], by the five names [Marshal] writes. *)
Lemma decode_field_auth v c :
  decode_field "auth" v c
  = let r := decode_map (fun v => decode_string v EmptyString)
               "map[string]string" v (Auth c) in
    (set_Auth (fst r) c, snd r).
Proof.
  unfold decode_field.
  change (json.field_of field_names "auth") with (Some "auth").
  cbv zeta. by destruct (decode_map _ _ v (Auth c)).
Qed.

Lemma decode_field_filters v c :
  decode_field "filters" v c
  = let r := decode_map decode_FilterConfig_pointer
               "map[string]*model.FilterConfig" v (Filters c) in
    (set_Filters (fst r) c, snd r).
Proof.
  unfold decode_field.
  change (json.field_of field_names "filters") with (Some "filters").
  cbv zeta. by destruct (decode_map _ _ v (Filters c)).
Qed.

(** The derived fields are read into themselves. *)
Lemma decode_field_derived key v c :
  key ∈ ["CanSkipMethod"; "FilterNames"; "FilterWrappers"] ->
  Auth (fst (decode_field key v c)) = Auth c
  /\ Filters (fst (decode_field key v c)) = Filters c.
Proof.
  intros Hkey. unfold decode_field.
  repeat (apply elem_of_cons in Hkey as [->|Hkey]);
    [| | |by apply elem_of_nil in Hkey].
  - change (json.field_of field_names "CanSkipMethod")
      with (Some "CanSkipMethod").
    cbv iota. change (String.eqb "CanSkipMethod" "auth") with false.
    change (String.eqb "CanSkipMethod" "filters") with false.
    change (String.eqb "CanSkipMethod" "CanSkipMethod") with true. cbv iota.
    by destruct (decode_map _ _ v (CanSkipMethod c)).
  - change (json.field_of field_names "FilterNames") with (Some "FilterNames").
    cbv iota. change (String.eqb "FilterNames" "auth") with false.
    change (String.eqb "FilterNames" "filters") with false.
    change (String.eqb "FilterNames" "CanSkipMethod") with false.
    change (String.eqb "FilterNames" "FilterNames") with true. cbv iota.
    by destruct (decode_slice _ _ _ v (FilterNames c)).
  - change (json.field_of field_names "FilterWrappers")
      with (Some "FilterWrappers").
    cbv iota. change (String.eqb "FilterWrappers" "auth") with false.
    change (String.eqb "FilterWrappers" "filters") with false.
    change (String.eqb "FilterWrappers" "CanSkipMethod") with false.
    change (String.eqb "FilterWrappers" "FilterNames") with false. cbv iota.
    by destruct (decode_slice _ _ _ v (FilterWrappers c)).
Qed.

(** [Auth] and [Filters] as they are read from the document [Marshal]
    writes, into a zero Consumer. *)
Lemma decode_Consumer_zero auth filters canSkipMethod filterNames filterWrappers
    (omit : bool) :
  let c' :=
    fst (decode_Consumer
           (json.Object
              ([("auth", auth)] ++
               (if omit then [] else [("filters", filters)]) ++
               [("CanSkipMethod", canSkipMethod);
                ("FilterNames", filterNames);
                ("FilterWrappers", filterWrappers)]))
           (zero : Consumer)) in
  Auth c'
  = fst (decode_map (fun v => decode_string v EmptyString)
           "map[string]string" auth None)
  /\ Filters c'
     = if omit then None
       else fst (decode_map decode_FilterConfig_pointer
                   "map[string]*model.FilterConfig" filters None).
Proof.
  set (F := fun (acc : Consumer * option error) (kv : string * json.value) =>
              let (c', e) := decode_field (fst kv) (snd kv) (fst acc) in
              (c', first_error (snd acc) e)).
  assert (Hderived : forall ms acc,
             Forall (fun m => fst m ∈ ["CanSkipMethod"; "FilterNames";
                                       "FilterWrappers"]) ms ->
             Auth (fst (fold_left F ms acc)) = Auth (fst acc)
             /\ Filters (fst (fold_left F ms acc)) = Filters (fst acc)).
  { intros ms. induction ms as [|[k v] ms IH]; intros acc Hms; [done|].
    apply Forall_cons in Hms as [Hk Hms]. cbn [fold_left].
    destruct (IH (F acc (k, v)) Hms) as [-> ->]. unfold F. cbn [fst snd].
    pose proof (decode_field_derived k v (fst acc) Hk) as Hd.
    by destruct (decode_field k v (fst acc)). }
  cbv zeta. unfold decode_Consumer. fold F.
  rewrite !fold_left_app.
  match goal with
  | |- context [fold_left F [?a; ?b; ?d] ?acc] =>
      destruct (Hderived [a; b; d] acc) as [-> ->];
        [repeat constructor; set_solver|]
  end.
  destruct omit; cbn [fold_left]; unfold F; cbn [fst snd];
    rewrite ?decode_field_auth, ?decode_field_filters; cbv zeta;
    cbn [fst snd]; done.
Qed.

(** [Unmarshal] of what [Marshal] wrote decodes the document of the
    Consumer. *)
Lemma Unmarshal_Marshal_document c doc (receiver : Consumer) :
  encode_Consumer c = inr doc ->
  json.well_formed doc = true ->
  Unmarshal receiver (Marshal c) = decode_Consumer doc receiver.
Proof.
  intros Hdoc Hwf.
  unfold Unmarshal, Marshal, json_Marshal_Consumer, json_Unmarshal_Consumer.
  rewrite Hdoc. cbn [fmap error_fmap].
  unfold bytes_of_string, string_of_bytes.
  rewrite list_ascii_of_string_of_list_ascii.
  by rewrite JsonSpec.decode_encode.
Qed.

Lemma is_empty_false {V : Type} (m : option (gmap string V)) :
  is_empty m = false <-> exists m', m = Some m' /\ m' ≠ ∅.
Proof.
  destruct m as [m|]; cbn [is_empty].
  - rewrite Nat.eqb_neq, map_size_ne_0_lookup.
    split.
    + intros [k Hk]. exists m. split; [done|]. intros ->.
      rewrite lookup_empty in Hk. by destruct Hk.
    + intros (m' & [= <-] & Hne). by apply map_choose.
  - split; [done|]. by intros (m' & ? & _).
Qed.

(** C6 (as amended). For a Consumer whose [Filters] are nil or not empty,
    [Unmarshal] on the string of [Marshal], into a zero Consumer, gives
    back [Auth] and [Filters] as they were: provided [Marshal] did write
    the document (no filter configuration or wrapper that [encoding/json]
    rejects), the text of the document is valid UTF-8 with number literals
    of the JSON grammar, and every filter configuration reads back from
    its own document. *)
Theorem Unmarshal_Marshal c doc :
  encode_Consumer c = inr doc ->
  json.well_formed doc = true ->
  (forall k fc d,
     default ∅ (Filters c) !! k = Some (Some fc) ->
     encode_FilterConfig fc = inr d ->
     fst (decode_FilterConfig_pointer d) = Some fc) ->
  Filters c <> Some ∅ ->
  let c' := fst (Unmarshal (zero : Consumer) (Marshal c)) in
  Auth c' = Auth c /\ Filters c' = Filters c.
Proof.
  intros Hdoc Hwf Hread Hne. cbv zeta.
  rewrite (Unmarshal_Marshal_document c doc) by done.
  apply encode_Consumer_inv in Hdoc
    as (auth & filters & csm & fn & fw & Hauth & Hfilters & ->).
  destruct (decode_Consumer_zero auth filters csm fn fw (is_empty (Filters c)))
    as [-> ->].
  split.
  - destruct (Auth c) as [m|]; [|by injection Hauth as <-].
    apply (decode_encode_map encode_string); [done|].
    intros k x d _ [= <-]. done.
  - destruct (is_empty (Filters c)) eqn:Hempty.
    + destruct (Filters c) as [m|]; [|done].
      cbn [is_empty] in Hempty. apply Nat.eqb_eq, map_size_empty_iff in Hempty.
      by subst m.
    + apply is_empty_false in Hempty as (m & Hm & _). rewrite Hm in *.
      apply (decode_encode_map (encode_pointer encode_FilterConfig));
        [done|].
      intros k [fc|] d Hk Hd; [|by injection Hd as <-].
      by apply (Hread k).
Qed.

(** C1, on the code. [Marshal] writes the document of every exported field
    without a [json:"-"] tag: next to [auth] and [filters] it has the
    members [CanSkipMethod], [FilterNames] and [FilterWrappers], in every
    document it writes; of a zero Consumer they are all there is next to
    [auth], each [null]. *)
Theorem Marshal_writes_derived_fields c :
  match encode_Consumer c with
  | inr doc =>
      exists members,
        doc = json.Object members
        /\ members.*1
           = ["auth"] ++ (if is_empty (Filters c) then [] else ["filters"])
             ++ ["CanSkipMethod"; "FilterNames"; "FilterWrappers"]
  | inl _ => Marshal c = EmptyString
  end
  /\ Marshal (zero : Consumer)
     = json.text
         "{'auth':null,'CanSkipMethod':null,'FilterNames':null,'FilterWrappers':null}".
Proof.
  split; [|vm_compute; reflexivity].
  destruct (encode_Consumer c) as [err|doc] eqn:Hdoc.
  - unfold Marshal, json_Marshal_Consumer. by rewrite Hdoc.
  - apply encode_Consumer_inv in Hdoc as (a & f & csm & fn & fw & _ & _ & ->).
    eexists. split; [done|]. by destruct (is_empty (Filters c)).
Qed.

End Transport.

(** The Consumer of the scenario meets the hypotheses of
    [Unmarshal_Marshal]. *)
Lemma Unmarshal_Marshal_witness :
  let c' := fst (Unmarshal (zero : scenario.Consumer) (Marshal scenario.tenant)) in
  Auth c' = Auth scenario.tenant /\ Filters c' = Filters scenario.tenant.
Proof.
  eapply (Unmarshal_Marshal scenario.tenant).
  - vm_compute. reflexivity.
  - vm_compute. reflexivity.
  - intros k [blob] d Hk [= <-]. reflexivity.
  - discriminate.
Defined.

(** C6 as stated fails: [Auth] and [Filters] are empty maps, not nil; the
    string of [Marshal] has no [filters] member and [Unmarshal] leaves
    [Filters] nil. *)
Lemma hollow_Filters_read_back_nil :
  let c' := fst (Unmarshal (zero : scenario.Consumer) (Marshal scenario.hollow)) in
  Marshal scenario.hollow
  = json.text
      "{'auth':{},'CanSkipMethod':null,'FilterNames':null,'FilterWrappers':null}"
  /\ Auth scenario.hollow = Some ∅
  /\ Filters scenario.hollow = Some ∅
  /\ Auth c' = Some ∅
  /\ Filters c' = None.
Proof. vm_compute. repeat split. Qed.

(** Text that is no UTF-8 does not read back either: the byte [0xFF] is
    written as the escape of U+FFFD and read as the three bytes of that
    rune. *)
Lemma garbled_Auth_read_back_replaced :
  let c' := fst (Unmarshal (zero : scenario.Consumer) (Marshal scenario.garbled)) in
  default ∅ (Auth scenario.garbled) !! "key-auth"
  = Some (String (ascii_of_nat 255) EmptyString)
  /\ default ∅ (Auth c') !! "key-auth"
     = Some (string_of_bytes (utf8.EncodeRune 0xFFFD))
  /\ Filters c' = Filters scenario.garbled.
Proof. vm_compute. repeat split. Qed.

End TransportSpec.

(** ** The catalog over the life of a process *)

Module CatalogSpec.

Import plugins.

Section Catalog.

Context {Message FilterFactory Callbacks : Type}.

Local Abbreviation Plugin := (plugins.Plugin Message FilterFactory Callbacks).
Local Abbreviation state := (plugins.state Message FilterFactory Callbacks).
Local Abbreviation action := (plugins.action Message FilterFactory Callbacks).

Implicit Types (st : state) (name : string) (act : action)
  (acts : list action).

(** A call that does not store under [name] leaves the entry of [name]. *)
Lemma step_keeps_entry act st name :
  registers name act = false ->
  LoadHttpPlugin name (step act st) = LoadHttpPlugin name st.
Proof.
  destruct act as [n [p|]|a b]; cbn [registers step RegisterHttpPlugin].
  - intros Hne%String.eqb_neq. unfold LoadHttpPlugin, Store. cbn.
    by rewrite lookup_insert_ne.
  - done.
  - intros _. unfold ComparePluginOrder, Do, LoadHttpPlugin. cbn.
    by destruct (nameToOrderInit st).
Qed.

Lemma run_keeps_entry acts st name :
  forallb (fun act => negb (registers name act)) acts = true ->
  LoadHttpPlugin name (run acts st) = LoadHttpPlugin name st.
Proof.
  revert st. induction acts as [|act acts IH]; intros st; [done|].
  cbn [forallb]. intros [Hact%negb_true_iff Hacts]%andb_prop.
  unfold run in *. cbn [fold_left]. rewrite IH by done.
  by apply step_keeps_entry.
Qed.

Lemma run_app acts acts' st : run (acts ++ acts') st = run acts' (run acts st).
Proof. unfold run. apply fold_left_app. Qed.

(** X1. Over any sequence of registrations and comparisons, [LoadHttpPlugin]
    gives the plugin of the last registration made under the name, and
    what it gave before when no registration was made under it: later
    registrations under other names, registrations of a nil plugin (which
    panic) and comparisons do not touch the entry. *)
Theorem LoadHttpPlugin_last_registration st name acts :
  (forall before p after,
     acts = before ++ Register name (Some p) :: after ->
     forallb (fun act => negb (registers name act)) after = true ->
     LoadHttpPlugin name (run acts st) = Some p)
  /\ (forallb (fun act => negb (registers name act)) acts = true ->
      LoadHttpPlugin name (run acts st) = LoadHttpPlugin name st).
Proof.
  split; [|apply run_keeps_entry].
  intros before p after -> Hafter.
  rewrite run_app. change (Register name (Some p) :: after)
    with ([Register name (Some p)] ++ after).
  rewrite run_app, run_keeps_entry by done.
  unfold run, LoadHttpPlugin. cbn. by rewrite lookup_insert_eq.
Qed.



(** X3. The ordering rule.  Two plugins that are registered when the first
    comparison is made are compared by their declared orders: the lower
    [Position] first, at equal positions the lower [Operation], at equal
    orders the name that is less byte by byte. *)
Theorem ComparePluginOrder_rule st a b (pa pb : Plugin) :
  nameToOrderInit st = false ->
  LoadHttpPlugin a st = Some pa ->
  LoadHttpPlugin b st = Some pb ->
  fst (ComparePluginOrder a b st) = true
  <-> (Position (Order pa) < Position (Order pb)
       \/ Position (Order pa) = Position (Order pb)
          /\ (Operation (Order pa) < Operation (Order pb)
              \/ Operation (Order pa) = Operation (Order pb)
                 /\ String.ltb a b = true))%Z.
Proof.
  intros Hinit Ha Hb. rewrite PluginsSpec.ComparePluginOrder_result. cbv zeta.
  unfold order_of. rewrite !PluginsSpec.ComparePluginOrder_first by done.
  unfold LoadHttpPlugin in Ha, Hb. rewrite Ha, Hb. cbn [from_option id].
  unfold less.
  destruct (Z.eqb_spec (Position (Order pa)) (Position (Order pb))) as [Hp|Hp];
    cbn [negb].
  - destruct (Z.eqb_spec (Operation (Order pa)) (Operation (Order pb)))
      as [Ho|Ho]; cbn [negb].
    + split; [intros Hlt; right; split; [done|]; right; by split|].
      intros [?|[_ [?|[_ ?]]]]; [lia|lia|done].
    + rewrite Z.ltb_lt. split; [intros; right; split; [done|by left]|].
      intros [?|[_ [?|[? _]]]]; [lia|done|done].
  - rewrite Z.ltb_lt. split; [by left|]. intros [?|[? _]]; [done|done].
Qed.

(** X4. A name that has no plugin when the first comparison is made is
    compared as if its order were the zero value: among themselves such
    names go by their bytes, a plugin of positive [Position] comes after
    them and a plugin of negative [Position] before. *)
Theorem ComparePluginOrder_unregistered st a b :
  nameToOrderInit st = false ->
  nameToOrder st = ∅ ->
  LoadHttpPlugin a st = None ->
  (LoadHttpPlugin b st = None ->
   fst (ComparePluginOrder a b st) = String.ltb a b)
  /\ (forall pb : Plugin,
        LoadHttpPlugin b st = Some pb ->
        (0 < Position (Order pb))%Z ->
        fst (ComparePluginOrder a b st) = true
        /\ fst (ComparePluginOrder b a st) = false)
  /\ (forall pb : Plugin,
        LoadHttpPlugin b st = Some pb ->
        (Position (Order pb) < 0)%Z ->
        fst (ComparePluginOrder a b st) = false
        /\ fst (ComparePluginOrder b a st) = true).
Proof.
  intros Hinit Hempty Ha.
  assert (Horder : forall x y k,
             order_of k (snd (ComparePluginOrder x y st))
             = default zero_order (Order <$> LoadHttpPlugin k st)).
  { intros x y k. unfold order_of, LoadHttpPlugin.
    rewrite PluginsSpec.ComparePluginOrder_first by done.
    rewrite Hempty, lookup_empty. by destruct (httpPlugins st !! k). }
  rewrite !PluginsSpec.ComparePluginOrder_result. cbv zeta.
  split; [|split].
  - intros Hb. rewrite !Horder, Ha, Hb. done.
  - intros pb Hb Hpos. rewrite !Horder, Ha, Hb. cbn [fmap option_fmap option_map from_option id].
    unfold less. cbn [Position zero_order].
    destruct (Z.eqb_spec 0 (Position (Order pb))); [lia|].
    destruct (Z.eqb_spec (Position (Order pb)) 0); [lia|]. cbn [negb].
    split; [apply Z.ltb_lt|apply Z.ltb_ge]; lia.
  - intros pb Hb Hneg. rewrite !Horder, Ha, Hb. cbn [fmap option_fmap option_map from_option id].
    unfold less. cbn [Position zero_order].
    destruct (Z.eqb_spec 0 (Position (Order pb))); [lia|].
    destruct (Z.eqb_spec (Position (Order pb)) 0); [lia|]. cbn [negb].
    split; [apply Z.ltb_ge|apply Z.ltb_lt]; lia.
Qed.

End Catalog.

(** [LoadHttpPlugin_last_registration] in a process that registers
    ["basic-auth"] twice and goes on with other calls. *)
Lemma LoadHttpPlugin_last_registration_witness :
  LoadHttpPlugin "basic-auth"
    (run ([Register "basic-auth" (Some (scenario.plugin_at 10 0))]
          ++ Register "basic-auth" (Some (scenario.plugin_at 30 0))
          :: [Compare "basic-auth" "rate-limit";
              Register "basic-auth" None;
              Register "rate-limit" (Some (scenario.plugin_at 20 0))])
       initial)
  = Some (scenario.plugin_at 30 0).
Proof.
  eapply (proj1 (LoadHttpPlugin_last_registration initial "basic-auth" _));
    reflexivity.
Defined.


(** The two plugins of the scenario meet the hypotheses of
    [ComparePluginOrder_rule]. *)
Lemma ComparePluginOrder_rule_witness :
  fst (ComparePluginOrder "basic-auth" "rate-limit" scenario.catalog) = true.
Proof.
  apply (ComparePluginOrder_rule scenario.catalog "basic-auth" "rate-limit"
           (scenario.plugin_at 10 0) (scenario.plugin_at 20 0));
    [reflexivity..|].
  left. cbn. lia.
Defined.

(** No plugin of the scenario is named ["acl"] or ["cors"]. *)
Lemma ComparePluginOrder_unregistered_witness :
  fst (ComparePluginOrder "acl" "cors" scenario.catalog) = String.ltb "acl" "cors"
  /\ fst (ComparePluginOrder "acl" "rate-limit" scenario.catalog) = true
  /\ fst (ComparePluginOrder "rate-limit" "acl" scenario.catalog) = false.
Proof.
  destruct (ComparePluginOrder_unregistered scenario.catalog "acl" "cors")
    as (H1 & _ & _); [reflexivity..|].
  destruct (ComparePluginOrder_unregistered scenario.catalog "acl" "rate-limit")
    as (_ & H2 & _); [reflexivity..|].
  split; [by apply H1|].
  eapply H2; [reflexivity|cbn; lia].
Defined.

End CatalogSpec.

(** ** Resolution, entry by entry *)

Module ResolutionSpec.

Import plugins consumer.

Section Resolution.

Context {Message FilterFactory Callbacks FilterConfig FilterWrapper : Type}.
Context `{!Model FilterConfig FilterWrapper}.

Local Abbreviation Consumer :=
  (consumer.Consumer Message FilterFactory Callbacks FilterConfig FilterWrapper).
Local Abbreviation state := (plugins.state Message FilterFactory Callbacks).
Local Abbreviation ParsedFilterConfig :=
  (consumer.ParsedFilterConfig Message FilterFactory Callbacks).
Local Abbreviation PluginConsumerConfig :=
  (plugins.PluginConsumerConfig Message).

Implicit Types (st : state) (c : Consumer) (n : string) (e : error).

(** The entries a [range] visits, as a map again. *)
Lemma visits_list_to_map {V : Type} (order : list (string * V))
    (m : option (gmap string V)) :
  visits order m -> list_to_map order = default ∅ m.
Proof.
  unfold visits. intros Hperm.
  rewrite <- (list_to_map_to_list (default ∅ m)).
  apply list_to_map_proper; [|done].
  rewrite Hperm. apply NoDup_fst_map_to_list.
Qed.

(** *** The first loop *)

Lemma auth_loop_all st entries configs :
  (forall n data, (n, data) ∈ entries ->
                  exists conf, resolve_auth st n data = inr conf) ->
  snd (auth_loop st entries configs) = None.
Proof.
  revert configs. induction entries as [|[n data] rest IH]; intros configs Hall;
    [done|]. cbn [auth_loop].
  destruct (Hall n data ltac:(left)) as [conf ->].
  apply IH. intros n' data' Hin. apply Hall. by right.
Qed.

Lemma auth_loop_stored st entries configs n conf :
  fst (auth_loop st entries configs) !! n = Some conf ->
  configs !! n = Some conf
  \/ exists data, (n, data) ∈ entries /\ resolve_auth st n data = inr conf.
Proof.
  revert configs. induction entries as [|[n' data] rest IH]; intros configs;
    cbn [auth_loop]; [by left|].
  destruct (resolve_auth st n' data) as [err|conf'] eqn:Hr; cbn [fst];
    [by left|].
  intros [Hin|(data' & Hin & Hres)]%IH.
  - destruct (decide (n' = n)) as [->|Hne].
    + rewrite lookup_insert_eq in Hin. simplify_eq. right.
      exists data. split; [left|done].
    + rewrite lookup_insert_ne in Hin by done. by left.
  - right. exists data'. split; [by right|done].
Qed.

Lemma auth_loop_lookup st entries configs n :
  NoDup entries.*1 ->
  snd (auth_loop st entries configs) = None ->
  fst (auth_loop st entries configs) !! n
  = match (list_to_map entries : gmap string string) !! n with
    | Some data =>
        match resolve_auth st n data with
        | inr conf => Some conf
        | inl _ => None
        end
    | None => configs !! n
    end.
Proof.
  revert configs. induction entries as [|[n' data] rest IH]; intros configs Hnd;
    cbn [auth_loop]; [intros _; cbn [fst list_to_map foldr]; by rewrite lookup_empty|].
  apply NoDup_cons in Hnd as [Hn' Hnd].
  destruct (resolve_auth st n' data) as [err|conf] eqn:Hr; [done|].
  intros Hnone. rewrite IH by done. rewrite list_to_map_cons.
  destruct (decide (n' = n)) as [->|Hne].
  - rewrite (not_elem_of_list_to_map_1 _ n) by done.
    by rewrite !lookup_insert_eq, Hr.
  - by rewrite !lookup_insert_ne.
Qed.

(** *** The second loop *)

Lemma filters_loop_all st entries configs :
  (forall n data, (n, data) ∈ entries ->
                  exists parsed, resolve_filter st n data = Returned (inr parsed)) ->
  snd (filters_loop st entries configs) = Returned None.
Proof.
  revert configs. induction entries as [|[n data] rest IH]; intros configs Hall;
    [done|]. cbn [filters_loop].
  destruct (Hall n data ltac:(left)) as [parsed ->].
  apply IH. intros n' data' Hin. apply Hall. by right.
Qed.

Lemma filters_loop_lookup st entries configs n :
  NoDup entries.*1 ->
  snd (filters_loop st entries configs) = Returned None ->
  fst (filters_loop st entries configs) !! n
  = match (list_to_map entries : gmap string (option FilterConfig)) !! n with
    | Some data =>
        match resolve_filter st n data with
        | Returned (inr parsed) => Some parsed
        | _ => None
        end
    | None => configs !! n
    end.
Proof.
  revert configs. induction entries as [|[n' data] rest IH]; intros configs Hnd;
    cbn [filters_loop]; [intros _; cbn [fst list_to_map foldr]; by rewrite lookup_empty|].
  apply NoDup_cons in Hnd as [Hn' Hnd].
  destruct (resolve_filter st n' data) as [[err|parsed]|why] eqn:Hr;
    [done| |done].
  intros Hnone. rewrite IH by done. rewrite list_to_map_cons.
  destruct (decide (n' = n)) as [->|Hne].
  - rewrite (not_elem_of_list_to_map_1 _ n) by done.
    by rewrite !lookup_insert_eq, Hr.
  - by rewrite !lookup_insert_ne.
Qed.

(** The only panic of the second loop is the nil dereference. *)
Lemma filters_loop_panic_why st entries configs why :
  snd (filters_loop st entries configs) = Panicked why ->
  why = "invalid memory address or nil pointer dereference".
Proof.
  revert configs. induction entries as [|[n data] rest IH]; intros configs;
    cbn [filters_loop]; [done|].
  destruct (resolve_filter st n data) as [[err|parsed]|why'] eqn:Hr; cbn [snd].
  - done.
  - apply IH.
  - intros [= <-]. unfold resolve_filter in Hr.
    destruct (LoadHttpFilterFactoryAndParser n st); [|done].
    destruct data; [|by injection Hr]. by destruct (snd _).
Qed.

(** What an entry of the two loops resolves to. *)
Lemma resolve_auth_inv st n data conf :
  resolve_auth st n data = inr conf ->
  exists p conf0,
    LoadHttpPlugin n st = Some p
    /\ ConsumerConfig p = Some conf0
    /\ proto_UnmarshalJSON (bytes_of_string data) conf0 = inr conf
    /\ Validate conf = None.
Proof.
  unfold resolve_auth.
  destruct (LoadHttpPlugin n st) as [p|]; [|done]. cbn [mbind option_bind].
  destruct (ConsumerConfig p) as [conf0|] eqn:Hc; [|done].
  destruct (proto_UnmarshalJSON _ conf0) as [err|conf'] eqn:Hd; [done|].
  destruct (Validate conf') eqn:Hv; [done|].
  intros [= <-]. by exists p, conf0.
Qed.

Lemma resolve_filter_inv st n data parsed :
  resolve_filter st n data = Returned (inr parsed) ->
  exists p fc,
    LoadHttpFilterFactoryAndParser n st = Some p
    /\ data = Some fc
    /\ Name parsed = n
    /\ Factory parsed = plugins.Factory p
    /\ snd (Parse (ConfigParser p) (FilterConfig_Config fc) None)
       = inr (ParsedConfig parsed).
Proof.
  unfold resolve_filter.
  destruct (LoadHttpFilterFactoryAndParser n st) as [p|]; [|done].
  destruct data as [fc|]; [|done].
  destruct (snd (Parse _ _ _)) as [err|conf] eqn:Hp; [done|].
  intros [= <-]. by exists p, fc.
Qed.

(** X5. When [InitConfigs] returns nil, the two tables have the names of
    [Auth] and of [Filters], no more and no fewer.  [PluginConfig(name)]
    answers with the credential of the name, decoded into the consumer
    configuration of the plugin registered under it and validated; the entry
    of [FilterConfigs] under a name carries that name, the factory
    registered under it and what its parser made of the filter's [Config]. *)
Theorem InitConfigs_resolves st range_Auth range_Filters c :
  visits range_Auth (Auth c) ->
  visits range_Filters (Filters c) ->
  snd (InitConfigs st range_Auth range_Filters c) = Returned None ->
  let c' := fst (InitConfigs st range_Auth range_Filters c) in
  (forall n, is_Some (Consumer_PluginConfig n c')
             <-> is_Some (default ∅ (Auth c) !! n))
  /\ (forall n, is_Some (default ∅ (FilterConfigs c') !! n)
                <-> is_Some (default ∅ (Filters c) !! n))
  /\ (forall n conf,
        Consumer_PluginConfig n c' = Some conf ->
        exists p conf0 data,
          LoadHttpPlugin n st = Some p
          /\ ConsumerConfig p = Some conf0
          /\ default ∅ (Auth c) !! n = Some data
          /\ proto_UnmarshalJSON (bytes_of_string data) conf0 = inr conf
          /\ Validate conf = None)
  /\ (forall n parsed,
        default ∅ (FilterConfigs c') !! n = Some parsed ->
        exists p fc,
          LoadHttpFilterFactoryAndParser n st = Some p
          /\ default ∅ (Filters c) !! n = Some (Some fc)
          /\ Name parsed = n
          /\ Factory parsed = plugins.Factory p
          /\ snd (Parse (ConfigParser p) (FilterConfig_Config fc) None)
             = inr (ParsedConfig parsed)).
Proof.
  intros HA HF. unfold InitConfigs, Consumer_PluginConfig.
  destruct (auth_loop st range_Auth ∅) as [configs err] eqn:Hauth.
  assert (Herr : snd (auth_loop st range_Auth ∅) = err) by by rewrite Hauth.
  destruct err as [e|]; [done|].
  destruct (filters_loop st range_Filters ∅) as [fconfigs result] eqn:Hfl.
  assert (Hres : snd (filters_loop st range_Filters ∅) = result)
    by by rewrite Hfl.
  cbn [fst snd]. intros ->. cbn [ConsumerConfigs FilterConfigs set_FilterConfigs
    set_ConsumerConfigs default from_option id].
  assert (Hc : forall n,
             configs !! n
             = match default ∅ (Auth c) !! n with
               | Some data =>
                   match resolve_auth st n data with
                   | inr conf => Some conf
                   | inl _ => None
                   end
               | None => None
               end).
  { intros n.
    pose proof (auth_loop_lookup st range_Auth ∅ n
                  (ConsumerSpec.visits_NoDup _ _ HA) Herr) as Hl.
    rewrite Hauth in Hl. cbn [fst] in Hl.
    by rewrite Hl, (visits_list_to_map _ _ HA), lookup_empty. }
  assert (Hf : forall n,
             fconfigs !! n
             = match default ∅ (Filters c) !! n with
               | Some data =>
                   match resolve_filter st n data with
                   | Returned (inr parsed) => Some parsed
                   | _ => None
                   end
               | None => None
               end).
  { intros n.
    pose proof (filters_loop_lookup st range_Filters ∅ n
                  (ConsumerSpec.visits_NoDup _ _ HF) Hres) as Hl.
    rewrite Hfl in Hl. cbn [fst] in Hl.
    by rewrite Hl, (visits_list_to_map _ _ HF), lookup_empty. }
  split; [|split; [|split]].
  - intros n. rewrite Hc.
    destruct (default ∅ (Auth c) !! n) as [data|] eqn:Hd; [|done].
    apply (ConsumerSpec.visits_lookup _ _ _ _ HA) in Hd.
    destruct (ConsumerSpec.auth_loop_done _ _ _ Herr n data Hd) as [conf ->].
    split; eauto.
  - intros n. rewrite Hf.
    destruct (default ∅ (Filters c) !! n) as [data|] eqn:Hd; [|done].
    apply (ConsumerSpec.visits_lookup _ _ _ _ HF) in Hd.
    destruct (ConsumerSpec.filters_loop_done _ _ _ Hres n data Hd)
      as [parsed ->].
    split; eauto.
  - intros n conf. rewrite Hc.
    destruct (default ∅ (Auth c) !! n) as [data|]; [|done].
    destruct (resolve_auth st n data) as [|conf'] eqn:Hr; [done|].
    intros [= <-].
    apply resolve_auth_inv in Hr as (p & conf0 & ? & ? & ? & ?).
    by exists p, conf0, data.
  - intros n parsed. rewrite Hf.
    destruct (default ∅ (Filters c) !! n) as [data|]; [|done].
    destruct (resolve_filter st n data) as [[|parsed']|] eqn:Hr; [done| |done].
    intros [= <-].
    apply resolve_filter_inv in Hr as (p & fc & ? & -> & ? & ? & ?).
    by exists p, fc.
Qed.

(** X6. [InitConfigs] returns nil exactly when every entry resolves: each
    name of [Auth] has a plugin registered that is a consumer plugin, whose
    consumer configuration decodes the credential and validates, and each
    name of [Filters] has a factory and parser registered and a
    configuration that is not nil and that the parser accepts.  A Consumer
    with no credentials and no filters resolves in every catalog. *)
Theorem InitConfigs_succeeds_iff st range_Auth range_Filters c :
  visits range_Auth (Auth c) ->
  visits range_Filters (Filters c) ->
  snd (InitConfigs st range_Auth range_Filters c) = Returned None
  <-> (forall n data,
         default ∅ (Auth c) !! n = Some data ->
         exists p conf0 conf,
           LoadHttpPlugin n st = Some p
           /\ ConsumerConfig p = Some conf0
           /\ proto_UnmarshalJSON (bytes_of_string data) conf0 = inr conf
           /\ Validate conf = None)
      /\ (forall n data,
            default ∅ (Filters c) !! n = Some data ->
            exists p fc conf,
              LoadHttpFilterFactoryAndParser n st = Some p
              /\ data = Some fc
              /\ snd (Parse (ConfigParser p) (FilterConfig_Config fc) None)
                 = inr conf).
Proof.
  intros HA HF. split.
  - unfold InitConfigs.
    destruct (auth_loop st range_Auth ∅) as [configs err] eqn:Hauth.
    assert (Herr : snd (auth_loop st range_Auth ∅) = err) by by rewrite Hauth.
    destruct err as [e|]; [done|].
    destruct (filters_loop st range_Filters ∅) as [fconfigs result] eqn:Hfl.
    assert (Hres : snd (filters_loop st range_Filters ∅) = result)
      by by rewrite Hfl.
    cbn [snd]. intros ->. split.
    + intros n data Hd%(ConsumerSpec.visits_lookup _ _ _ _ HA).
      destruct (ConsumerSpec.auth_loop_done _ _ _ Herr n data Hd) as [conf Hr].
      apply resolve_auth_inv in Hr as (p & conf0 & ? & ? & ? & ?).
      by exists p, conf0, conf.
    + intros n data Hd%(ConsumerSpec.visits_lookup _ _ _ _ HF).
      destruct (ConsumerSpec.filters_loop_done _ _ _ Hres n data Hd)
        as [parsed Hr].
      apply resolve_filter_inv in Hr as (p & fc & ? & ? & ? & ? & ?).
      by exists p, fc, (ParsedConfig parsed).
  - intros [Hall_auth Hall_filters].
    assert (Herr : snd (auth_loop st range_Auth ∅) = None).
    { apply auth_loop_all. intros n data Hin.
      apply (ConsumerSpec.visits_lookup _ _ _ _ HA) in Hin.
      destruct (Hall_auth n data Hin) as (p & conf0 & conf & Hp & Hc & Hd & Hv).
      exists conf. unfold resolve_auth. rewrite Hp. cbn [mbind option_bind].
      by rewrite Hc, Hd, Hv. }
    assert (Hres : snd (filters_loop st range_Filters ∅) = Returned None).
    { apply filters_loop_all. intros n data Hin.
      apply (ConsumerSpec.visits_lookup _ _ _ _ HF) in Hin.
      destruct (Hall_filters n data Hin) as (p & fc & conf & Hp & -> & Hparse).
      eexists. unfold resolve_filter. by rewrite Hp, Hparse. }
    unfold InitConfigs.
    destruct (auth_loop st range_Auth ∅) as [configs err].
    cbn [snd] in Herr. subst err.
    destruct (filters_loop st range_Filters ∅) as [fconfigs result].
    cbn [snd] in Hres. by subst result.
Qed.


(** X8. A credential that does not resolve ends [InitConfigs] in the first
    loop, whatever [Filters] holds: the error is that of a credential,
    [FilterConfigs] is not written (it keeps what an earlier resolution
    left there), and [ConsumerConfigs] is the table of the credentials that
    resolved before the failing one was met, so [PluginConfig] answers nil
    for the failing name. *)
Theorem InitConfigs_credential_fails st range_Auth range_Filters c n data e0 :
  visits range_Auth (Auth c) ->
  default ∅ (Auth c) !! n = Some data ->
  resolve_auth st n data = inl e0 ->
  let (c', result) := InitConfigs st range_Auth range_Filters c in
  (exists m data' e,
     result = Returned (Some e)
     /\ default ∅ (Auth c) !! m = Some data'
     /\ resolve_auth st m data' = inl e)
  /\ FilterConfigs c' = FilterConfigs c
  /\ Consumer_PluginConfig n c' = None
  /\ (forall m conf,
        Consumer_PluginConfig m c' = Some conf ->
        exists data',
          default ∅ (Auth c) !! m = Some data'
          /\ resolve_auth st m data' = inr conf).
Proof.
  intros HA Hn Hfail. unfold InitConfigs, Consumer_PluginConfig.
  destruct (auth_loop st range_Auth ∅) as [configs err] eqn:Hauth.
  assert (Herr : snd (auth_loop st range_Auth ∅) = err) by by rewrite Hauth.
  assert (Hstored : forall m conf,
             configs !! m = Some conf ->
             exists data',
               default ∅ (Auth c) !! m = Some data'
               /\ resolve_auth st m data' = inr conf).
  { intros m conf Hm.
    assert (Hm' : fst (auth_loop st range_Auth ∅) !! m = Some conf)
      by by rewrite Hauth.
    apply auth_loop_stored in Hm' as [Hm'|(data' & Hin & Hr)];
      [by rewrite lookup_empty in Hm'|].
    exists data'. split; [|done].
    by apply (ConsumerSpec.visits_lookup _ _ _ _ HA). }
  destruct err as [e|].
  - cbn [ConsumerConfigs FilterConfigs set_ConsumerConfigs from_option id].
    split; [|split; [done|split; [|done]]].
    + apply ConsumerSpec.auth_loop_error in Herr as (m & data' & Hin & Hr).
      exists m, data', e. split; [done|]. split; [|done].
      by apply (ConsumerSpec.visits_lookup _ _ _ _ HA).
    + destruct (configs !! n) as [conf|] eqn:Hc; [|done].
      destruct (Hstored n conf Hc) as (data' & Hd & Hr). congruence.
  - apply (ConsumerSpec.visits_lookup _ _ _ _ HA) in Hn.
    destruct (ConsumerSpec.auth_loop_done _ _ _ Herr n data Hn) as [conf Hr].
    congruence.
Qed.

(** X9. A nil [*model.FilterConfig] under a registered name: when the
    credentials resolve, [InitConfigs] does not return nil, and unless
    another filter met before it fails with an error it panics on
    [data.Config]. *)
Theorem InitConfigs_nil_filter st range_Auth range_Filters c n :
  visits range_Auth (Auth c) ->
  visits range_Filters (Filters c) ->
  (forall m data, default ∅ (Auth c) !! m = Some data ->
                  exists conf, resolve_auth st m data = inr conf) ->
  default ∅ (Filters c) !! n = Some None ->
  is_Some (LoadHttpFilterFactoryAndParser n st) ->
  let result := snd (InitConfigs st range_Auth range_Filters c) in
  result <> Returned None
  /\ ((forall k data e, default ∅ (Filters c) !! k = Some data ->
                        resolve_filter st k data <> Returned (inl e)) ->
      result = Panicked "invalid memory address or nil pointer dereference").
Proof.
  intros HA HF Hauth Hn [p Hp]. unfold InitConfigs.
  assert (Herr : snd (auth_loop st range_Auth ∅) = None).
  { apply auth_loop_all. intros m data Hin. apply Hauth.
    by apply (ConsumerSpec.visits_lookup _ _ _ _ HA). }
  destruct (auth_loop st range_Auth ∅) as [configs err]. cbn [snd] in Herr.
  subst err.
  destruct (filters_loop st range_Filters ∅) as [fconfigs result] eqn:Hfl.
  assert (Hres : snd (filters_loop st range_Filters ∅) = result)
    by by rewrite Hfl.
  cbn [snd].
  assert (Hnot : result <> Returned None).
  { intros ->. apply (ConsumerSpec.visits_lookup _ _ _ _ HF) in Hn.
    destruct (ConsumerSpec.filters_loop_done _ _ _ Hres n None Hn)
      as [parsed Hr].
    unfold resolve_filter in Hr. by rewrite Hp in Hr. }
  split; [done|]. intros Hnoerr.
  destruct result as [[e|]|why]; [|done|].
  - apply ConsumerSpec.filters_loop_error in Hres as (k & data & Hin & Hr).
    apply (ConsumerSpec.visits_lookup _ _ _ _ HF) in Hin.
    by destruct (Hnoerr k data e Hin).
  - by rewrite (filters_loop_panic_why _ _ _ _ Hres).
Qed.


End Resolution.

(** In the catalog with ["key-auth"], the Consumer with a credential and
    the two filters of the scenario resolves. *)
Lemma InitConfigs_resolves_witness :
  let st := scenario.catalog_with_auth in
  let c := scenario.member in
  let c' :=
    fst (InitConfigs st (scenario.range (Auth c)) (scenario.range (Filters c)) c) in
  (forall n, is_Some (Consumer_PluginConfig n c')
             <-> is_Some (default ∅ (Auth c) !! n))
  /\ (forall n, is_Some (default ∅ (FilterConfigs c') !! n)
                <-> is_Some (default ∅ (Filters c) !! n))
  /\ (forall n conf,
        Consumer_PluginConfig n c' = Some conf ->
        exists p conf0 data,
          LoadHttpPlugin n st = Some p
          /\ ConsumerConfig p = Some conf0
          /\ default ∅ (Auth c) !! n = Some data
          /\ proto_UnmarshalJSON (bytes_of_string data) conf0 = inr conf
          /\ Validate conf = None)
  /\ (forall n parsed,
        default ∅ (FilterConfigs c') !! n = Some parsed ->
        exists p fc,
          LoadHttpFilterFactoryAndParser n st = Some p
          /\ default ∅ (Filters c) !! n = Some (Some fc)
          /\ Name parsed = n
          /\ Factory parsed = plugins.Factory p
          /\ snd (Parse (ConfigParser p) (FilterConfig_Config fc) None)
             = inr (ParsedConfig parsed)).
Proof.
  apply (InitConfigs_resolves scenario.catalog_with_auth
           (scenario.range (Auth scenario.member))
           (scenario.range (Filters scenario.member)) scenario.member).
  - unfold visits. reflexivity.
  - unfold visits. reflexivity.
  - vm_compute. reflexivity.
Defined.

(** The Consumer with a credential and the two filters of the scenario,
    in the catalog with ["key-auth"]: it resolves, and so every entry of
    its maps does. *)
Lemma InitConfigs_succeeds_iff_witness :
  let st := scenario.catalog_with_auth in
  let c := scenario.member in
  snd (InitConfigs st (scenario.range (Auth c)) (scenario.range (Filters c)) c)
  = Returned None
  /\ default ∅ (Auth c) !! "key-auth" = Some "{}"
  /\ default ∅ (Filters c) !! "rate-limit" = Some scenario.no_config
  /\ (forall n data,
        default ∅ (Auth c) !! n = Some data ->
        exists p conf0 conf,
          LoadHttpPlugin n st = Some p
          /\ ConsumerConfig p = Some conf0
          /\ proto_UnmarshalJSON (bytes_of_string data) conf0 = inr conf
          /\ Validate conf = None)
  /\ (forall n data,
        default ∅ (Filters c) !! n = Some data ->
        exists p fc conf,
          LoadHttpFilterFactoryAndParser n st = Some p
          /\ data = Some fc
          /\ snd (Parse (ConfigParser p) (FilterConfig_Config fc) None)
             = inr conf).
Proof.
  assert (Hok : snd (InitConfigs scenario.catalog_with_auth
                       (scenario.range (Auth scenario.member))
                       (scenario.range (Filters scenario.member))
                       scenario.member)
                = Returned None) by (vm_compute; reflexivity).
  split; [exact Hok|]. split; [vm_compute; reflexivity|].
  split; [vm_compute; reflexivity|].
  apply (InitConfigs_succeeds_iff scenario.catalog_with_auth
           (scenario.range (Auth scenario.member))
           (scenario.range (Filters scenario.member)) scenario.member).
  - unfold visits. reflexivity.
  - unfold visits. reflexivity.
  - exact Hok.
Defined.


(** The empty credential of ["key-auth"] does not decode. *)
Lemma InitConfigs_credential_fails_witness :
  let st := scenario.catalog_with_auth in
  let c := scenario.mistaken in
  let (c', result) :=
    InitConfigs st (scenario.range (Auth c)) (scenario.range (Filters c)) c in
  (exists m data' e,
     result = Returned (Some e)
     /\ default ∅ (Auth c) !! m = Some data'
     /\ resolve_auth st m data' = inl e)
  /\ FilterConfigs c' = FilterConfigs c
  /\ Consumer_PluginConfig "key-auth" c' = None
  /\ (forall m conf,
        Consumer_PluginConfig m c' = Some conf ->
        exists data',
          default ∅ (Auth c) !! m = Some data'
          /\ resolve_auth st m data' = inr conf).
Proof.
  eapply (InitConfigs_credential_fails scenario.catalog_with_auth
            (scenario.range (Auth scenario.mistaken))
            (scenario.range (Filters scenario.mistaken))
            scenario.mistaken "key-auth").
  - unfold visits. reflexivity.
  - vm_compute. reflexivity.
  - vm_compute. reflexivity.
Defined.

(** The Consumer read from [{"filters":{"basic-auth":null}}] panics in
    [InitConfigs]. *)
Lemma InitConfigs_nil_filter_witness :
  let c := scenario.dangling in
  let result :=
    snd (InitConfigs scenario.catalog (scenario.range (Auth c))
           (scenario.range (Filters c)) c) in
  default ∅ (Filters c) !! "basic-auth" = Some None
  /\ result = Panicked "invalid memory address or nil pointer dereference".
Proof.
  assert (Hnil : default ∅ (Filters scenario.dangling) !! "basic-auth"
                 = Some None) by (vm_compute; reflexivity).
  split; [exact Hnil|].
  apply (InitConfigs_nil_filter scenario.catalog
           (scenario.range (Auth scenario.dangling))
           (scenario.range (Filters scenario.dangling))
           scenario.dangling "basic-auth").
  - unfold visits. reflexivity.
  - unfold visits. reflexivity.
  - intros m data. vm_compute. discriminate.
  - exact Hnil.
  - vm_compute. eauto.
  - intros k data e Hk.
    assert (Hkey : k = "basic-auth" /\ data = None).
    { destruct (decide (k = "basic-auth")) as [->|Hne].
      - rewrite Hnil in Hk. by injection Hk as <-.
      - assert (Hmap : Filters scenario.dangling
                       = Some (<["basic-auth" := None]> ∅))
          by (vm_compute; reflexivity).
        rewrite Hmap in Hk. cbn [from_option id] in Hk.
        rewrite lookup_insert_ne in Hk by done.
        by rewrite lookup_empty in Hk. }
    destruct Hkey as [-> ->]. vm_compute. discriminate.
Defined.

End ResolutionSpec.

(** ** What [Unmarshal] does to its receiver *)

Module DecodingSpec.

Import plugins consumer.

Section Decoding.

Context {Message FilterFactory Callbacks FilterConfig FilterWrapper : Type}.
Context `{!Model FilterConfig FilterWrapper}.

Local Abbreviation Consumer :=
  (consumer.Consumer Message FilterFactory Callbacks FilterConfig FilterWrapper).

Implicit Types (c : Consumer) (doc v : json.value).

(** The step of the decoder on a member of the document. *)
Local Abbreviation member_step :=
  (fun (acc : Consumer * option error) (kv : string * json.value) =>
     let (c', e) := decode_field (fst kv) (snd kv) (fst acc) in
     (c', first_error (snd acc) e)).

(** [Unmarshal] of the text of a well-formed document decodes the
    document. *)
Lemma Unmarshal_text c doc :
  json.well_formed doc = true ->
  Unmarshal c (string_of_bytes (json.encode doc)) = decode_Consumer doc c.
Proof.
  intros Hwf. unfold Unmarshal, json_Unmarshal_Consumer.
  unfold bytes_of_string, string_of_bytes.
  rewrite list_ascii_of_string_of_list_ascii.
  by rewrite JsonSpec.decode_encode.
Qed.

(** No member of a document is stored to a field of the data plane. *)
Lemma decode_field_data_plane key v c :
  data_plane (fst (decode_field key v c)) = data_plane c.
Proof.
  unfold decode_field.
  destruct (json.field_of field_names key) as [f|]; [|done].
  destruct (String.eqb f "auth"); [by destruct (decode_map _ _ v (Auth c))|].
  destruct (String.eqb f "filters");
    [by destruct (decode_map _ _ v (Filters c))|].
  destruct (String.eqb f "CanSkipMethod");
    [by destruct (decode_map _ _ v (CanSkipMethod c))|].
  destruct (String.eqb f "FilterNames");
    [by destruct (decode_slice _ _ _ v (FilterNames c))|].
  by destruct (decode_slice _ _ _ v (FilterWrappers c)).
Qed.

Lemma decode_members_data_plane (members : list (string * json.value))
    (acc : Consumer * option error) :
  data_plane (fst (fold_left member_step members acc)) = data_plane (fst acc).
Proof.
  revert acc. induction members as [|[k v] members IH]; intros acc; [done|].
  cbn [fold_left]. rewrite IH. cbn [fst snd].
  pose proof (decode_field_data_plane k v (fst acc)) as Hd.
  by destruct (decode_field k v (fst acc)).
Qed.

(** X11. [Unmarshal] writes no field of the data plane, whatever the text:
    the name, the namespace and the generation stay, and so do the two
    tables of resolved configurations, so that [PluginConfig] goes on
    answering from the resolution made before the text was read. *)
Theorem Unmarshal_keeps_data_plane c (s : string) :
  let c' := fst (Unmarshal c s) in
  data_plane c' = data_plane c
  /\ Consumer_Name c' = Consumer_Name c
  /\ (forall n, Consumer_PluginConfig n c' = Consumer_PluginConfig n c).
Proof.
  assert (Hplane : data_plane (fst (Unmarshal c s)) = data_plane c).
  { unfold Unmarshal, json_Unmarshal_Consumer.
    destruct (json.decode (bytes_of_string s)) as [doc|]; [|done].
    unfold decode_Consumer. destruct doc; try done.
    apply decode_members_data_plane. }
  cbv zeta. split; [done|]. unfold data_plane in Hplane.
  injection Hplane as Hns Hname Hgen Hcc Hfc.
  split; [done|]. intros n. unfold Consumer_PluginConfig. by rewrite Hcc.
Qed.

(** X12. A Consumer that [json.Marshal] rejects: [Marshal] drops the error
    and returns the empty string, and [Unmarshal] of that string is a
    syntax error that leaves its receiver as it was. *)
Theorem Unmarshal_of_failed_Marshal c err :
  encode_Consumer c = inl err ->
  Marshal c = EmptyString
  /\ (forall receiver : Consumer,
        Unmarshal receiver (Marshal c) = (receiver, Some SyntaxError)).
Proof.
  intros Hfail.
  assert (Hempty : Marshal c = EmptyString).
  { unfold Marshal, json_Marshal_Consumer. by rewrite Hfail. }
  split; [done|]. intros receiver. by rewrite Hempty.
Qed.

(** *** The derived fields in the text *)

Lemma decode_field_CanSkipMethod v c :
  decode_field "CanSkipMethod" v c
  = let r := decode_map (fun v => decode_bool v false)
               "map[string]bool" v (CanSkipMethod c) in
    (set_CanSkipMethod (fst r) c, snd r).
Proof.
  unfold decode_field.
  change (json.field_of field_names "CanSkipMethod")
    with (Some "CanSkipMethod").
  cbv iota. change (String.eqb "CanSkipMethod" "auth") with false.
  change (String.eqb "CanSkipMethod" "filters") with false.
  change (String.eqb "CanSkipMethod" "CanSkipMethod") with true.
  cbv iota zeta. by destruct (decode_map _ _ v (CanSkipMethod c)).
Qed.

Lemma decode_field_FilterNames v c :
  decode_field "FilterNames" v c
  = let r := decode_slice decode_string EmptyString "[]string" v
               (FilterNames c) in
    (set_FilterNames (fst r) c, snd r).
Proof.
  unfold decode_field.
  change (json.field_of field_names "FilterNames") with (Some "FilterNames").
  cbv iota. change (String.eqb "FilterNames" "auth") with false.
  change (String.eqb "FilterNames" "filters") with false.
  change (String.eqb "FilterNames" "CanSkipMethod") with false.
  change (String.eqb "FilterNames" "FilterNames") with true.
  cbv iota zeta. by destruct (decode_slice _ _ _ v (FilterNames c)).
Qed.

Lemma decode_field_FilterWrappers v c :
  decode_field "FilterWrappers" v c
  = let r := decode_slice decode_FilterWrapper_pointer None
               "[]*model.FilterWrapper" v (FilterWrappers c) in
    (set_FilterWrappers (fst r) c, snd r).
Proof.
  unfold decode_field.
  change (json.field_of field_names "FilterWrappers")
    with (Some "FilterWrappers").
  cbv iota. change (String.eqb "FilterWrappers" "auth") with false.
  change (String.eqb "FilterWrappers" "filters") with false.
  change (String.eqb "FilterWrappers" "CanSkipMethod") with false.
  change (String.eqb "FilterWrappers" "FilterNames") with false.
  cbv iota zeta. by destruct (decode_slice _ _ _ v (FilterWrappers c)).
Qed.

(** The derived fields as they are read from the document [Marshal]
    writes, into a zero Consumer. *)
Lemma decode_Consumer_zero_derived
    auth filters canSkipMethod filterNames filterWrappers (omit : bool) :
  let c' :=
    fst (decode_Consumer
           (json.Object
              ([("auth", auth)] ++
               (if omit then [] else [("filters", filters)]) ++
               [("CanSkipMethod", canSkipMethod);
                ("FilterNames", filterNames);
                ("FilterWrappers", filterWrappers)]))
           (zero : Consumer)) in
  CanSkipMethod c'
  = fst (decode_map (fun v => decode_bool v false) "map[string]bool"
           canSkipMethod None)
  /\ FilterNames c'
     = fst (decode_slice decode_string EmptyString "[]string" filterNames None).
Proof.
  cbv zeta. unfold decode_Consumer.
  destruct omit; cbn [app fold_left fst snd];
    rewrite ?TransportSpec.decode_field_auth,
      ?TransportSpec.decode_field_filters;
    cbv zeta; cbn [fst snd];
    rewrite ?TransportSpec.decode_field_filters; cbv zeta; cbn [fst snd];
    rewrite decode_field_CanSkipMethod; cbv zeta; cbn [fst snd];
    rewrite decode_field_FilterNames; cbv zeta; cbn [fst snd];
    rewrite decode_field_FilterWrappers; cbv zeta; cbn [fst snd];
    done.
Qed.

Lemma encode_all_cons {A : Type} (enc : A -> error + json.value)
    (x : A) (r : list A) :
  encode_all enc (x :: r)
  = match enc x with
    | inl err => inl err
    | inr v =>
        match encode_all enc r with
        | inl err => inl err
        | inr vs => inr (v :: vs)
        end
    end.
Proof.
  cbn [encode_all]. destruct (enc x); [done|]. cbn.
  by destruct (encode_all enc r).
Qed.

(** A slice of strings is read back, element by element. *)
Lemma decode_encode_strings (l : list string) :
  forall vs old,
    encode_all encode_string l = inr vs ->
    fst (decode_elements decode_string EmptyString vs old) = l.
Proof.
  induction l as [|x r IH]; intros vs old Henc.
  - by injection Henc as <-.
  - rewrite encode_all_cons in Henc. cbn [encode_string] in Henc.
    destruct (encode_all encode_string r) as [err|vs'] eqn:Hr; [done|].
    injection Henc as <-. cbn [decode_elements decode_string].
    specialize (IH vs' (tl old) eq_refl).
    destruct (decode_elements decode_string EmptyString vs' (tl old)).
    cbn [fst] in *. by subst.
Qed.

(** What [encode_Consumer] puts together for the derived fields. *)
Lemma encode_Consumer_derived c doc :
  encode_Consumer c = inr doc ->
  exists auth filters canSkipMethod filterNames filterWrappers,
    encode_map encode_bool (CanSkipMethod c) = inr canSkipMethod
    /\ encode_slice encode_string (FilterNames c) = inr filterNames
    /\ doc = json.Object
               ([("auth", auth)] ++
                (if is_empty (Filters c) then [] else [("filters", filters)]) ++
                [("CanSkipMethod", canSkipMethod);
                 ("FilterNames", filterNames);
                 ("FilterWrappers", filterWrappers)]).
Proof.
  unfold encode_Consumer.
  destruct (encode_map encode_string (Auth c)) as [|auth]; [done|].
  destruct (encode_map _ (Filters c)) as [|filters]; [done|].
  destruct (encode_map encode_bool (CanSkipMethod c)) as [|csm]; [done|].
  destruct (encode_slice encode_string (FilterNames c)) as [|fn]; [done|].
  destruct (encode_slice _ (FilterWrappers c)) as [|fw]; [done|].
  intros [= <-]. by eexists _, _, _, _, _.
Qed.

(** X13. The derived fields that have a JSON form travel with the text:
    [Unmarshal], into a zero Consumer, of the string of [Marshal] gives back
    [CanSkipMethod] and [FilterNames] as [c] had them, nil, empty or
    filled.  They are not left for [InitConfigs] to recompute. *)
Theorem Unmarshal_Marshal_derived c doc :
  encode_Consumer c = inr doc ->
  json.well_formed doc = true ->
  let c' := fst (Unmarshal (zero : Consumer) (Marshal c)) in
  CanSkipMethod c' = CanSkipMethod c /\ FilterNames c' = FilterNames c.
Proof.
  intros Hdoc Hwf. cbv zeta.
  rewrite (TransportSpec.Unmarshal_Marshal_document c doc) by done.
  apply encode_Consumer_derived in Hdoc
    as (auth & filters & csm & fn & fw & Hcsm & Hfn & ->).
  destruct (decode_Consumer_zero_derived auth filters csm fn fw
              (is_empty (Filters c))) as [-> ->].
  split.
  - destruct (CanSkipMethod c) as [m|]; [|by injection Hcsm as <-].
    apply (TransportSpec.decode_encode_map encode_bool); [done|].
    intros k x d _ [= <-]. done.
  - destruct (FilterNames c) as [l|]; [|by injection Hfn as <-].
    cbn [encode_slice] in Hfn.
    destruct (encode_all encode_string l) as [err|vs] eqn:Hvs; [done|].
    injection Hfn as <-. cbn [decode_slice default from_option id].
    pose proof (decode_encode_strings l vs [] Hvs) as Hl.
    destruct (decode_elements decode_string EmptyString vs []).
    cbn [fst] in *. by subst.
Qed.

(** *** Texts that were not written by [Marshal] *)

(** Once an error is saved, the members that follow are decoded as they
    would be without it and the error stays. *)
Lemma decode_members_saved (members : list (string * json.value)) c err :
  fold_left member_step members (c, Some err)
  = (fst (fold_left member_step members (c, None)), Some err).
Proof.
  revert c err. induction members as [|[k v] members IH]; intros c err;
    [done|].
  cbn [fold_left fst snd].
  destruct (decode_field k v c) as [c' [e|]]; cbn [first_error].
  - by rewrite (IH c' err), (IH c' e).
  - by rewrite IH.
Qed.

(** Members under keys that name no field change nothing. *)
Lemma decode_members_unknown (members : list (string * json.value))
    (acc : Consumer * option error) :
  Forall (fun m => json.field_of field_names (fst m) = None) members ->
  fold_left member_step members acc = acc.
Proof.
  revert acc. induction members as [|[k v] members IH]; intros acc Hall;
    [done|].
  apply Forall_cons in Hall as [Hk Hall]. cbn [fold_left fst snd] in *.
  unfold decode_field. rewrite Hk. rewrite IH by done.
  destruct acc as [c0 [e|]]; done.
Qed.

(** X14. Keys of the text that name no field of the struct are passed
    over: a document with such keys only, the names of the unexported
    fields among them, leaves the receiver as it was, without an error. *)
Theorem Unmarshal_ignores_unknown_keys c
    (members : list (string * json.value)) :
  json.well_formed (json.Object members) = true ->
  Forall (fun m => json.field_of field_names (fst m) = None) members ->
  Unmarshal c (string_of_bytes (json.encode (json.Object members)))
  = (c, None).
Proof.
  intros Hwf Hunknown. rewrite Unmarshal_text by done.
  unfold decode_Consumer. by apply decode_members_unknown.
Qed.

Lemma set_Auth_same c : set_Auth (Auth c) c = c.
Proof. by destruct c. Qed.

(** X15. A value of the wrong kind under ["auth"] (a string, a number, a
    boolean or an array) is an error that does not stop the decoder: [Auth]
    is left alone, the other members are decoded into the receiver as they
    would be without that member, and the error returned is the one of
    ["auth"], whatever the members after it bring. *)
Theorem Unmarshal_wrong_kind_goes_on c v
    (rest : list (string * json.value)) :
  json.well_formed (json.Object (("auth", v) :: rest)) = true ->
  v <> json.Null ->
  (forall members, v <> json.Object members) ->
  Unmarshal c
    (string_of_bytes (json.encode (json.Object (("auth", v) :: rest))))
  = (fst (decode_Consumer (json.Object rest) c),
     Some (UnmarshalTypeError "map[string]string")).
Proof.
  intros Hwf Hnull Hobject. rewrite Unmarshal_text by done.
  unfold decode_Consumer. cbn [fold_left fst snd].
  rewrite TransportSpec.decode_field_auth. cbv zeta.
  assert (Hauth : decode_map (fun v => decode_string v EmptyString)
                    "map[string]string" v (Auth c)
                  = (Auth c, Some (UnmarshalTypeError "map[string]string"))).
  { destruct v; try done. by destruct (Hobject members). }
  rewrite Hauth. cbn [fst snd first_error]. rewrite set_Auth_same.
  apply decode_members_saved.
Qed.

(** The entries of an object of strings, stored one after the other. *)
Lemma decode_map_strings (members : list (string * string))
    (old : option (gmap string string)) :
  decode_map (fun v => decode_string v EmptyString) "map[string]string"
    (json.Object (prod_map id json.Str <$> members)) old
  = (Some (fold_left (fun m kv => <[fst kv := snd kv]> m) members
             (default ∅ old)),
     None).
Proof.
  cbn [decode_map]. generalize (default ∅ old). clear old.
  intros acc.
  assert (Hfold : forall (l : list (string * string)) (acc : gmap string string),
             fold_left
               (fun (acc : gmap string string * option error)
                    (kv : string * json.value) =>
                  let (x, e) := decode_string (snd kv) EmptyString in
                  (<[fst kv := x]> (fst acc), first_error (snd acc) e))
               (prod_map id json.Str <$> l) (acc, None)
             = (fold_left (fun m kv => <[fst kv := snd kv]> m) l acc, None)).
  { induction l as [|[k x] l IH]; intros acc'; [done|].
    cbn [fmap list_fmap fold_left prod_map fst snd decode_string first_error id].
    apply IH. }
  by rewrite Hfold.
Qed.

Lemma fold_left_insert_other (members : list (string * string))
    (acc : gmap string string) (k : string) :
  k ∉ members.*1 ->
  fold_left (fun m kv => <[fst kv := snd kv]> m) members acc !! k = acc !! k.
Proof.
  revert acc. induction members as [|[k' x] members IH]; intros acc Hk; [done|].
  cbn [fold_left fst snd]. rewrite fmap_cons in Hk. cbn [fst] in Hk.
  apply not_elem_of_cons in Hk as [Hne Hk].
  rewrite IH by done. by rewrite lookup_insert_ne.
Qed.

(** X16. [Unmarshal] fills the map its receiver has: the credentials of
    the text are stored over those of [Auth], a later one over an earlier
    one of the same name, and the credentials the text does not name stay
    where they were. *)
Theorem Unmarshal_merges_Auth c (members : list (string * string)) :
  let doc := json.Object [("auth", json.Object (prod_map id json.Str <$> members))] in
  json.well_formed doc = true ->
  Unmarshal c (string_of_bytes (json.encode doc))
  = (set_Auth
       (Some (fold_left (fun m kv => <[fst kv := snd kv]> m) members
                (default ∅ (Auth c))))
       c,
     None)
  /\ (forall k,
        k ∉ members.*1 ->
        default ∅ (Auth (fst (Unmarshal c (string_of_bytes (json.encode doc)))))
          !! k
        = default ∅ (Auth c) !! k).
Proof.
  intros doc Hwf.
  assert (Hresult :
            Unmarshal c (string_of_bytes (json.encode doc))
            = (set_Auth
                 (Some (fold_left (fun m kv => <[fst kv := snd kv]> m) members
                          (default ∅ (Auth c))))
                 c,
               None)).
  { rewrite Unmarshal_text by done. unfold doc, decode_Consumer.
    cbn [fold_left fst snd]. rewrite TransportSpec.decode_field_auth.
    cbv zeta. by rewrite decode_map_strings. }
  split; [done|]. intros k Hk. rewrite Hresult.
  cbn [fst Auth set_Auth from_option id]. by apply fold_left_insert_other.
Qed.

End Decoding.

(** The Consumer whose filter holds a channel is one [json.Marshal]
    rejects. *)
Lemma Unmarshal_of_failed_Marshal_witness :
  let Marshal := @Marshal unit unit unit unit string scenario.unwritable in
  let Unmarshal := @Unmarshal unit unit unit unit string scenario.unwritable in
  Marshal scenario.sealed = EmptyString
  /\ Unmarshal scenario.sealed (Marshal scenario.sealed)
     = (scenario.sealed, Some SyntaxError).
Proof.
  destruct (@Unmarshal_of_failed_Marshal unit unit unit unit string
              scenario.unwritable scenario.sealed
              (errors_New "json: unsupported type: chan int"))
    as [Hempty Hsyntax]; [vm_compute; reflexivity|].
  split; [exact Hempty|apply Hsyntax].
Defined.

(** The resolved Consumer of the scenario is written and read with its
    derived fields. *)
Lemma Unmarshal_Marshal_derived_witness :
  let c' :=
    fst (Unmarshal (zero : scenario.Consumer) (Marshal scenario.resolved)) in
  CanSkipMethod c' = CanSkipMethod scenario.resolved
  /\ FilterNames c' = Some ["basic-auth"; "rate-limit"].
Proof.
  eapply (Unmarshal_Marshal_derived scenario.resolved).
  - vm_compute. reflexivity.
  - vm_compute. reflexivity.
Defined.

(** A text that names the unexported fields changes nothing. *)
Lemma Unmarshal_ignores_unknown_keys_witness :
  Unmarshal scenario.tenant
    (string_of_bytes
       (json.encode
          (json.Object
             [("name", json.Str "alice"); ("namespace", json.Str "default");
              ("generation", json.Number "3")])))
  = (scenario.tenant, None).
Proof.
  apply (Unmarshal_ignores_unknown_keys scenario.tenant).
  - vm_compute. reflexivity.
  - repeat constructor.
Defined.

(** A string under ["auth"], before the filter names. *)
Lemma Unmarshal_wrong_kind_goes_on_witness :
  Unmarshal scenario.tenant
    (string_of_bytes
       (json.encode
          (json.Object
             [("auth", json.Str "oops");
              ("FilterNames", json.Array [json.Str "basic-auth"])])))
  = (fst (decode_Consumer
            (json.Object [("FilterNames", json.Array [json.Str "basic-auth"])])
            scenario.tenant),
     Some (UnmarshalTypeError "map[string]string")).
Proof.
  apply (Unmarshal_wrong_kind_goes_on scenario.tenant (json.Str "oops")).
  - vm_compute. reflexivity.
  - discriminate.
  - discriminate.
Defined.

(** A second credential read into the Consumer that has one. *)
Lemma Unmarshal_merges_Auth_witness :
  let doc :=
    json.Object [("auth", json.Object [("hmac-auth", json.Str "k")])] in
  let c' :=
    fst (Unmarshal scenario.member (string_of_bytes (json.encode doc))) in
  default ∅ (Auth c') !! "hmac-auth" = Some "k"
  /\ default ∅ (Auth c') !! "key-auth" = Some "{}".
Proof.
  destruct (Unmarshal_merges_Auth scenario.member [("hmac-auth", "k")])
    as [Hresult Hkept]; [vm_compute; reflexivity|].
  split.
  - cbn [fmap list_fmap prod_map id fst snd] in Hresult. rewrite Hresult.
    reflexivity.
  - cbn [fmap list_fmap prod_map id fst snd] in Hkept. rewrite Hkept.
    + reflexivity.
    + cbn [fmap list_fmap fst]. by intros [=]%list_elem_of_singleton.
Defined.

End DecodingSpec.

(** ** A text without filters, read into a Consumer that has some *)

Module ReuseSpec.

Import plugins consumer.

Section Reuse.

Context {Message FilterFactory Callbacks FilterConfig FilterWrapper : Type}.
Context `{!Model FilterConfig FilterWrapper}.

Local Abbreviation Consumer :=
  (consumer.Consumer Message FilterFactory Callbacks FilterConfig FilterWrapper).

Implicit Types (c receiver : Consumer) (doc v : json.value).

(** The members [Marshal] writes beside ["filters"] are not stored to
    [Filters]. *)
Lemma decode_members_keep_Filters (members : list (string * json.value))
    (acc : Consumer * option error) :
  Forall (fun m => fst m ∈ ["auth"; "CanSkipMethod"; "FilterNames";
                            "FilterWrappers"]) members ->
  Filters
    (fst (fold_left
            (fun (acc : Consumer * option error) (kv : string * json.value) =>
               let (c', e) := decode_field (fst kv) (snd kv) (fst acc) in
               (c', first_error (snd acc) e))
            members acc))
  = Filters (fst acc).
Proof.
  revert acc. induction members as [|[k v] members IH]; intros acc Hall;
    [done|].
  apply Forall_cons in Hall as [Hk Hall]. cbn [fold_left fst snd] in *.
  rewrite IH by done. cbn [fst].
  apply elem_of_cons in Hk as [->|Hk].
  - rewrite TransportSpec.decode_field_auth. cbv zeta.
    by destruct (decode_map _ _ v (Auth (fst acc))).
  - pose proof (TransportSpec.decode_field_derived k v (fst acc) Hk) as [_ Hf].
    by destruct (decode_field k v (fst acc)).
Qed.

(** X17. A Consumer whose [Filters] are nil or empty is written without a
    ["filters"] member, and [Unmarshal] of that text does not touch the
    [Filters] of its receiver: read into a Consumer that has filters, the
    text of a Consumer without filters leaves the old filters in place. *)
Theorem Unmarshal_keeps_old_Filters c doc receiver :
  encode_Consumer c = inr doc ->
  json.well_formed doc = true ->
  is_empty (Filters c) = true ->
  Filters (fst (Unmarshal receiver (Marshal c))) = Filters receiver.
Proof.
  intros Hdoc Hwf Hempty.
  rewrite (TransportSpec.Unmarshal_Marshal_document c doc) by done.
  apply TransportSpec.encode_Consumer_inv in Hdoc
    as (auth & filters & csm & fn & fw & _ & _ & ->).
  rewrite Hempty. unfold decode_Consumer.
  rewrite decode_members_keep_Filters; [done|].
  repeat constructor; set_solver.
Qed.

End Reuse.

(** The Consumer with empty maps, read into the Consumer of the scenario. *)
Lemma Unmarshal_keeps_old_Filters_witness :
  Filters (fst (Unmarshal scenario.tenant (Marshal scenario.hollow)))
  = Filters scenario.tenant.
Proof.
  eapply (Unmarshal_keeps_old_Filters scenario.hollow).
  - vm_compute. reflexivity.
  - vm_compute. reflexivity.
  - reflexivity.
Defined.

End ReuseSpec.

(** ** The text of [Marshal] is canonical in its maps *)

Module CanonicalSpec.

Import plugins consumer.

Section Canonical.

Context {Message FilterFactory Callbacks FilterConfig FilterWrapper : Type}.
Context `{!Model FilterConfig FilterWrapper}.

Local Abbreviation Consumer :=
  (consumer.Consumer Message FilterFactory Callbacks FilterConfig FilterWrapper).

(** Keys in ascending order, byte by byte, none twice. *)
Local Abbreviation ascending :=
  (StronglySorted (fun a b : string => String.ltb a b = true)).

Lemma insert_key_ascending {V : Type} (kv : string * V)
    (l : list (string * V)) :
  fst kv ∉ l.*1 -> ascending l.*1 -> ascending (insert_key kv l).*1.
Proof.
  induction l as [|x r IH]; intros Hnew Hsorted.
  - cbn. repeat constructor.
  - rewrite fmap_cons in Hnew, Hsorted.
    apply not_elem_of_cons in Hnew as [Hne Hnew].
    apply StronglySorted_inv in Hsorted as [Hr Hx].
    cbn [insert_key]. destruct (String.ltb (fst kv) (fst x)) eqn:Hlt.
    + rewrite !fmap_cons. constructor; [by constructor|].
      constructor; [done|].
      eapply Forall_impl; [exact Hx|]. intros k Hk. cbn beta in *.
      by eapply ltb_trans.
    + rewrite fmap_cons. constructor; [by apply IH|].
      assert (Hperm : (insert_key kv r).*1 ≡ₚ fst kv :: r.*1)
        by (by rewrite TransportSpec.insert_key_perm).
      rewrite Hperm. constructor; [|done].
      rewrite ltb_connex in Hlt by done. by apply negb_false_iff in Hlt.
Qed.

Lemma sorted_entries_ascending {V : Type} (m : gmap string V) :
  ascending (sorted_entries m).*1.
Proof.
  unfold sorted_entries.
  pose proof (NoDup_fst_map_to_list m) as Hnd.
  induction (map_to_list m) as [|kv l IH]; [constructor|].
  rewrite fmap_cons in Hnd. apply NoDup_cons in Hnd as [Hnew Hnd].
  cbn [foldr]. apply insert_key_ascending; [|by apply IH].
  assert (Hperm : (foldr insert_key [] l).*1 ≡ₚ l.*1).
  { clear. induction l as [|x l IH]; [done|].
    cbn [foldr]. rewrite TransportSpec.insert_key_perm, !fmap_cons.
    by rewrite IH. }
  by rewrite Hperm.
Qed.

Lemma encode_entries_keys {V : Type} (enc : V -> error + json.value)
    (l : list (string * V)) (members : list (string * json.value)) :
  encode_entries enc l = inr members -> members.*1 = l.*1.
Proof.
  revert members. induction l as [|[k x] r IH]; intros members.
  - by intros [= <-].
  - rewrite TransportSpec.encode_entries_cons.
    destruct (enc x) as [|v]; [done|].
    destruct (encode_entries enc r) as [|ms]; [done|].
    intros [= <-]. rewrite !fmap_cons. cbn [fst]. f_equal. by apply IH.
Qed.

(** A map is written as an object whose keys are those of the map, in
    ascending order. *)
Lemma encode_map_ascending {V : Type} (enc : V -> error + json.value)
    (m : gmap string V) (v : json.value) :
  encode_map enc (Some m) = inr v ->
  exists members,
    v = json.Object members
    /\ ascending members.*1
    /\ (forall k, k ∈ members.*1 <-> is_Some (m !! k)).
Proof.
  cbn [encode_map].
  destruct (encode_entries enc (sorted_entries m)) as [|members] eqn:Hms;
    [done|].
  intros [= <-]. exists members. split; [done|].
  rewrite (encode_entries_keys _ _ _ Hms).
  split; [apply sorted_entries_ascending|].
  intros k. rewrite TransportSpec.sorted_entries_perm.
  rewrite list_elem_of_fmap. split.
  - intros [[k' x] [-> Hin%elem_of_map_to_list]]. eauto.
  - intros [x Hx]. exists (k, x). split; [done|].
    by apply elem_of_map_to_list.
Qed.

(** X18. The text is canonical in its maps: [Marshal] writes the
    credentials under ["auth"] and the filters under ["filters"] as objects
    that have the names of the map for keys, each once and in ascending
    order byte by byte, however the map was filled. *)
Theorem Marshal_ascending_keys (c : Consumer) (doc : json.value) :
  encode_Consumer c = inr doc ->
  (forall m,
     Auth c = Some m ->
     exists members rest,
       doc = json.Object (("auth", json.Object members) :: rest)
       /\ ascending members.*1
       /\ (forall k, k ∈ members.*1 <-> is_Some (m !! k)))
  /\ (forall m,
        Filters c = Some m ->
        m ≠ ∅ ->
        exists auth members rest,
          doc = json.Object
                  (("auth", auth) :: ("filters", json.Object members) :: rest)
          /\ ascending members.*1
          /\ (forall k, k ∈ members.*1 <-> is_Some (m !! k))).
Proof.
  intros Hdoc.
  apply TransportSpec.encode_Consumer_inv in Hdoc
    as (auth & filters & csm & fn & fw & Hauth & Hfilters & ->).
  split.
  - intros m Hm. rewrite Hm in Hauth.
    apply encode_map_ascending in Hauth as (members & -> & Hsorted & Hkeys).
    by eexists members, _.
  - intros m Hm Hne. rewrite Hm in Hfilters.
    apply encode_map_ascending in Hfilters as (members & -> & Hsorted & Hkeys).
    assert (Hfull : is_empty (Filters c) = false).
    { apply TransportSpec.is_empty_false. by exists m. }
    rewrite Hfull. by eexists auth, members, _.
Qed.

End Canonical.

(** The two filters of the scenario, written in the order of their names. *)
Lemma Marshal_ascending_keys_witness :
  exists auth members rest,
    encode_Consumer scenario.member
    = inr (json.Object
             (("auth", auth) :: ("filters", json.Object members) :: rest))
    /\ members.*1 = ["basic-auth"; "rate-limit"].
Proof.
  destruct (encode_Consumer scenario.member) as [err|doc] eqn:Hdoc;
    [by vm_compute in Hdoc|].
  destruct (Marshal_ascending_keys scenario.member doc Hdoc) as [_ Hfilters].
  destruct (Hfilters (<["rate-limit" := scenario.no_config]>
                        (<["basic-auth" := scenario.no_config]> ∅)))
    as (auth & members & rest & -> & _ & _); [reflexivity| |].
  - intros Hempty. apply (f_equal (fun m => m !! "rate-limit")) in Hempty.
    by rewrite lookup_insert_eq, lookup_empty in Hempty.
  - exists auth, members, rest. split; [done|].
    vm_compute in Hdoc. by injection Hdoc as _ <- _.
Defined.

End CanonicalSpec.

(** ** Registries: protocols, factories and configurations *)

Module RegistryLifeSpec.

Import registry.

Section Protocols.

Variable unicode_ToLower : string -> string.

Local Abbreviation ParseProtocol := (registry.ParseProtocol unicode_ToLower).

(** X19. [ParseProtocol] returns one of the eight protocol constants, and
    each of them parses to itself: a protocol that was parsed, kept as a
    string and parsed again is the same protocol, [Unsupported] included. *)
Theorem ParseProtocol_again (s : string) :
  ParseProtocol s ∈ [HTTP; HTTPS; GRPC; HTTP2; MONGO; TCP; TLS; Unsupported]
  /\ ParseProtocol (ParseProtocol s) = ParseProtocol s.
Proof.
  rewrite (RegistrySpec.ParseProtocol_lower unicode_ToLower s). cbv zeta.
  repeat case_decide; (split; [set_solver|vm_compute; reflexivity]).
Qed.

End Protocols.

Section Factories.

Context {ServiceEntryStore ObjectMeta Registry : Type}.

Local Abbreviation RegistryFactory :=
  (registry.RegistryFactory ServiceEntryStore ObjectMeta Registry).

Implicit Types (adds : list (string * RegistryFactory))
  (table : gmap string RegistryFactory).

(** The table after a sequence of [AddRegistryFactory] calls. *)
Local Abbreviation added adds table :=
  (fold_left (fun t add => AddRegistryFactory (fst add) (snd add) t) adds table).

Lemma added_other adds table name :
  name ∉ adds.*1 -> added adds table !! name = table !! name.
Proof.
  revert table. induction adds as [|[n f] adds IH]; intros table Hname; [done|].
  rewrite fmap_cons in Hname. cbn [fst] in Hname.
  apply not_elem_of_cons in Hname as [Hne Hname].
  cbn [fold_left fst snd]. rewrite IH by done.
  unfold AddRegistryFactory. by rewrite lookup_insert_ne.
Qed.

(** X20. After any sequence of [AddRegistryFactory] calls, [CreateRegistry]
    calls the factory that was added last under the name, whatever was
    added under other names before or after, and for a name that was
    never added it answers "unknown registry" and calls none. *)
Theorem CreateRegistry_last_added (name : string) (store : ServiceEntryStore)
    (om : ObjectMeta) adds :
  (forall before factory after,
     adds = before ++ (name, factory) :: after ->
     name ∉ after.*1 ->
     CreateRegistry name store om (added adds ∅)
     = ([{| factory_name := name; with_store := store; with_meta := om |}],
        factory store om))
  /\ (name ∉ adds.*1 ->
      CreateRegistry name store om (added adds ∅)
      = ([], (None, Some (fmt_Errorf "unknown registry %s" name)))).
Proof.
  split.
  - intros before factory after -> Hafter. unfold CreateRegistry.
    rewrite fold_left_app. cbn [fold_left fst snd].
    rewrite added_other by done. unfold AddRegistryFactory at 1.
    by rewrite lookup_insert_eq.
  - intros Hname. unfold CreateRegistry.
    rewrite added_other by done. by rewrite lookup_empty.
Qed.

End Factories.

(** Two factories added under ["nacos"], another name in between and
    after. *)
Lemma CreateRegistry_last_added_witness :
  let old : registry.RegistryFactory unit unit nat := fun _ _ => (Some 1, None) in
  let new : registry.RegistryFactory unit unit nat := fun _ _ => (Some 2, None) in
  let table :=
    fold_left (fun t add => AddRegistryFactory (fst add) (snd add) t)
      ([("nacos", old); ("consul", old)]
       ++ ("nacos", new) :: [("consul", new)]) ∅ in
  snd (CreateRegistry "nacos" tt tt table) = (Some 2, None).
Proof.
  intros old new table.
  pose proof (proj1 (CreateRegistry_last_added "nacos" tt tt _)
                [("nacos", old); ("consul", old)] new [("consul", new)]
                eq_refl) as Hlast.
  fold table in Hlast. rewrite Hlast; [reflexivity|].
  cbn [fmap list_fmap fst]. by intros [=]%list_elem_of_singleton.
Defined.

Section Configurations.

Context {Message Registry : Type}.

Variable Config : Registry -> RegistryConfig Message.

Local Abbreviation ParseConfig := (registry.ParseConfig Config).

(** X21. [ParseConfig] returns a configuration or an error, never both and
    never neither.  A configuration it returns is the one of the registry
    with the data decoded into it, and [Validate] accepted it; the error it
    returns is the one of the decoding, or else the one of [Validate].
    [Validate] is called on the decoded configuration only, once, and not
    at all when the decoding fails. *)
Theorem ParseConfig_validated (reg : Registry) (data : bytes) :
  let (calls, result) := ParseConfig reg data in
  (forall conf,
     fst result = Some conf ->
     snd result = None
     /\ proto_UnmarshalJSON data (Config reg) = inr conf
     /\ Validate conf = None)
  /\ (fst result = None ->
      exists err,
        snd result = Some err
        /\ (proto_UnmarshalJSON data (Config reg) = inl err
            \/ exists conf,
                 proto_UnmarshalJSON data (Config reg) = inr conf
                 /\ Validate conf = Some err))
  /\ List.filter is_asks_Validate calls
     = match proto_UnmarshalJSON data (Config reg) with
       | inl _ => []
       | inr conf => [asks_Validate conf]
       end.
Proof.
  unfold registry.ParseConfig.
  destruct (proto_UnmarshalJSON data (Config reg)) as [err|conf] eqn:Hd.
  - split; [done|]. split; [|done]. intros _. exists err. split; [done|].
    by left.
  - destruct (Validate conf) as [err|] eqn:Hv.
    + split; [done|]. split; [|done]. intros _. exists err. split; [done|].
      right. by exists conf.
    + split; [|split; [done|done]]. by intros conf' [= <-].
Qed.

End Configurations.

(** The configuration of a registry that is its server address. *)
Lemma ParseConfig_validated_witness :
  let (calls, result) :=
    registry.ParseConfig (fun _ : unit => scenario.address) tt
      (bytes_of_string "nacos:8848") in
  (forall conf,
     fst result = Some conf ->
     snd result = None
     /\ proto_UnmarshalJSON (bytes_of_string "nacos:8848") scenario.address
        = inr conf
     /\ Validate conf = None)
  /\ (fst result = None ->
      exists err,
        snd result = Some err
        /\ (proto_UnmarshalJSON (bytes_of_string "nacos:8848") scenario.address
            = inl err
            \/ exists conf,
                 proto_UnmarshalJSON (bytes_of_string "nacos:8848")
                   scenario.address = inr conf
                 /\ Validate conf = Some err))
  /\ List.filter is_asks_Validate calls
     = match proto_UnmarshalJSON (bytes_of_string "nacos:8848")
               scenario.address with
       | inl _ => []
       | inr conf => [asks_Validate conf]
       end.
Proof.
  exact (ParseConfig_validated (fun _ : unit => scenario.address) tt
           (bytes_of_string "nacos:8848")).
Defined.

End RegistryLifeSpec.
